(** * Orphan transaction pool and spork manager

    A shallow embedding of [src/txorphanage.cpp] (class [TxOrphanage]),
    [src/spork.cpp] (classes [CSporkManager] and [CSporkMessage]) and the
    class [CachedHashesMap] of [src/script/sigcache.h], and the properties
    of these components.

    Conventions of the embedding:
    - 256-bit and 160-bit blobs ([Wtxid], [Txid], [uint256], [CKeyID]) are
      natural numbers [N]: the blob read as a big-endian number, so that the
      byte-wise comparison that orders a [std::map] is the numeric order;
    - [NodeId], time points and spork values are 64-bit signed integers,
      written as [Z] (the code never wraps them on the paths modelled here);
    - a [std::map] or [std::unordered_map] is a [gmap], a [std::set] a [gset],
      a [std::vector] a [list];
    - a [std::map] iterator is the key of the entry it points to: map nodes
      are stable, so an iterator identifies its entry as long as it is live;
    - a call that fails an [assert], indexes a vector out of range or
      dereferences a dangling iterator yields [None]. *)

From Stdlib Require Import ZArith Lia String.
From stdpp Require Import gmap list sorting fin_maps fin_sets strings.

Open Scope Z_scope.

(* ===================================================================== *)
(** * Part I: the orphanage ([src/txorphanage.cpp])                       *)
(* ===================================================================== *)

Module Orphanage.

Abbreviation Wtxid := N.
Abbreviation Txid := N.
Abbreviation NodeId := Z.
(** [COutPoint(hash, n)] *)
Abbreviation COutPoint := (N * N)%type.

(** The part of [CTransaction] the orphanage reads: both hashes, the
    [prevout] of every [CTxIn] of [vin], the number of outputs, and the
    value [GetTransactionWeight] returns for it (the [unsigned int sz] of
    [AddTx]). *)
Record CTransaction := mkTx {
  GetHash : Txid;
  GetWitnessHash : Wtxid;
  vin : list COutPoint;
  vout_size : nat;
  GetTransactionWeight : Z
}.

(** [struct OrphanTx] *)
Record OrphanTx := mkOrphanTx {
  tx : CTransaction;
  announcers : gset NodeId;
  nTimeExpire : Z;
  list_pos : nat;
  parent_txids : list Txid
}.

(** The data members of [TxOrphanage]. *)
Record TxOrphanage := mkOrphanage {
  m_orphans : gmap Wtxid OrphanTx;
  m_orphan_list : list Wtxid;
  m_outpoint_to_orphan_it : gmap COutPoint (gset Wtxid);
  m_peer_work_set : gmap NodeId (gset Wtxid);
  m_next_sweep : Z
}.

Definition empty_orphanage (next_sweep : Z) : TxOrphanage :=
  mkOrphanage ∅ [] ∅ ∅ next_sweep.

(** Modelled from the spec: the header that declares these constants is not
    part of the sources; the spec gives [ORPHAN_EXPIRE_TIME = 20 minutes]
    and [ORPHAN_EXPIRE_INTERVAL = 5 minutes].  Time is counted in seconds
    ([NodeSeconds]). *)
Definition ORPHAN_TX_EXPIRE_TIME : Z := 20 * 60.
Definition ORPHAN_TX_EXPIRE_INTERVAL : Z := 5 * 60.

(** [FastRandomContext]: only [randrange] is used, and only its contract
    ([randrange(n)] is below [n]) matters. *)
Class FastRandomContext (R : Type) := {
  randrange : R → nat → nat * R;
  randrange_lt : ∀ r n, (0 < n)%nat → ((randrange r n).1 < n)%nat
}.

(** The order in which a [std::set<OrphanMap::iterator, IteratorComparator>]
    is walked.  The comparator orders iterators by the address of the map
    node, which the program does not control: any enumeration without
    repetition of the set's elements is possible. *)
Class IteratorOrder := {
  set_walk : gset Wtxid → list Wtxid;
  set_walk_perm : ∀ its, set_walk its ≡ₚ elements its
}.

Definition set_list_pos (pos : nat) (e : OrphanTx) : OrphanTx :=
  mkOrphanTx (tx e) (announcers e) (nTimeExpire e) pos (parent_txids e).

Definition set_announcers (a : gset NodeId) (e : OrphanTx) : OrphanTx :=
  mkOrphanTx (tx e) a (nTimeExpire e) (list_pos e) (parent_txids e).

Definition with_orphans (m : gmap Wtxid OrphanTx) (s : TxOrphanage) : TxOrphanage :=
  mkOrphanage m (m_orphan_list s) (m_outpoint_to_orphan_it s)
              (m_peer_work_set s) (m_next_sweep s).

Definition with_next_sweep (t : Z) (s : TxOrphanage) : TxOrphanage :=
  mkOrphanage (m_orphans s) (m_orphan_list s) (m_outpoint_to_orphan_it s)
              (m_peer_work_set s) t.

Definition with_work_set (ws : gmap NodeId (gset Wtxid)) (s : TxOrphanage) : TxOrphanage :=
  mkOrphanage (m_orphans s) (m_orphan_list s) (m_outpoint_to_orphan_it s)
              ws (m_next_sweep s).

(** [m_outpoint_to_orphan_it[prevout].insert(it)] *)
Definition index_prevout (wtxid : Wtxid) (byprev : gmap COutPoint (gset Wtxid))
    (prevout : COutPoint) : gmap COutPoint (gset Wtxid) :=
  <[prevout := default ∅ (byprev !! prevout) ∪ {[wtxid]}]> byprev.

Section WithPolicy.

(** [policy/policy.h] is not part of the sources: the constant is a
    parameter. *)
Variable MAX_STANDARD_TX_WEIGHT : Z.

(** [TxOrphanage::AddTx].  [nNow] is the value of [Now<NodeSeconds>()].
    The [assert(ret.second)] cannot fail: the [emplace] follows a failed
    [find] of the same key. *)
Definition AddTx (ptx : CTransaction) (peer : NodeId) (parents : list Txid)
    (nNow : Z) (s : TxOrphanage) : bool * TxOrphanage :=
  let wtxid := GetWitnessHash ptx in
  match m_orphans s !! wtxid with
  | Some e =>
      (false,
       with_orphans (<[wtxid := set_announcers (announcers e ∪ {[peer]}) e]> (m_orphans s)) s)
  | None =>
      let sz := GetTransactionWeight ptx in
      if decide (MAX_STANDARD_TX_WEIGHT < sz) then (false, s)
      else
        let e := mkOrphanTx ptx {[peer]} (nNow + ORPHAN_TX_EXPIRE_TIME)
                            (length (m_orphan_list s)) parents in
        (true,
         mkOrphanage (<[wtxid := e]> (m_orphans s))
                     (m_orphan_list s ++ [wtxid])
                     (foldl (index_prevout wtxid) (m_outpoint_to_orphan_it s) (vin ptx))
                     (m_peer_work_set s)
                     (m_next_sweep s))
  end.

End WithPolicy.

(** One round of the loop over [vin] in [EraseTx]. *)
Definition unindex_prevout (wtxid : Wtxid) (byprev : gmap COutPoint (gset Wtxid))
    (prevout : COutPoint) : gmap COutPoint (gset Wtxid) :=
  match byprev !! prevout with
  | None => byprev
  | Some its =>
      let its' := its ∖ {[wtxid]} in
      if decide (its' = ∅) then delete prevout byprev else <[prevout := its']> byprev
  end.

(** [m_orphan_list.pop_back()] *)
Definition pop_back {A} (l : list A) : list A := take (pred (length l)) l.

(** [TxOrphanage::EraseTx] *)
Definition EraseTx (wtxid : Wtxid) (s : TxOrphanage) : option (Z * TxOrphanage) :=
  match m_orphans s !! wtxid with
  | None => Some (0, s)
  | Some e =>
      let byprev := foldl (unindex_prevout wtxid) (m_outpoint_to_orphan_it s) (vin (tx e)) in
      let old_pos := list_pos e in
      it0 ← m_orphan_list s !! old_pos;
      if decide (it0 = wtxid) then
        moved ←
          (if decide (old_pos + 1 ≠ length (m_orphan_list s))%nat then
             it_last ← last (m_orphan_list s);
             e_last ← m_orphans s !! it_last;
             Some (<[it_last := set_list_pos old_pos e_last]> (m_orphans s),
                   <[old_pos := it_last]> (m_orphan_list s))
           else Some (m_orphans s, m_orphan_list s));
        Some (1, mkOrphanage (delete wtxid moved.1) (pop_back moved.2) byprev
                             (m_peer_work_set s) (m_next_sweep s))
      else None
  end.

(** The keys of [m_orphans] in the order [std::map] iterates them. *)
Definition orphan_keys (m : gmap Wtxid OrphanTx) : list Wtxid :=
  merge_sort N.le (elements (dom m)).

(** The expiry loop of [LimitOrphans] over the keys still to visit.  The
    iterator is advanced before the entry it pointed to is erased, so the
    loop visits every entry that was in the map when it started. *)
Fixpoint sweep_loop (nNow : Z) (keys : list Wtxid) (erased : list Wtxid)
    (nMinExpTime : Z) (s : TxOrphanage) : option (list Wtxid * Z * TxOrphanage) :=
  match keys with
  | [] => Some (erased, nMinExpTime, s)
  | k :: keys' =>
      maybeErase ← m_orphans s !! k;
      if decide (nTimeExpire maybeErase ≤ nNow) then
        let wtxid := GetWitnessHash (tx maybeErase) in
        r ← EraseTx wtxid s;
        sweep_loop nNow keys' (erased ++ [wtxid]) nMinExpTime r.2
      else
        sweep_loop nNow keys' erased (Z.min (nTimeExpire maybeErase) nMinExpTime) s
  end.

(** The [if (m_next_sweep <= nNow)] block of [LimitOrphans]. *)
Definition expiry_sweep (nNow : Z) (s : TxOrphanage) : option (list Wtxid * TxOrphanage) :=
  if decide (m_next_sweep s ≤ nNow) then
    r ← sweep_loop nNow (orphan_keys (m_orphans s)) []
           (nNow + ORPHAN_TX_EXPIRE_TIME - ORPHAN_TX_EXPIRE_INTERVAL) s;
    Some (r.1.1, with_next_sweep (r.1.2 + ORPHAN_TX_EXPIRE_INTERVAL) r.2)
  else Some ([], s).

(** The [while (m_orphans.size() > max_orphans)] loop of [LimitOrphans];
    [fuel] bounds the number of rounds ([None] when it runs out). *)
Fixpoint evict_loop `{FastRandomContext R} (fuel : nat) (max_orphans : nat) (rng : R)
    (erased : list Wtxid) (s : TxOrphanage) : option (list Wtxid * TxOrphanage * R) :=
  if decide (max_orphans < size (m_orphans s))%nat then
    match fuel with
    | O => None
    | S fuel' =>
        let rr := randrange rng (length (m_orphan_list s)) in
        it ← m_orphan_list s !! rr.1;
        e ← m_orphans s !! it;
        let wtxid := GetWitnessHash (tx e) in
        r ← EraseTx wtxid s;
        evict_loop fuel' max_orphans rr.2 (erased ++ [wtxid]) r.2
    end
  else Some (erased, s, rng).

(** [TxOrphanage::LimitOrphans].  Every round of the eviction loop erases
    one entry, so it makes at most [m_orphans.size()] rounds. *)
Definition LimitOrphans `{FastRandomContext R} (max_orphans : nat) (rng : R) (nNow : Z)
    (s : TxOrphanage) : option (list Wtxid * TxOrphanage * R) :=
  r ← expiry_sweep nNow s;
  evict_loop (size (m_orphans r.2)) max_orphans rng r.1 r.2.

(** [TxOrphanage::EraseOrphanOfPeer] *)
Definition EraseOrphanOfPeer (wtxid : Wtxid) (peer : NodeId) (s : TxOrphanage)
    : option TxOrphanage :=
  match m_orphans s !! wtxid with
  | None => Some s
  | Some e =>
      let s1 :=
        match m_peer_work_set s !! peer with
        | Some ws => with_work_set (<[peer := ws ∖ {[wtxid]}]> (m_peer_work_set s)) s
        | None => s
        end in
      if decide (peer ∈ announcers e) then
        if decide (size (announcers e) = 1%nat) then
          r ← EraseTx wtxid s1; Some r.2
        else
          Some (with_orphans
                  (<[wtxid := set_announcers (announcers e ∖ {[peer]}) e]> (m_orphans s1)) s1)
      else Some s1
  end.

(** [CBlock]: the transactions of the block. *)
Abbreviation CBlock := (list CTransaction).

(** The wtxids [EraseForBlock] gathers for one block input: the inner
    [for (auto mi = ...)] loop. *)
Definition orphans_spending `{IteratorOrder} (s : TxOrphanage) (prevout : COutPoint)
    : option (list Wtxid) :=
  match m_outpoint_to_orphan_it s !! prevout with
  | None => Some []
  | Some its =>
      mapM (λ mi, orphanTx ← m_orphans s !! mi; Some (GetWitnessHash (tx orphanTx)))
           (set_walk its)
  end.

(** The loop over [tx.vin] of [EraseForBlock]. *)
Fixpoint gather_for_inputs `{IteratorOrder} (s : TxOrphanage) (inputs : list COutPoint)
    : option (list Wtxid) :=
  match inputs with
  | [] => Some []
  | prevout :: inputs' =>
      a ← orphans_spending s prevout;
      b ← gather_for_inputs s inputs';
      Some (a ++ b)
  end.

(** The loop over [block.vtx] of [EraseForBlock]. *)
Fixpoint gather_for_block `{IteratorOrder} (s : TxOrphanage) (block : CBlock)
    : option (list Wtxid) :=
  match block with
  | [] => Some []
  | ptx :: block' =>
      a ← gather_for_inputs s (vin ptx);
      b ← gather_for_block s block';
      Some (a ++ b)
  end.

(** The second loop of [EraseForBlock]. *)
Fixpoint erase_all (hashes : list Wtxid) (s : TxOrphanage) : option (Z * TxOrphanage) :=
  match hashes with
  | [] => Some (0, s)
  | h :: hashes' =>
      r ← EraseTx h s;
      r' ← erase_all hashes' r.2;
      Some (r.1 + r'.1, r'.2)
  end.

(** [TxOrphanage::EraseForBlock] *)
Definition EraseForBlock `{IteratorOrder} (block : CBlock) (s : TxOrphanage)
    : option (list Wtxid * TxOrphanage) :=
  vOrphanErase ← gather_for_block s block;
  r ← erase_all vOrphanErase s;
  Some (vOrphanErase, r.2).

(** ** The state invariant and the call sequences of the properties *)

(** What [EraseTx] of [w] leaves of the set stored for an outpoint that [w]
    spends. *)
Definition unindexed (w : Wtxid) (o : option (gset Wtxid)) : option (gset Wtxid) :=
  match o with
  | None => None
  | Some its => if decide (its ∖ {[w]} = ∅) then None else Some (its ∖ {[w]})
  end.

(** An entry without its [list_pos], the only field [EraseTx] rewrites in
    entries other than the erased one. *)
Definition payload (e : OrphanTx) : CTransaction * gset NodeId * Z * list Txid :=
  (tx e, announcers e, nTimeExpire e, parent_txids e).

(** The three indices cohere: [m_orphan_list] is as long as [m_orphans] is
    large, the handle at [list_pos] of every entry is the entry itself, and
    [m_outpoint_to_orphan_it] relates an outpoint to exactly the entries
    that spend it. *)
Record coherent (s : TxOrphanage) : Prop := {
  coh_size : length (m_orphan_list s) = size (m_orphans s);
  coh_pos : ∀ w e, m_orphans s !! w = Some e → m_orphan_list s !! list_pos e = Some w;
  coh_outpoint : ∀ p w,
    (∃ its, m_outpoint_to_orphan_it s !! p = Some its ∧ w ∈ its)
    ↔ (∃ e, m_orphans s !! w = Some e ∧ p ∈ vin (tx e))
}.

(** The invariant the operations preserve: the indices cohere, every handle
    of [m_orphan_list] is live, every entry is stored under the witness hash
    of its transaction, and no outpoint is mapped to an empty set. *)
Record Inv (s : TxOrphanage) : Prop := {
  inv_coherent : coherent s;
  inv_list : ∀ i w, m_orphan_list s !! i = Some w →
               ∃ e, m_orphans s !! w = Some e ∧ list_pos e = i;
  inv_key : ∀ w e, m_orphans s !! w = Some e → GetWitnessHash (tx e) = w;
  inv_nonempty : ∀ p its, m_outpoint_to_orphan_it s !! p = Some its → its ≠ ∅
}.

(** One call of [AddTx], [EraseTx] or [LimitOrphans] with its arguments and
    the clock reading it sees. *)
Inductive Call (R : Type) :=
  | CallAddTx (ptx : CTransaction) (peer : NodeId) (parents : list Txid) (nNow : Z)
  | CallEraseTx (wtxid : Wtxid)
  | CallLimitOrphans (max_orphans : nat) (rng : R) (nNow : Z).
Arguments CallAddTx {R}.
Arguments CallEraseTx {R}.
Arguments CallLimitOrphans {R}.

Definition run_call `{FastRandomContext R} (maxWeight : Z) (c : Call R) (s : TxOrphanage)
    : option TxOrphanage :=
  match c with
  | CallAddTx ptx peer parents nNow => Some (AddTx maxWeight ptx peer parents nNow s).2
  | CallEraseTx wtxid => r ← EraseTx wtxid s; Some r.2
  | CallLimitOrphans max_orphans rng nNow =>
      r ← LimitOrphans max_orphans rng nNow s; Some r.1.2
  end.

Fixpoint run `{FastRandomContext R} (maxWeight : Z) (calls : list (Call R)) (s : TxOrphanage)
    : option TxOrphanage :=
  match calls with
  | [] => Some s
  | c :: calls' => s' ← run_call maxWeight c s; run maxWeight calls' s'
  end.

(** The entries the expiry sweep at [nNow] erases, in the order it meets
    them, and the least expiry it sees among the others, capped by its
    starting value. *)
Definition is_expired (nNow : Z) (m : gmap Wtxid OrphanTx) (k : Wtxid) : bool :=
  match m !! k with
  | Some e => bool_decide (nTimeExpire e ≤ nNow)
  | None => false
  end.

Definition expired_keys (nNow : Z) (m : gmap Wtxid OrphanTx) : list Wtxid :=
  filter (λ k, Is_true (is_expired nNow m k)) (orphan_keys m).

Definition surviving (nNow : Z) (m : gmap Wtxid OrphanTx) : gmap Wtxid OrphanTx :=
  filter (λ ke, nNow < nTimeExpire ke.2) m.

(** The inputs of all transactions of a block, in block order. *)
Definition block_inputs (block : CBlock) : list COutPoint := mjoin (vin <$> block).

(** How often [w] occurs in a vector of wtxids. *)
Definition occurrences (w : Wtxid) (l : list Wtxid) : nat :=
  length (filter (λ x, x = w) l).

(** How many inputs of the block name an outpoint that [e] spends. *)
Definition spent_inputs (e : OrphanTx) (block : CBlock) : nat :=
  length (filter (λ p, p ∈ vin (tx e)) (block_inputs block)).

(** ** Fixtures for the closed examples *)

(** A random context that counts its draws. *)
#[export] Program Instance counting_rng : FastRandomContext nat :=
  {| randrange r n := ((r `mod` n)%nat, S r) |}.
Next Obligation. intros r n Hn; simpl. apply Nat.mod_upper_bound. lia. Qed.

(** A walk of the iterator sets in the order of [elements]. *)
#[export] Program Instance elements_order : IteratorOrder :=
  {| set_walk := elements |}.
Next Obligation. reflexivity. Qed.

(** An orphan of weight 800 that spends output 0 of transaction 5. *)
Definition tx1 : CTransaction := mkTx 11 21 [(5%N, 0%N)] 1 800.

(** An orphan that spends outputs 0 and 1 of transaction 5. *)
Definition tx2 : CTransaction := mkTx 12 22 [(5%N, 0%N); (5%N, 1%N)] 1 900.

(** A transaction of a block that spends the same two outputs. *)
Definition tx3 : CTransaction := mkTx 13 23 [(5%N, 0%N); (5%N, 1%N)] 2 700.

(** The orphanage after peer 7 announced [tx1] at time 1000. *)
Definition one_orphan : TxOrphanage :=
  (AddTx 400000 tx1 7 [] 1000 (empty_orphanage 0)).2.

(** The orphanage after peer 8 also announced [tx2], at time 1010. *)
Definition two_orphans : TxOrphanage :=
  (AddTx 400000 tx2 8 [5%N] 1010 one_orphan).2.

(** ** The other operations of [TxOrphanage] *)

(** [TxOrphanage::AddAnnouncer]; the result is [ret.second] of the
    [insert].  [Assume] evaluates its argument and goes on (it stops debug
    builds only), so the entry is updated whatever its announcers. *)
Definition AddAnnouncer (wtxid : Wtxid) (peer : NodeId) (s : TxOrphanage)
    : bool * TxOrphanage :=
  match m_orphans s !! wtxid with
  | Some e =>
      (bool_decide (peer ∉ announcers e),
       with_orphans (<[wtxid := set_announcers (announcers e ∪ {[peer]}) e]> (m_orphans s)) s)
  | None => (false, s)
  end.

(** [TxOrphanage::HaveTx] *)
Definition HaveTx (wtxid : Wtxid) (s : TxOrphanage) : bool :=
  bool_decide (is_Some (m_orphans s !! wtxid)).

(** [TxOrphanage::HaveTxAndPeer] *)
Definition HaveTxAndPeer (wtxid : Wtxid) (peer : NodeId) (s : TxOrphanage) : bool :=
  match m_orphans s !! wtxid with
  | Some e => bool_decide (peer ∈ announcers e)
  | None => false
  end.

(** [TxOrphanage::GetParentTxids] *)
Definition GetParentTxids (wtxid : Wtxid) (s : TxOrphanage) : option (list Txid) :=
  parent_txids <$> m_orphans s !! wtxid.

(** The loop of [EraseForPeer] over the keys still to visit; like the
    expiry loop, it steps the iterator before it erases. *)
Fixpoint erase_for_peer_loop (peer : NodeId) (keys : list Wtxid) (nErased : Z)
    (s : TxOrphanage) : option (Z * TxOrphanage) :=
  match keys with
  | [] => Some (nErased, s)
  | k :: keys' =>
      orphan ← m_orphans s !! k;
      if decide (peer ∈ announcers orphan) then
        if decide (size (announcers orphan) = 1%nat) then
          r ← EraseTx (GetWitnessHash (tx orphan)) s;
          erase_for_peer_loop peer keys' (nErased + r.1) r.2
        else
          erase_for_peer_loop peer keys' nErased
            (with_orphans
               (<[k := set_announcers (announcers orphan ∖ {[peer]}) orphan]> (m_orphans s)) s)
      else erase_for_peer_loop peer keys' nErased s
  end.

(** [TxOrphanage::EraseForPeer] *)
Definition EraseForPeer (peer : NodeId) (s : TxOrphanage) : option TxOrphanage :=
  let s0 := with_work_set (delete peer (m_peer_work_set s)) s in
  r ← erase_for_peer_loop peer (orphan_keys (m_orphans s0)) 0 s0;
  Some r.2.

(** [m_peer_work_set.try_emplace(announcer).first->second.insert(wtxid)] *)
Definition add_to_work_set (wtxid : Wtxid) (ws : gmap NodeId (gset Wtxid))
    (announcer : NodeId) : gmap NodeId (gset Wtxid) :=
  <[announcer := default ∅ (ws !! announcer) ∪ {[wtxid]}]> ws.

(** The loop of [AddChildrenToWorkSet] over the entries that spend one
    outpoint; it breaks at an entry without announcers. *)
Fixpoint add_children_walk (orphans : gmap Wtxid OrphanTx) (elems : list Wtxid)
    (ws : gmap NodeId (gset Wtxid)) : option (gmap NodeId (gset Wtxid)) :=
  match elems with
  | [] => Some ws
  | elem :: elems' =>
      e ← orphans !! elem;
      if decide (announcers e = ∅) then Some ws
      else add_children_walk orphans elems'
             (foldl (add_to_work_set elem) ws (elements (announcers e)))
  end.

(** The loop of [AddChildrenToWorkSet] over the output indices. *)
Fixpoint add_children_outputs `{IteratorOrder} (s : TxOrphanage) (hash : Txid)
    (indices : list nat) (ws : gmap NodeId (gset Wtxid))
    : option (gmap NodeId (gset Wtxid)) :=
  match indices with
  | [] => Some ws
  | i :: indices' =>
      match m_outpoint_to_orphan_it s !! (hash, N.of_nat i) with
      | Some its =>
          ws' ← add_children_walk (m_orphans s) (set_walk its) ws;
          add_children_outputs s hash indices' ws'
      | None => add_children_outputs s hash indices' ws
      end
  end.

(** [TxOrphanage::AddChildrenToWorkSet] *)
Definition AddChildrenToWorkSet `{IteratorOrder} (parent : CTransaction) (s : TxOrphanage)
    : option TxOrphanage :=
  ws ← add_children_outputs s (GetHash parent) (seq 0 (vout_size parent))
         (m_peer_work_set s);
  Some (with_work_set ws s).

(** The loop of [GetTxToReconsider] over the work set, smallest wtxid
    first: the transaction found, if any, and what is left of the set. *)
Fixpoint reconsider_loop (orphans : gmap Wtxid OrphanTx) (work_set : list Wtxid)
    : option CTransaction * list Wtxid :=
  match work_set with
  | [] => (None, [])
  | wtxid :: work_set' =>
      match orphans !! wtxid with
      | Some e => (Some (tx e), work_set')
      | None => reconsider_loop orphans work_set'
      end
  end.

(** [TxOrphanage::GetTxToReconsider]; [None] is the null pointer. *)
Definition GetTxToReconsider (peer : NodeId) (s : TxOrphanage)
    : option CTransaction * TxOrphanage :=
  match m_peer_work_set s !! peer with
  | Some work_set =>
      let r := reconsider_loop (m_orphans s) (merge_sort N.le (elements work_set)) in
      (r.1, with_work_set (<[peer := list_to_set r.2]> (m_peer_work_set s)) s)
  | None => (None, s)
  end.

(** [TxOrphanage::HaveTxToReconsider] *)
Definition HaveTxToReconsider (peer : NodeId) (s : TxOrphanage) : bool :=
  match m_peer_work_set s !! peer with
  | Some work_set => bool_decide (work_set ≠ ∅)
  | None => false
  end.

(** The address of the map node of an entry, which [GetChildrenFromSamePeer]
    compares to break ties: distinct entries have distinct addresses. *)
Class NodeAddress := {
  address_of : Wtxid → N;
  address_of_inj : ∀ a b, address_of a = address_of b → a = b
}.

(** The comparator of the [std::sort] in [GetChildrenFromSamePeer], on
    pairs of [nTimeExpire] and handle. *)
Definition sorts_before `{NodeAddress} (lhs rhs : Z * Wtxid) : bool :=
  if decide (lhs.1 = rhs.1) then bool_decide (address_of lhs.2 < address_of rhs.2)%N
  else bool_decide (lhs.1 > rhs.1).

(** [std::sort] with that comparator: the comparator is a strict total
    order on pairs with distinct handles, so every sorting algorithm
    yields the same vector. *)
Definition sort_children `{NodeAddress} (iters : list (Z * Wtxid)) : list (Z * Wtxid) :=
  merge_sort (λ lhs rhs, Is_true (negb (sorts_before rhs lhs))) iters.

(** [std::unique]: of consecutive equal elements the first is kept. *)
Fixpoint unique {A} `{EqDecision A} (l : list A) : list A :=
  match l with
  | [] => []
  | x :: l' =>
      match l' with
      | y :: _ => if decide (x = y) then unique l' else x :: unique l'
      | [] => [x]
      end
  end.

(** The entries [GetChildrenFromSamePeer] gathers for one outpoint. *)
Definition children_of_outpoint `{IteratorOrder} (s : TxOrphanage) (nodeid : NodeId)
    (prevout : COutPoint) : option (list (Z * Wtxid)) :=
  match m_outpoint_to_orphan_it s !! prevout with
  | Some its =>
      found ← mapM (λ elem, e ← m_orphans s !! elem; Some (elem, e)) (set_walk its);
      Some ((λ ee, (nTimeExpire ee.2, ee.1))
              <$> filter (λ ee, nodeid ∈ announcers ee.2) found)
  | None => Some []
  end.

(** The first loop of [GetChildrenFromSamePeer]. *)
Fixpoint gather_children `{IteratorOrder} (s : TxOrphanage) (nodeid : NodeId) (hash : Txid)
    (indices : list nat) : option (list (Z * Wtxid)) :=
  match indices with
  | [] => Some []
  | i :: indices' =>
      a ← children_of_outpoint s nodeid (hash, N.of_nat i);
      b ← gather_children s nodeid hash indices';
      Some (a ++ b)
  end.

(** [TxOrphanage::GetChildrenFromSamePeer] *)
Definition GetChildrenFromSamePeer `{IteratorOrder} `{NodeAddress} (parent : CTransaction)
    (nodeid : NodeId) (s : TxOrphanage) : option (list CTransaction) :=
  iters ← gather_children s nodeid (GetHash parent) (seq 0 (vout_size parent));
  mapM (λ child_iter, e ← m_orphans s !! child_iter.2; Some (tx e))
       (unique (sort_children iters)).

(** ** Invariant and runs over all operations *)

(** Every live entry has an announcer. *)
Definition announced (s : TxOrphanage) : Prop :=
  ∀ w e, m_orphans s !! w = Some e → announcers e ≠ ∅.

(** [e] spends an output of [parent]. *)
Definition spends_output_of (parent : CTransaction) (e : OrphanTx) : Prop :=
  ∃ i, (i < vout_size parent)%nat ∧ (GetHash parent, N.of_nat i) ∈ vin (tx e).

(** One call of a state-changing operation of the orphanage. *)
Inductive Op (R : Type) :=
  | OpAddTx (ptx : CTransaction) (peer : NodeId) (parents : list Txid) (nNow : Z)
  | OpAddAnnouncer (wtxid : Wtxid) (peer : NodeId)
  | OpEraseTx (wtxid : Wtxid)
  | OpEraseForPeer (peer : NodeId)
  | OpLimitOrphans (max_orphans : nat) (rng : R) (nNow : Z)
  | OpAddChildrenToWorkSet (parent : CTransaction)
  | OpGetTxToReconsider (peer : NodeId)
  | OpEraseForBlock (block : CBlock)
  | OpEraseOrphanOfPeer (wtxid : Wtxid) (peer : NodeId).
Arguments OpAddTx {R}.
Arguments OpAddAnnouncer {R}.
Arguments OpEraseTx {R}.
Arguments OpEraseForPeer {R}.
Arguments OpLimitOrphans {R}.
Arguments OpAddChildrenToWorkSet {R}.
Arguments OpGetTxToReconsider {R}.
Arguments OpEraseForBlock {R}.
Arguments OpEraseOrphanOfPeer {R}.

Definition apply_op `{FastRandomContext R} `{IteratorOrder} (maxWeight : Z) (op : Op R)
    (s : TxOrphanage) : option TxOrphanage :=
  match op with
  | OpAddTx ptx peer parents nNow => Some (AddTx maxWeight ptx peer parents nNow s).2
  | OpAddAnnouncer wtxid peer => Some (AddAnnouncer wtxid peer s).2
  | OpEraseTx wtxid => r ← EraseTx wtxid s; Some r.2
  | OpEraseForPeer peer => EraseForPeer peer s
  | OpLimitOrphans max_orphans rng nNow =>
      r ← LimitOrphans max_orphans rng nNow s; Some r.1.2
  | OpAddChildrenToWorkSet parent => AddChildrenToWorkSet parent s
  | OpGetTxToReconsider peer => Some (GetTxToReconsider peer s).2
  | OpEraseForBlock block => r ← EraseForBlock block s; Some r.2
  | OpEraseOrphanOfPeer wtxid peer => EraseOrphanOfPeer wtxid peer s
  end.

Fixpoint apply_ops `{FastRandomContext R} `{IteratorOrder} (maxWeight : Z)
    (ops : list (Op R)) (s : TxOrphanage) : option TxOrphanage :=
  match ops with
  | [] => Some s
  | op :: ops' => s' ← apply_op maxWeight op s; apply_ops maxWeight ops' s'
  end.

(** What [EraseForPeer] of [peer] leaves of an entry: nothing when [peer]
    is its only announcer, the entry without [peer] otherwise. *)
Definition without_peer (peer : NodeId) (e : OrphanTx) : option OrphanTx :=
  if decide (peer ∈ announcers e) then
    if decide (size (announcers e) = 1%nat) then None
    else Some (set_announcers (announcers e ∖ {[peer]}) e)
  else Some e.

(** The work set of a peer, empty when the peer has none. *)
Definition work_set_of (peer : NodeId) (s : TxOrphanage) : gset Wtxid :=
  default ∅ (m_peer_work_set s !! peer).

(** The order in which [sort_children] puts its elements. *)
Definition not_after `{NodeAddress} (a b : Z * Wtxid) : Prop :=
  Is_true (negb (sorts_before b a)).

(** An element of the vector [GetChildrenFromSamePeer] gathers for an
    outpoint: a live entry of the peer that spends it, with its expiry. *)
Definition child_at (s : TxOrphanage) (nodeid : NodeId) (q : COutPoint)
    (it : Z * Wtxid) : Prop :=
  ∃ e, m_orphans s !! it.2 = Some e ∧ it.1 = nTimeExpire e
       ∧ nodeid ∈ announcers e ∧ q ∈ vin (tx e).

(** The parent of [tx1] and [tx2]: transaction 5 with two outputs. *)
Definition tx5 : CTransaction := mkTx 5 15 [(1%N, 0%N)] 2 600.

(** [two_orphans] after peer 7 also announced [tx2] and the parent came. *)
Definition two_orphans_queued : TxOrphanage :=
  default two_orphans (AddChildrenToWorkSet tx5 (AddAnnouncer 22 7 two_orphans).2).

(** A node address for the closed examples: the wtxid itself. *)
#[export] Instance wtxid_address : NodeAddress :=
  {| address_of := λ w, w; address_of_inj := λ a b H, H |}.

End Orphanage.

(* ===================================================================== *)
(** * Part II: the spork manager ([src/spork.cpp])                        *)
(* ===================================================================== *)

Module Spork.

Abbreviation SporkId := Z.
Abbreviation CKeyID := N.
Abbreviation uint256 := N.
Abbreviation NodeId := Z.

(** [class CSporkMessage] *)
Record CSporkMessage := mkSpork {
  nSporkID : SporkId;
  nValue : Z;
  nTimeSigned : Z;
  vchSig : list Byte.byte
}.

(** One row of the table [sporkDefs]. *)
Record CSporkDef := mkSporkDef {
  sporkId : SporkId;
  defaultValue : Z;
  name : string
}.

(** What [spork.cpp] takes from the rest of the node: the key type and the
    hashing and signature primitives, the table [sporkDefs], the command
    name [NetMsgType::SPORK], and the order in which the signers of one
    spork are walked (the container types are declared in a header that is
    not part of the sources, so any enumeration of the entries is allowed). *)
Class SporkEnv := {
  CKey : Type;
  key_IsValid : CKey → bool;
  key_GetPubKeyID : CKey → CKeyID;
  SerializeHash : CSporkMessage → uint256;
  HashWriter3 : Z → Z → Z → uint256;
  SignHash : uint256 → CKey → option (list Byte.byte);
  VerifyHash : uint256 → CKeyID → list Byte.byte → bool;
  RecoverCompact : uint256 → list Byte.byte → option CKeyID;
  sporkDefs : list CSporkDef;
  NetMsgType_SPORK : string;
  signer_walk : gmap CKeyID CSporkMessage → list (CKeyID * CSporkMessage);
  signer_walk_perm : ∀ m, signer_walk m ≡ₚ map_to_list m
}.

(** The calls [spork.cpp] makes on the [PeerManager], in program order. *)
Inductive PeerManagerCall :=
  | AddKnownTx (id : NodeId) (hash : uint256)
  | ReceivedResponse (id : NodeId) (hash : uint256)
  | ForgetTxHash (id : NodeId) (hash : uint256)
  | Misbehaving (id : NodeId) (howmuch : Z) (message : string)
  | RelayTransactionOther (hash : uint256).

(** Occurrences of a value in a list of values. *)
Abbreviation tally v l := (length (filter (λ x, x = v) l)).

Section WithEnv.
Context `{SporkEnv}.

(** The data members of [CSporkManager]. *)
Record CSporkManager := mkManager {
  mapSporksByHash : gmap uint256 CSporkMessage;
  mapSporksActive : gmap SporkId (gmap CKeyID CSporkMessage);
  mapSporksCachedActive : gmap SporkId bool;
  mapSporksCachedValues : gmap SporkId Z;
  setSporkPubKeyIDs : gset CKeyID;
  nMinSporkKeys : Z;
  sporkPrivKey : CKey
}.

(** A manager that holds no message yet. *)
Definition fresh_manager (keys : gset CKeyID) (minKeys : Z) (priv : CKey) : CSporkManager :=
  mkManager ∅ ∅ ∅ ∅ keys minKeys priv.

(** [CSporkMessage::GetHash] *)
Definition GetHash (m : CSporkMessage) : uint256 := SerializeHash m.

(** [CSporkMessage::GetSignatureHash] *)
Definition GetSignatureHash (m : CSporkMessage) : uint256 :=
  HashWriter3 (nSporkID m) (nValue m) (nTimeSigned m).

(** [CSporkMessage::Sign]: the signed message, or [None] where the code
    returns [false]. *)
Definition Sign (key : CKey) (m : CSporkMessage) : option CSporkMessage :=
  if key_IsValid key then
    let pubKeyId := key_GetPubKeyID key in
    let hash := GetSignatureHash m in
    sig ← SignHash hash key;
    if VerifyHash hash pubKeyId sig
    then Some (mkSpork (nSporkID m) (nValue m) (nTimeSigned m) sig)
    else None
  else None.

(** [CSporkMessage::CheckSignature] *)
Definition CheckSignature (m : CSporkMessage) (pubKeyId : CKeyID) : bool :=
  VerifyHash (GetSignatureHash m) pubKeyId (vchSig m).

(** [CSporkMessage::GetSignerKeyID] *)
Definition GetSignerKeyID (m : CSporkMessage) : option CKeyID :=
  RecoverCompact (GetSignatureHash m) (vchSig m).

(** [CSporkMessage::Relay] *)
Definition Relay (m : CSporkMessage) : list PeerManagerCall :=
  [RelayTransactionOther (GetHash m)].

(** The loop of [SporkValueIsActive] over the signers of one spork. *)
Fixpoint count_votes (nMin : Z) (signers : list (CKeyID * CSporkMessage))
    (mapValueCounts : gmap Z Z) : option Z :=
  match signers with
  | [] => None
  | (_, spork) :: signers' =>
      let counts :=
        <[nValue spork := default 0 (mapValueCounts !! nValue spork) + 1]> mapValueCounts in
      if decide (nMin ≤ default 0 (counts !! nValue spork))
      then Some (nValue spork)
      else count_votes nMin signers' counts
  end.

Definition with_cached_value (id : SporkId) (v : Z) (st : CSporkManager) : CSporkManager :=
  mkManager (mapSporksByHash st) (mapSporksActive st) (mapSporksCachedActive st)
            (<[id := v]> (mapSporksCachedValues st))
            (setSporkPubKeyIDs st) (nMinSporkKeys st) (sporkPrivKey st).

(** [CSporkManager::SporkValueIsActive]: [Some v] where the code returns
    [true] with [nActiveValueRet = v].  The caches are [mutable], so the
    manager is returned too. *)
Definition SporkValueIsActive (id : SporkId) (st : CSporkManager)
    : option Z * CSporkManager :=
  match mapSporksActive st !! id with
  | None => (None, st)
  | Some signers =>
      match mapSporksCachedValues st !! id with
      | Some v => (Some v, st)
      | None =>
          match count_votes (nMinSporkKeys st) (signer_walk signers) ∅ with
          | Some v => (Some v, with_cached_value id v st)
          | None => (None, st)
          end
      end
  end.

(** [CSporkManager::GetSporkValue] *)
Definition GetSporkValue (id : SporkId) (st : CSporkManager) : Z * CSporkManager :=
  let r := SporkValueIsActive id st in
  match r.1 with
  | Some nSporkValue => (nSporkValue, r.2)
  | None =>
      match find (λ d, bool_decide (sporkId d = id)) sporkDefs with
      | Some optSpork => (defaultValue optSpork, r.2)
      | None => (-1, r.2)
      end
  end.

(** [CSporkManager::IsSporkActive]; [now] is [GetAdjustedTime()]. *)
Definition IsSporkActive (id : SporkId) (now : Z) (st : CSporkManager)
    : bool * CSporkManager :=
  match mapSporksCachedActive st !! id with
  | Some true => (true, st)
  | _ =>
      let r := GetSporkValue id st in
      let ret := bool_decide (r.1 < now) in
      (ret,
       if ret then
         mkManager (mapSporksByHash r.2) (mapSporksActive r.2)
                   (<[id := ret]> (mapSporksCachedActive r.2))
                   (mapSporksCachedValues r.2)
                   (setSporkPubKeyIDs r.2) (nMinSporkKeys r.2) (sporkPrivKey r.2)
       else r.2)
  end.

(** [CSporkManager::Clear] *)
Definition Clear (st : CSporkManager) : CSporkManager :=
  mkManager ∅ ∅ (mapSporksCachedActive st) (mapSporksCachedValues st)
            (setSporkPubKeyIDs st) (nMinSporkKeys st) (sporkPrivKey st).

(** The block shared by [ProcessSpork] and [UpdateSpork] that stores a
    message and drops the cached values of its spork. *)
Definition install (hash : uint256) (keyIDSigner : CKeyID) (spork : CSporkMessage)
    (st : CSporkManager) : CSporkManager :=
  let id := nSporkID spork in
  mkManager (<[hash := spork]> (mapSporksByHash st))
            (<[id := <[keyIDSigner := spork]> (default ∅ (mapSporksActive st !! id))]>
               (mapSporksActive st))
            (delete id (mapSporksCachedActive st))
            (delete id (mapSporksCachedValues st))
            (setSporkPubKeyIDs st) (nMinSporkKeys st) (sporkPrivKey st).

(** The test that sets [bSeen] in [ProcessSpork]. *)
Definition seen (keyIDSigner : CKeyID) (spork : CSporkMessage) (st : CSporkManager) : bool :=
  match mapSporksActive st !! nSporkID spork with
  | Some signers =>
      match signers !! keyIDSigner with
      | Some stored => bool_decide (nTimeSigned stored >= nTimeSigned spork)
      | None => false
      end
  | None => false
  end.

(** [CSporkManager::ProcessSpork].  [pfrom] is the id of the sending node,
    [peer] tells whether [GetPeerRef] found it, [spork] is the message read
    from [vRecv], [now] is [GetAdjustedTime()].  The result is the manager
    and the calls made on the peer manager. *)
Definition ProcessSpork (pfrom : NodeId) (peer : bool) (strCommand : string)
    (spork : CSporkMessage) (now : Z) (st : CSporkManager)
    : CSporkManager * list PeerManagerCall :=
  if decide (strCommand ≠ NetMsgType_SPORK) then (st, [])
  else
    let hash := GetHash spork in
    let calls := (if peer then [AddKnownTx pfrom hash] else [])
                   ++ [ReceivedResponse pfrom hash] in
    if decide (nTimeSigned spork > now + 2 * 60 * 60) then
      (st, calls ++ [ForgetTxHash pfrom hash]
             ++ (if peer then [Misbehaving pfrom 100 "spork too far into the future"] else []))
    else
      match GetSignerKeyID spork with
      | Some keyIDSigner =>
          if decide (keyIDSigner ∈ setSporkPubKeyIDs st) then
            if seen keyIDSigner spork st then
              (st, calls ++ [ForgetTxHash pfrom hash])
            else
              (install hash keyIDSigner spork st,
               calls ++ Relay spork ++ [ForgetTxHash pfrom hash])
          else
            (st, calls ++ [ForgetTxHash pfrom hash]
                   ++ (if peer then [Misbehaving pfrom 100 "invalid spork signature"] else []))
      | None =>
          (st, calls ++ [ForgetTxHash pfrom hash]
                 ++ (if peer then [Misbehaving pfrom 100 "invalid spork signature"] else []))
      end.

(** [CSporkManager::UpdateSpork]; [now] is [GetAdjustedTime()]. *)
Definition UpdateSpork (id : SporkId) (value : Z) (now : Z) (st : CSporkManager)
    : bool * CSporkManager * list PeerManagerCall :=
  match Sign (sporkPrivKey st) (mkSpork id value now []) with
  | None => (false, st, [])
  | Some spork =>
      match GetSignerKeyID spork with
      | Some keyIDSigner =>
          if decide (keyIDSigner ∈ setSporkPubKeyIDs st) then
            (true, install (GetHash spork) keyIDSigner spork st, Relay spork)
          else (false, st, [])
      | None => (false, st, [])
      end
  end.

(** [CSporkManager::SetMinSporkKeys] *)
Definition SetMinSporkKeys (minSporkKeys : Z) (st : CSporkManager) : bool * CSporkManager :=
  let maxKeysNumber := Z.of_nat (size (setSporkPubKeyIDs st)) in
  if decide (minSporkKeys ≤ maxKeysNumber `quot` 2 ∨ minSporkKeys > maxKeysNumber)
  then (false, st)
  else (true,
        mkManager (mapSporksByHash st) (mapSporksActive st) (mapSporksCachedActive st)
                  (mapSporksCachedValues st) (setSporkPubKeyIDs st) minSporkKeys
                  (sporkPrivKey st)).

(** The test [fHasValidSig] of [CheckAndRemove]. *)
Definition fHasValidSig (keys : gset CKeyID) (signer : CKeyID) (m : CSporkMessage) : bool :=
  bool_decide (signer ∈ keys) && CheckSignature m signer.

(** The messages the first loop of [CheckAndRemove] drops. *)
Definition invalid_messages (keys : gset CKeyID)
    (active : gmap SporkId (gmap CKeyID CSporkMessage)) : list CSporkMessage :=
  mjoin ((λ entry,
            (λ km, km.2) <$>
              filter (λ km, ¬ Is_true (fHasValidSig keys km.1 km.2)) (map_to_list entry.2))
           <$> map_to_list active).

(** What the first loop of [CheckAndRemove] leaves of one spork's signers;
    [None] when the spork is erased from [mapSporksActive]. *)
Definition prune_signers (keys : gset CKeyID) (signers : gmap CKeyID CSporkMessage)
    : option (gmap CKeyID CSporkMessage) :=
  let kept := filter (λ km, Is_true (fHasValidSig keys km.1 km.2)) signers in
  if decide (size kept = 0%nat) then None else Some kept.

(** [CSporkManager::CheckAndRemove]; [None] when the [assert] fails.  Both
    loops erase entries independently of one another, so the order in which
    the maps are walked does not show in the result. *)
Definition CheckAndRemove (st : CSporkManager) : option CSporkManager :=
  if decide (setSporkPubKeyIDs st = ∅) then None
  else
    let keys := setSporkPubKeyIDs st in
    let byHash1 :=
      foldr (λ m acc, delete (GetHash m) acc) (mapSporksByHash st)
            (invalid_messages keys (mapSporksActive st)) in
    let active' := omap (prune_signers keys) (mapSporksActive st) in
    let byHash2 :=
      filter (λ hm, Exists (λ signer, Is_true (CheckSignature hm.2 signer)) (elements keys))
             byHash1 in
    Some (mkManager byHash2 active' (mapSporksCachedActive st) (mapSporksCachedValues st)
                    keys (nMinSporkKeys st) (sporkPrivKey st)).

(** ** Votes, stored messages and message sequences of the properties *)

(** The number of signers of one spork whose stored message carries [v]. *)
Definition votes (signers : gmap CKeyID CSporkMessage) (v : Z) : nat :=
  length (filter (λ km, nValue km.2 = v) (map_to_list signers)).

(** Some value has at least [nMinSporkKeys] signers for spork [id]. *)
Definition has_threshold (st : CSporkManager) (id : SporkId) (v : Z) : Prop :=
  ∃ signers, mapSporksActive st !! id = Some signers
             ∧ nMinSporkKeys st ≤ Z.of_nat (votes signers v).

(** The message stored for a pair of spork and signer. *)
Definition stored (st : CSporkManager) (id : SporkId) (signer : CKeyID)
    : option CSporkMessage :=
  signers ← mapSporksActive st !! id; signers !! signer.

(** The invariant on the cache of values. *)
Definition cache_coherent (st : CSporkManager) : Prop :=
  ∀ id v, mapSporksCachedValues st !! id = Some v → has_threshold st id v.

(** Following the spec's words for the vote count: the first value that,
    with the values [seen] before it, occurs [threshold] times. *)
Fixpoint first_to_reach (threshold : Z) (seen rest : list Z) : option Z :=
  match rest with
  | [] => None
  | v :: rest' =>
      if decide (threshold ≤ Z.of_nat (tally v (seen ++ [v])))
      then Some v
      else first_to_reach threshold (seen ++ [v]) rest'
  end.

(** What reaches the manager from the network and from its readers: a
    spork message handed to [ProcessSpork], or a call of [GetSporkValue]. *)
Inductive Event :=
  | Message (pfrom : NodeId) (peer : bool) (spork : CSporkMessage) (now : Z)
  | Query (id : SporkId).

Definition step (ev : Event) (st : CSporkManager) : CSporkManager :=
  match ev with
  | Message pfrom peer spork now =>
      (ProcessSpork pfrom peer NetMsgType_SPORK spork now st).1
  | Query id => (GetSporkValue id st).2
  end.

Definition replay (events : list Event) (st : CSporkManager) : CSporkManager :=
  foldl (λ st ev, step ev st) st events.

(** What holds of every manager that [replay] reaches. *)
Record sound (keys : gset CKeyID) (minKeys : Z) (st : CSporkManager) : Prop := {
  sound_keys : setSporkPubKeyIDs st = keys;
  sound_min : nMinSporkKeys st = minKeys;
  sound_signers : ∀ id signers, mapSporksActive st !! id = Some signers → dom signers ⊆ keys;
  sound_cache : cache_coherent st
}.

End WithEnv.

(** ** The other operations of [CSporkManager] *)

(** The alternatives of [CTxDestination] that [SetSporkAddress] tells apart. *)
Inductive CTxDestination :=
  | WitnessV0KeyHash (hash : CKeyID)
  | PKHash (hash : CKeyID)
  | OtherDestination.

(** What the operations below take from the rest of the node: the constant
    [SPORK_INVALID], the command name [NetMsgType::GETSPORKS], the address
    decoder, the secret-key parser with the id of the public key it
    derives, and the order in which [mapSporksActive] is walked. *)
Class SporkNode `{SporkEnv} := {
  SPORK_INVALID : SporkId;
  NetMsgType_GETSPORKS : string;
  DecodeDestination : string → CTxDestination;
  GetKeysFromSecret : string → option (CKey * CKeyID);
  active_walk : gmap SporkId (gmap CKeyID CSporkMessage)
                → list (SporkId * gmap CKeyID CSporkMessage);
  active_walk_perm : ∀ m, active_walk m ≡ₚ map_to_list m
}.

Section WithNode.
Context `{SporkNode}.

(** [CSporkManager::GetSporkByHash]: [Some] where the code returns [true]
    with [sporkRet]. *)
Definition GetSporkByHash (hash : uint256) (st : CSporkManager) : option CSporkMessage :=
  mapSporksByHash st !! hash.

(** [CSporkManager::GetSporkIDByName] *)
Definition GetSporkIDByName (strName : string) : SporkId :=
  match find (λ d, bool_decide (name d = strName)) sporkDefs with
  | Some optSpork => sporkId optSpork
  | None => SPORK_INVALID
  end.

(** [CSporkManager::SetSporkAddress]; a null [CKeyID] is 0. *)
Definition SetSporkAddress (strAddress : string) (st : CSporkManager)
    : bool * CSporkManager :=
  let keyID :=
    match DecodeDestination strAddress with
    | WitnessV0KeyHash witness_id => witness_id
    | PKHash key_id => key_id
    | OtherDestination => 0%N
    end in
  if decide (keyID = 0%N) then (false, st)
  else (true,
        mkManager (mapSporksByHash st) (mapSporksActive st) (mapSporksCachedActive st)
                  (mapSporksCachedValues st) (setSporkPubKeyIDs st ∪ {[keyID]})
                  (nMinSporkKeys st) (sporkPrivKey st)).

(** Modelled from the spec: the default-constructed message that
    [SetPrivKey] signs as a test (a fresh empty message). *)
Definition empty_message : CSporkMessage := mkSpork 0 0 0 [].

(** [CSporkManager::SetPrivKey] *)
Definition SetPrivKey (strPrivKey : string) (st : CSporkManager) : bool * CSporkManager :=
  match GetKeysFromSecret strPrivKey with
  | None => (false, st)
  | Some (key, pubKeyID) =>
      if decide (pubKeyID ∈ setSporkPubKeyIDs st) then
        match Sign key empty_message with
        | Some _ =>
            (true,
             mkManager (mapSporksByHash st) (mapSporksActive st) (mapSporksCachedActive st)
                       (mapSporksCachedValues st) (setSporkPubKeyIDs st)
                       (nMinSporkKeys st) key)
        | None => (false, st)
        end
      else (false, st)
  end.

(** [CSporkManager::ProcessGetSporks]: the messages pushed to the peer. *)
Definition ProcessGetSporks (strCommand : string) (st : CSporkManager)
    : list CSporkMessage :=
  if decide (strCommand ≠ NetMsgType_GETSPORKS) then []
  else mjoin ((λ pair, (λ signerSporkPair, signerSporkPair.2) <$> signer_walk pair.2)
                <$> active_walk (mapSporksActive st)).

(** [CSporkManager::ProcessSporkMessages]: the manager, the calls on the
    peer manager and the messages pushed to the peer.  [spork] is what
    [vRecv] holds when the command is [NetMsgType::SPORK]. *)
Definition ProcessSporkMessages (pfrom : NodeId) (peer : bool) (strCommand : string)
    (spork : CSporkMessage) (now : Z) (st : CSporkManager)
    : CSporkManager * list PeerManagerCall * list CSporkMessage :=
  let r := ProcessSpork pfrom peer strCommand spork now st in
  (r.1, r.2, ProcessGetSporks strCommand r.1).

(** One call of an operation of the manager. *)
Inductive ManagerOp :=
  | MProcessSpork (pfrom : NodeId) (peer : bool) (strCommand : string)
                  (spork : CSporkMessage) (now : Z)
  | MUpdateSpork (id : SporkId) (value : Z) (now : Z)
  | MGetSporkValue (id : SporkId)
  | MIsSporkActive (id : SporkId) (now : Z)
  | MCheckAndRemove
  | MClear
  | MSetMinSporkKeys (minSporkKeys : Z)
  | MSetSporkAddress (strAddress : string)
  | MSetPrivKey (strPrivKey : string).

Definition manager_step (op : ManagerOp) (st : CSporkManager) : option CSporkManager :=
  match op with
  | MProcessSpork pfrom peer strCommand spork now =>
      Some (ProcessSpork pfrom peer strCommand spork now st).1
  | MUpdateSpork id value now => Some (UpdateSpork id value now st).1.2
  | MGetSporkValue id => Some (GetSporkValue id st).2
  | MIsSporkActive id now => Some (IsSporkActive id now st).2
  | MCheckAndRemove => CheckAndRemove st
  | MClear => Some (Clear st)
  | MSetMinSporkKeys minSporkKeys => Some (SetMinSporkKeys minSporkKeys st).2
  | MSetSporkAddress strAddress => Some (SetSporkAddress strAddress st).2
  | MSetPrivKey strPrivKey => Some (SetPrivKey strPrivKey st).2
  end.

Fixpoint manager_run (ops : list ManagerOp) (st : CSporkManager) : option CSporkManager :=
  match ops with
  | [] => Some st
  | op :: ops' => st' ← manager_step op st; manager_run ops' st'
  end.

(** The operations that leave the votes and the threshold as they are or
    drop the cached values with the votes they change. *)
Definition keeps_cache (op : ManagerOp) : Prop :=
  match op with
  | MCheckAndRemove | MClear | MSetMinSporkKeys _ => False
  | _ => True
  end.

(** What every operation keeps: a message is stored in [mapSporksByHash]
    under its hash, and in [mapSporksActive] under its own spork and its
    recovered signer; no spork has an empty map of signers. *)
Record manager_ok (st : CSporkManager) : Prop := {
  ok_by_hash : ∀ hash m, mapSporksByHash st !! hash = Some m → hash = GetHash m;
  ok_stored : ∀ id signer m, stored st id signer = Some m →
                nSporkID m = id ∧ GetSignerKeyID m = Some signer;
  ok_signers : ∀ id signers, mapSporksActive st !! id = Some signers → signers ≠ ∅
}.

End WithNode.

(** ** Fixtures for the closed examples *)

(** A signer for tests: a key is the number that identifies it, key 0 is
    invalid, and a signature is the one byte that holds the number. *)
Definition test_verify (keyid : CKeyID) (sig : list Byte.byte) : bool :=
  match sig with
  | [b] => N.eqb (Byte.to_N b) keyid
  | _ => false
  end.

Definition test_recover (sig : list Byte.byte) : option CKeyID :=
  match sig with
  | [b] => Some (Byte.to_N b)
  | _ => None
  end.

#[export] Instance test_env : SporkEnv := {|
  CKey := N;
  key_IsValid k := negb (N.eqb k 0);
  key_GetPubKeyID k := k;
  SerializeHash m :=
    Npos (encode (nSporkID m, nValue m, nTimeSigned m, Byte.to_N <$> vchSig m));
  HashWriter3 a b c := Npos (encode (a, b, c));
  SignHash _ k := b ← Byte.of_N k; Some [b];
  VerifyHash _ keyid sig := test_verify keyid sig;
  RecoverCompact _ sig := test_recover sig;
  sporkDefs := [mkSporkDef 10000 4070908800 "SPORK_TEST"];
  NetMsgType_SPORK := "spork";
  signer_walk := map_to_list;
  signer_walk_perm := λ m, reflexivity (map_to_list m)
|}.

(** The message [(id, value, time)] as the test signer [k] signs it. *)
Definition signed_by (k : N) (id : SporkId) (value time : Z) : CSporkMessage :=
  mkSpork id value time (default [] (SignHash (HashWriter3 id value time) k)).

(** Signers 1, 2 and 3 with threshold 2; the node holds key 1. *)
Definition committee : CSporkManager := fresh_manager {[1%N; 2%N; 3%N]} 2 1%N.

(** Signers 1 and 2 set spork 10000 to 1600000000, and the value is read. *)
Definition voted : CSporkManager :=
  replay [Message 7 true (signed_by 1 10000 1600000000 1000) 2000;
          Message 7 true (signed_by 2 10000 1600000000 1001) 2000;
          Query 10000] committee.

(** The manager [voted] with the keys of signers 1 and 3 only.  No
    operation removes a key, so this manager is built by hand: it gives
    [CheckAndRemove] a stored vote of an unauthorized signer. *)
Definition voted_without_2 : CSporkManager :=
  mkManager (mapSporksByHash voted) (mapSporksActive voted)
            (mapSporksCachedActive voted) (mapSporksCachedValues voted)
            {[1%N; 3%N]} 2 1%N.

(** The rest of the node for tests: addresses decode to key 1, 2 or 3. *)
#[export] Instance test_node : SporkNode := {|
  SPORK_INVALID := -1;
  NetMsgType_GETSPORKS := "getsporks";
  DecodeDestination a :=
    if decide (a = "one"%string) then PKHash 1
    else if decide (a = "two"%string) then WitnessV0KeyHash 2
    else if decide (a = "three"%string) then PKHash 3
    else OtherDestination;
  GetKeysFromSecret a :=
    if decide (a = "secret one"%string) then Some (1%N, 1%N) else None;
  active_walk := map_to_list;
  active_walk_perm := λ m, reflexivity (map_to_list m)
|}.

End Spork.

(* ===================================================================== *)
(** * Part II': the cache of signature hashes ([src/script/sigcache.h])   *)
(* ===================================================================== *)

Module SigCache.

Section WithHashes.

(** [CachedHashes] is declared in a header that is not part of the
    sources: the cache only stores and returns its values. *)
Variable CachedHashes : Type.

(** [CachedHashesMap::TryGet]: [Some] where the code returns [true] with
    [*hashes]. *)
Definition TryGet (txId : N) (map : gmap N CachedHashes) : option CachedHashes :=
  map !! txId.

(** [std::map::insert]: the pair is inserted when the key is not there. *)
Definition map_insert (txId : N) (hashes : CachedHashes) (map : gmap N CachedHashes)
    : gmap N CachedHashes :=
  match map !! txId with
  | Some _ => map
  | None => <[txId := hashes]> map
  end.

(** [CachedHashesMap::TrySet] *)
Definition TrySet (txId : N) (hashes : CachedHashes) (map : gmap N CachedHashes)
    : bool * gmap N CachedHashes :=
  let sizeBefore := size map in
  let map' := map_insert txId hashes map in
  (bool_decide (size map' ≠ sizeBefore), map').

End WithHashes.

End SigCache.

(* ===================================================================== *)
(** * Part III: properties of the orphanage                               *)
(* ===================================================================== *)

Module OrphanageProofs.
Import Orphanage.

(** ** The outpoint index *)

Lemma unindexed_idemp w o : unindexed w (unindexed w o) = unindexed w o.
Proof.
  destruct o as [its|]; simpl; [|done].
  case_decide as He; simpl; [done|].
  replace (its ∖ {[w]} ∖ {[w]}) with (its ∖ {[w]}) by set_solver.
  by rewrite decide_False.
Qed.

Lemma lookup_unindex_prevout w byprev p q :
  unindex_prevout w byprev p !! q
  = if decide (q = p) then unindexed w (byprev !! p) else byprev !! q.
Proof.
  unfold unindex_prevout.
  destruct (byprev !! p) as [its|] eqn:Hp; simpl.
  - destruct (decide (its ∖ {[w]} = ∅)); destruct (decide (q = p)) as [->|Hq];
      simplify_map_eq; done.
  - destruct (decide (q = p)) as [->|]; done.
Qed.

Lemma lookup_unindex_fold w ps byprev q :
  foldl (unindex_prevout w) byprev ps !! q
  = if decide (q ∈ ps) then unindexed w (byprev !! q) else byprev !! q.
Proof.
  revert byprev. induction ps as [|p ps IH]; intros byprev; cbn [foldl].
  - case_decide as Hin; [by apply elem_of_nil in Hin|done].
  - rewrite IH, lookup_unindex_prevout.
    destruct (decide (q = p)) as [->|Hq].
    + rewrite (decide_True (P := p ∈ p :: ps)) by left.
      destruct (decide (p ∈ ps)); [apply unindexed_idemp|done].
    + destruct (decide (q ∈ ps)) as [Hin|Hin].
      * rewrite decide_True; [done|by right].
      * rewrite decide_False; [done|]. rewrite elem_of_cons. tauto.
Qed.

Lemma lookup_index_prevout w byprev p q :
  index_prevout w byprev p !! q
  = if decide (q = p) then Some (default ∅ (byprev !! p) ∪ {[w]}) else byprev !! q.
Proof.
  unfold index_prevout. case_decide as Hq; [subst; apply lookup_insert_eq|].
  by apply lookup_insert_ne.
Qed.

Lemma lookup_index_fold w ps byprev q :
  foldl (index_prevout w) byprev ps !! q
  = if decide (q ∈ ps) then Some (default ∅ (byprev !! q) ∪ {[w]}) else byprev !! q.
Proof.
  revert byprev. induction ps as [|p ps IH]; intros byprev; cbn [foldl].
  - case_decide as Hin; [by apply elem_of_nil in Hin|done].
  - rewrite IH, lookup_index_prevout.
    destruct (decide (q = p)) as [->|Hq].
    + rewrite (decide_True (P := p ∈ p :: ps)) by left.
      destruct (decide (p ∈ ps)); [simpl; f_equal; set_solver|done].
    + destruct (decide (q ∈ ps)) as [Hin|Hin].
      * rewrite decide_True; [done|by right].
      * rewrite decide_False; [done|]. rewrite elem_of_cons. tauto.
Qed.

(** ** Swap and pop on [m_orphan_list] *)

Lemma lookup_pop_back_Some {A} (l : list A) i x :
  pop_back l !! i = Some x ↔ (i < pred (length l))%nat ∧ l !! i = Some x.
Proof. unfold pop_back. rewrite lookup_take_Some. tauto. Qed.

Lemma length_pop_back {A} (l : list A) : length (pop_back l) = pred (length l).
Proof. unfold pop_back. rewrite length_take. lia. Qed.

Lemma payload_set_list_pos pos e : payload (set_list_pos pos e) = payload e.
Proof. done. Qed.

(** The list side of [EraseTx]: removing the last handle. *)
Lemma erase_last_handle (orph : gmap Wtxid OrphanTx) (l : list Wtxid) w e :
  length l = size orph →
  (∀ w e, orph !! w = Some e → l !! list_pos e = Some w) →
  (∀ i w, l !! i = Some w → ∃ e, orph !! w = Some e ∧ list_pos e = i) →
  orph !! w = Some e →
  (list_pos e + 1)%nat = length l →
  length (pop_back l) = size (delete w orph)
  ∧ (∀ w' e', delete w orph !! w' = Some e' → pop_back l !! list_pos e' = Some w')
  ∧ (∀ i w', pop_back l !! i = Some w' →
       ∃ e', delete w orph !! w' = Some e' ∧ list_pos e' = i).
Proof.
  intros Hsz Hpos Hlist He Hlast. split_and!.
  - rewrite length_pop_back, map_size_delete, He. simpl. lia.
  - intros w' e' [Hne He']%lookup_delete_Some.
    apply lookup_pop_back_Some. split; [|by apply Hpos].
    pose proof (Hpos _ _ He') as Hl'. pose proof (Hpos _ _ He) as Hl.
    apply lookup_lt_Some in Hl' as Hlt.
    destruct (decide (list_pos e' = list_pos e)) as [Heq|Hneq]; [|lia].
    rewrite Heq in Hl'. congruence.
  - intros i w' [Hi Hl']%lookup_pop_back_Some.
    destruct (Hlist _ _ Hl') as (e' & He' & Hp'). exists e'. split; [|done].
    apply lookup_delete_Some. split; [|done].
    intros ->. assert (e' = e) by congruence. subst e'. lia.
Qed.

(** The list side of [EraseTx]: moving the last handle into the hole. *)
Lemma erase_inner_handle (orph : gmap Wtxid OrphanTx) (l : list Wtxid) w e :
  length l = size orph →
  (∀ w e, orph !! w = Some e → l !! list_pos e = Some w) →
  (∀ i w, l !! i = Some w → ∃ e, orph !! w = Some e ∧ list_pos e = i) →
  orph !! w = Some e →
  (list_pos e + 1)%nat ≠ length l →
  ∃ it_last e_last,
    last l = Some it_last ∧ orph !! it_last = Some e_last ∧ it_last ≠ w ∧
    let orph' := delete w (<[it_last := set_list_pos (list_pos e) e_last]> orph) in
    let l' := pop_back (<[list_pos e := it_last]> l) in
    length l' = size orph'
    ∧ (∀ w' e', orph' !! w' = Some e' → l' !! list_pos e' = Some w')
    ∧ (∀ i w', l' !! i = Some w' → ∃ e', orph' !! w' = Some e' ∧ list_pos e' = i).
Proof.
  intros Hsz Hpos Hlist He Hnlast.
  pose proof (Hpos _ _ He) as Hl. apply lookup_lt_Some in Hl as Hlt.
  destruct (lookup_lt_is_Some_2 l (pred (length l))) as [it_last Hlastl]; [lia|].
  destruct (Hlist _ _ Hlastl) as (e_last & He_last & Hp_last).
  assert (it_last ≠ w) as Hne.
  { intros ->. assert (e_last = e) by congruence. subst. lia. }
  exists it_last, e_last. split_and!; [by rewrite last_lookup|done|done|].
  intros orph' l'. subst orph' l'. split_and!.
  - rewrite length_pop_back, length_insert, map_size_delete.
    rewrite lookup_insert_ne by done. rewrite He. simpl.
    rewrite map_size_insert, He_last. simpl. lia.
  - intros w' e' [Hw' He']%lookup_delete_Some.
    apply lookup_pop_back_Some. rewrite length_insert.
    destruct (decide (w' = it_last)) as [->|Hw'l].
    + rewrite lookup_insert_eq in He'. injection He' as <-. simpl.
      split; [lia|]. by apply list_lookup_insert_eq.
    + rewrite lookup_insert_ne in He' by done.
      pose proof (Hpos _ _ He') as Hl'. apply lookup_lt_Some in Hl' as Hlt'.
      assert (list_pos e' ≠ list_pos e) as Hp1.
      { intros Heq. rewrite Heq in Hl'. congruence. }
      assert (list_pos e' ≠ pred (length l)) as Hp2.
      { intros Heq. rewrite Heq in Hl'. congruence. }
      split; [lia|]. by rewrite list_lookup_insert_ne.
  - intros i w' [Hi Hl']%lookup_pop_back_Some. rewrite length_insert in Hi.
    destruct (decide (i = list_pos e)) as [->|Hi'].
    + rewrite list_lookup_insert_eq in Hl' by done. injection Hl' as <-.
      exists (set_list_pos (list_pos e) e_last). split; [|done].
      rewrite lookup_delete_ne by done. apply lookup_insert_eq.
    + rewrite list_lookup_insert_ne in Hl' by done.
      destruct (Hlist _ _ Hl') as (e' & He' & Hp'). exists e'. split; [|done].
      assert (w' ≠ w) by (intros ->; congruence).
      assert (w' ≠ it_last) by (intros ->; assert (e' = e_last) by congruence; subst; lia).
      rewrite lookup_delete_ne, lookup_insert_ne by done. done.
Qed.

(** ** [EraseTx] *)

(** The outpoint side of [EraseTx]. *)
Lemma unindex_fold_exact (orph orph' : gmap Wtxid OrphanTx)
    (byprev : gmap COutPoint (gset Wtxid)) w e :
  (∀ p w', (∃ its, byprev !! p = Some its ∧ w' ∈ its)
           ↔ (∃ e', orph !! w' = Some e' ∧ p ∈ vin (tx e'))) →
  (∀ p its, byprev !! p = Some its → its ≠ ∅) →
  orph !! w = Some e →
  orph' !! w = None →
  (∀ w', w' ≠ w → tx <$> orph' !! w' = tx <$> orph !! w') →
  let byprev' := foldl (unindex_prevout w) byprev (vin (tx e)) in
  (∀ p w', (∃ its, byprev' !! p = Some its ∧ w' ∈ its)
           ↔ (∃ e', orph' !! w' = Some e' ∧ p ∈ vin (tx e')))
  ∧ (∀ p its, byprev' !! p = Some its → its ≠ ∅).
Proof.
  intros Hex Hne He Hgone Hsame byprev'. subst byprev'.
  assert (∀ p w', w' ≠ w →
    ((∃ e', orph' !! w' = Some e' ∧ p ∈ vin (tx e'))
     ↔ (∃ e', orph !! w' = Some e' ∧ p ∈ vin (tx e')))) as Hlive.
  { intros p w' Hw'. specialize (Hsame w' Hw').
    destruct (orph' !! w') as [a|], (orph !! w') as [b|]; simpl in Hsame;
      try discriminate; [|naive_solver].
    injection Hsame as Htx. split; intros (? & [= <-] & ?); eexists; split; eauto; congruence. }
  split.
  - intros p w'. rewrite lookup_unindex_fold.
    destruct (decide (w' = w)) as [->|Hw'].
    + split; [|intros (? & ? & _); congruence].
      intros (its & Hits & Hin). exfalso. case_decide as Hp.
      * destruct (byprev !! p) as [its0|]; simpl in Hits; [|done].
        case_decide; [done|]. injection Hits as <-. set_solver.
      * apply Hp. destruct (proj1 (Hex p w)) as (e' & He' & Hin'); [eauto|].
        congruence.
    + rewrite Hlive by done. rewrite <- Hex. case_decide as Hp; [|done].
      destruct (byprev !! p) as [its0|]; simpl; [|naive_solver].
      case_decide as Hemp.
      * split; [intros (? & ? & _); done|].
        intros (its & [= <-] & Hin). set_solver.
      * split.
        -- intros (its & [= <-] & Hin). exists its0. split; [done|set_solver].
        -- intros (its & [= <-] & Hin). eexists. split; [done|set_solver].
  - intros p its. rewrite lookup_unindex_fold. case_decide as Hp; [|by apply Hne].
    destruct (byprev !! p) as [its0|]; simpl; [|done].
    case_decide; [done|]. by intros [= <-].
Qed.

Lemma fmap_payload_tx (o o' : option OrphanTx) :
  payload <$> o = payload <$> o' → tx <$> o = tx <$> o'.
Proof.
  destruct o, o'; simpl; try done. unfold payload. by intros [= -> _ _ _].
Qed.

Lemma EraseTx_absent w s : m_orphans s !! w = None → EraseTx w s = Some (0, s).
Proof. intros Hw. unfold EraseTx. by rewrite Hw. Qed.

Lemma EraseTx_present w s e :
  Inv s → m_orphans s !! w = Some e →
  ∃ s', EraseTx w s = Some (1, s') ∧ Inv s'
    ∧ payload <$> m_orphans s' = delete w (payload <$> m_orphans s)
    ∧ m_peer_work_set s' = m_peer_work_set s
    ∧ m_next_sweep s' = m_next_sweep s.
Proof.
  intros [[Hsz Hpos Hout] Hlist Hkey Hne] He.
  unfold EraseTx. rewrite He. simpl.
  rewrite (Hpos _ _ He). simpl. rewrite decide_True by done.
  destruct (decide (list_pos e + 1 ≠ length (m_orphan_list s))%nat) as [Hinner|Hlast].
  - destruct (erase_inner_handle _ _ _ _ Hsz Hpos Hlist He Hinner)
      as (it_last & e_last & Hl & Hel & Hneq & Hsz' & Hpos' & Hlist').
    rewrite Hl. simpl. rewrite Hel. simpl.
    eexists. split; [done|].
    assert (∀ w', w' ≠ w →
      payload <$> delete w (<[it_last:=set_list_pos (list_pos e) e_last]> (m_orphans s)) !! w'
      = payload <$> m_orphans s !! w') as Hsame.
    { intros w' Hw'. rewrite lookup_delete_ne by done.
      destruct (decide (w' = it_last)) as [->|]; [|by rewrite lookup_insert_ne].
      by rewrite lookup_insert_eq, Hel. }
    destruct (unindex_fold_exact (m_orphans s)
                (delete w (<[it_last:=set_list_pos (list_pos e) e_last]> (m_orphans s)))
                (m_outpoint_to_orphan_it s) w e Hout Hne He) as [Hout' Hne'].
    { apply lookup_delete_eq. }
    { intros w' Hw'. apply fmap_payload_tx, Hsame, Hw'. }
    split_and!; simpl; [| |done|done].
    2:{ apply map_eq; intros w'. destruct (decide (w' = w)) as [->|Hw'].
        - by rewrite lookup_fmap, !lookup_delete_eq.
        - rewrite (lookup_delete_ne (payload <$> _)), !lookup_fmap by done.
          apply (Hsame w' Hw'). }
    split; [split; simpl; done|simpl; done| |simpl; done].
    simpl. intros w' e' [Hw' He']%lookup_delete_Some.
    destruct (decide (w' = it_last)) as [->|].
    + rewrite lookup_insert_eq in He'. injection He' as <-. simpl. by apply Hkey.
    + rewrite lookup_insert_ne in He' by done. by apply Hkey.
  - assert (list_pos e + 1 = length (m_orphan_list s))%nat as Hlast'.
    { destruct (decide (list_pos e + 1 = length (m_orphan_list s))%nat); [done|tauto]. }
    destruct (erase_last_handle _ _ _ _ Hsz Hpos Hlist He Hlast') as (Hsz' & Hpos' & Hlist').
    simpl. eexists. split; [done|].
    destruct (unindex_fold_exact (m_orphans s) (delete w (m_orphans s))
                (m_outpoint_to_orphan_it s) w e Hout Hne He) as [Hout' Hne'].
    { apply lookup_delete_eq. }
    { intros w' Hw'. by rewrite lookup_delete_ne. }
    split_and!; simpl; [|by rewrite fmap_delete|done|done].
    split; [split; simpl; done|simpl; done| |simpl; done].
    simpl. intros w' e' [Hw' He']%lookup_delete_Some. by apply Hkey.
Qed.

(** ** [AddTx] *)

Lemma Inv_empty t : Inv (empty_orphanage t).
Proof.
  split; [split|..]; simpl; try done.
  intros p w. split; [intros (? & ? & _)|intros (? & ? & _)]; done.
Qed.

Lemma AddTx_Inv maxWeight ptx peer parents nNow s :
  Inv s → Inv (AddTx maxWeight ptx peer parents nNow s).2.
Proof.
  intros HI. pose proof HI as [[Hsz Hpos Hout] Hlist Hkey Hne].
  unfold AddTx. destruct (m_orphans s !! GetWitnessHash ptx) as [e|] eqn:He; simpl.
  - (* a further announcer of a known orphan *)
    set (w := GetWitnessHash ptx) in *.
    set (e1 := set_announcers (announcers e ∪ {[peer]}) e).
    assert (∀ w', ∀ e', <[w:=e1]> (m_orphans s) !! w' = Some e' →
              ∃ e0, m_orphans s !! w' = Some e0 ∧ tx e' = tx e0 ∧ list_pos e' = list_pos e0)
      as Hold.
    { intros w' e'. destruct (decide (w' = w)) as [->|Hw'].
      - rewrite lookup_insert_eq. intros [= <-]. by exists e.
      - rewrite lookup_insert_ne by done. intros ?. by exists e'. }
    assert (∀ w', ∀ e0, m_orphans s !! w' = Some e0 →
              ∃ e', <[w:=e1]> (m_orphans s) !! w' = Some e' ∧ tx e' = tx e0
                    ∧ list_pos e' = list_pos e0) as Hnew.
    { intros w' e0 He0. destruct (decide (w' = w)) as [->|Hw'].
      - rewrite lookup_insert_eq. exists e1. assert (e0 = e) by congruence. by subst.
      - rewrite lookup_insert_ne by done. by exists e0. }
    split; [split|..]; simpl.
    + rewrite map_size_insert, He. done.
    + intros w' e' (e0 & He0 & _ & ->)%Hold. by apply Hpos.
    + intros p w'. rewrite Hout. split.
      * intros (e0 & (e' & ? & <- & _)%Hnew & ?). eauto.
      * intros (e' & (e0 & ? & -> & _)%Hold & ?). eauto.
    + intros i w' (e0 & (e' & ? & _ & <-)%Hnew & <-)%Hlist. eauto.
    + intros w' e' (e0 & He0 & -> & _)%Hold. by apply Hkey.
    + done.
  - case_decide; simpl; [done|].
    set (w := GetWitnessHash ptx) in *.
    set (e1 := mkOrphanTx ptx {[peer]} (nNow + ORPHAN_TX_EXPIRE_TIME)
                 (length (m_orphan_list s)) parents).
    split; [split|..]; simpl.
    + rewrite length_app, map_size_insert, He. simpl. lia.
    + intros w' e'. destruct (decide (w' = w)) as [->|Hw'].
      * rewrite lookup_insert_eq. intros [= <-]. simpl.
        rewrite lookup_app_r by done. by rewrite Nat.sub_diag.
      * rewrite lookup_insert_ne by done. intros He'.
        apply lookup_app_l_Some. by apply Hpos.
    + intros p w'. rewrite lookup_index_fold.
      destruct (decide (w' = w)) as [->|Hw'].
      * rewrite lookup_insert_eq. split.
        -- intros (its & Hits & Hin). exists e1. split; [done|]. simpl.
           case_decide as Hp; [done|]. exfalso.
           destruct (proj1 (Hout p w)) as (? & ? & _); [eauto|congruence].
        -- intros (? & [= <-] & Hp). simpl in Hp. rewrite decide_True by done.
           eexists. split; [done|]. set_solver.
      * rewrite lookup_insert_ne by done. rewrite <- Hout.
        case_decide as Hp; [|done]. split.
        -- intros (its & [= <-] & Hin).
           destruct (m_outpoint_to_orphan_it s !! p) as [its0|]; simpl in *;
             [exists its0; split; [done|set_solver]|set_solver].
        -- intros (its & -> & Hin). eexists. split; [done|]. simpl. set_solver.
    + intros i w' Hi. apply lookup_app_Some in Hi as [Hi|[Hlen Hi]].
      * destruct (Hlist _ _ Hi) as (e' & He' & Hp). exists e'. split; [|done].
        rewrite lookup_insert_ne; [done|]. intros <-. congruence.
      * apply list_lookup_singleton_Some in Hi as [Hi <-].
        exists e1. rewrite lookup_insert_eq. split; [done|]. simpl. lia.
    + intros w' e'. destruct (decide (w' = w)) as [->|Hw'].
      * rewrite lookup_insert_eq. by intros [= <-].
      * rewrite lookup_insert_ne by done. by apply Hkey.
    + intros p its. rewrite lookup_index_fold. case_decide; [|by apply Hne].
      intros [= <-]. set_solver.
Qed.

(** ** The expiry sweep *)

Lemma is_expired_payload nNow (m m' : gmap Wtxid OrphanTx) k :
  payload <$> m' !! k = payload <$> m !! k →
  is_expired nNow m' k = is_expired nNow m k.
Proof.
  unfold is_expired. destruct (m' !! k) as [a|], (m !! k) as [b|]; simpl; try done.
  unfold payload. by intros [= _ _ -> _].
Qed.

Lemma filter_ext_elem_of {A} (P Q : A → Prop)
    `{!∀ x, Decision (P x), !∀ x, Decision (Q x)} (l : list A) :
  (∀ x, x ∈ l → (P x ↔ Q x)) → filter P l = filter Q l.
Proof.
  induction l as [|a l IH]; intros Hiff; [done|].
  assert (filter P l = filter Q l) as Ht.
  { apply IH. intros x Hx. apply Hiff. by right. }
  destruct (decide (P a)) as [Ha|Ha].
  - rewrite !filter_cons_True; [by rewrite Ht|by apply Hiff; [left|]|done].
  - rewrite !filter_cons_False; [done|by rewrite <- Hiff by left|done].
Qed.

(** What the expiry loop computes over the keys it still has to visit. *)
Lemma sweep_loop_spec nNow keys : ∀ erased nMin s,
  Inv s → NoDup keys → (∀ k, k ∈ keys → is_Some (m_orphans s !! k)) →
  ∃ nMin' s',
    sweep_loop nNow keys erased nMin s
      = Some (erased ++ filter (λ k, Is_true (is_expired nNow (m_orphans s) k)) keys,
              nMin', s')
    ∧ Inv s'
    ∧ (∀ k, payload <$> m_orphans s' !! k
            = if bool_decide (k ∈ keys) && is_expired nNow (m_orphans s) k
              then None else payload <$> m_orphans s !! k)
    ∧ m_peer_work_set s' = m_peer_work_set s
    ∧ m_next_sweep s' = m_next_sweep s
    ∧ nMin' ≤ nMin
    ∧ (∀ k e, k ∈ keys → m_orphans s !! k = Some e → nNow < nTimeExpire e →
              nMin' ≤ nTimeExpire e)
    ∧ (nMin' = nMin
       ∨ ∃ k e, k ∈ keys ∧ m_orphans s !! k = Some e ∧ nNow < nTimeExpire e
                ∧ nMin' = nTimeExpire e).
Proof.
  induction keys as [|k keys IH]; intros erased nMin s HI Hnd Hlive.
  - exists nMin, s. cbn [sweep_loop]. rewrite filter_nil, app_nil_r. split_and!; try done.
    + intros k e Hk. by apply elem_of_nil in Hk.
    + by left.
  - apply NoDup_cons in Hnd as [Hk Hnd].
    destruct (Hlive k) as [e He]; [by left|].
    cbn [sweep_loop]. rewrite He. simpl.
    assert (Is_true (is_expired nNow (m_orphans s) k) ↔ nTimeExpire e ≤ nNow) as Hk_exp.
    { unfold is_expired. rewrite He. apply bool_decide_spec. }
    destruct (decide (nTimeExpire e ≤ nNow)) as [Hexp|Hexp].
    + (* the entry has expired *)
      rewrite (inv_key _ HI _ _ He).
      destruct (EraseTx_present k s e HI He) as (s1 & -> & HI1 & Hpay & Hws & Hns).
      simpl.
      assert (∀ k', k' ≠ k → payload <$> m_orphans s1 !! k' = payload <$> m_orphans s !! k')
        as Hother.
      { intros k' Hk'. rewrite <- !lookup_fmap, Hpay. by apply lookup_delete_ne. }
      destruct (IH (erased ++ [k]) nMin s1 HI1 Hnd)
        as (nMin' & s' & Hrun & HI' & Hlk & Hws' & Hns' & Hle & Hlb & Hwit).
      { intros k' Hk'. assert (k' ≠ k) by (intros ->; done).
        specialize (Hother k' H). destruct (Hlive k') as [? Hx]; [by right|].
        rewrite Hx in Hother. destruct (m_orphans s1 !! k'); [eauto|done]. }
      exists nMin', s'. rewrite filter_cons_True by (by apply Hk_exp).
      split_and!; try congruence.
      * rewrite Hrun. rewrite <- app_assoc. simpl. do 5 f_equal.
        apply filter_ext_elem_of. intros k' Hk'.
        rewrite (is_expired_payload nNow (m_orphans s) (m_orphans s1) k'); [done|].
        apply Hother. intros ->. done.
      * intros k'. rewrite Hlk. destruct (decide (k' = k)) as [->|Hk'].
        -- rewrite (bool_decide_eq_false_2 (k ∈ keys)) by done.
           rewrite (bool_decide_eq_true_2 (k ∈ k :: keys)) by left. simpl.
           unfold is_expired. rewrite He, bool_decide_eq_true_2 by done.
           rewrite <- lookup_fmap, Hpay. apply lookup_delete_eq.
        -- rewrite (is_expired_payload _ _ _ _ (Hother k' Hk')), Hother by done.
           assert (bool_decide (k' ∈ k :: keys) = bool_decide (k' ∈ keys)) as ->; [|done].
           apply bool_decide_ext. rewrite elem_of_cons. tauto.
      * intros k' e' [->|Hk']%elem_of_cons He' Hlt; [assert (e' = e) by congruence; subst; lia|].
        assert (k' ≠ k) as Hne by (intros ->; done).
        pose proof (Hother k' Hne) as Ho. rewrite He' in Ho.
        destruct (m_orphans s1 !! k') as [e1|] eqn:He1; [|done].
        simpl in Ho. unfold payload in Ho. injection Ho as _ _ Hexp1 _.
        rewrite <- Hexp1. apply (Hlb k' e1 Hk' He1). lia.
      * destruct Hwit as [->|(k' & e1 & Hk' & He1 & Hlt & ->)]; [by left|right].
        assert (k' ≠ k) as Hne by (intros ->; done).
        pose proof (Hother k' Hne) as Ho. rewrite He1 in Ho.
        destruct (m_orphans s !! k') as [e'|] eqn:He'; [|done].
        simpl in Ho. unfold payload in Ho. injection Ho as _ _ Hexp1 _.
        exists k', e'. split_and!; [by right|done|lia|lia].
    + (* the entry stays *)
      destruct (IH erased (Z.min (nTimeExpire e) nMin) s HI Hnd)
        as (nMin' & s' & Hrun & HI' & Hlk & Hws' & Hns' & Hle & Hlb & Hwit).
      { intros k' Hk'. apply Hlive. by right. }
      exists nMin', s'. rewrite filter_cons_False by (by rewrite Hk_exp).
      split_and!; try done.
      * intros k'. rewrite Hlk. destruct (decide (k' = k)) as [->|Hk'].
        -- rewrite (bool_decide_eq_false_2 (k ∈ keys)) by done. simpl.
           unfold is_expired. rewrite He.
           rewrite (bool_decide_eq_false_2 (nTimeExpire e ≤ nNow)) by done.
           by rewrite andb_false_r.
        -- assert (bool_decide (k' ∈ k :: keys) = bool_decide (k' ∈ keys)) as ->; [|done].
           apply bool_decide_ext. rewrite elem_of_cons. tauto.
      * lia.
      * intros k' e' [->|Hk']%elem_of_cons He' Hlt; [assert (e' = e) by congruence; subst; lia|].
        by apply (Hlb k' e').
      * destruct Hwit as [->|(k' & e1 & Hk' & He1 & Hlt & ->)].
        -- destruct (Z.min_spec (nTimeExpire e) nMin) as [[_ ->]|[_ ->]]; [|by left].
           right. exists k, e. split_and!; [by left|done|lia|done].
        -- right. exists k', e1. split_and!; [by right|done|done|done].
Qed.

(** ** [LimitOrphans] and runs of calls *)

Lemma orphan_keys_perm (m : gmap Wtxid OrphanTx) : orphan_keys m ≡ₚ elements (dom m).
Proof. apply merge_sort_Permutation. Qed.

Lemma NoDup_orphan_keys (m : gmap Wtxid OrphanTx) : NoDup (orphan_keys m).
Proof. rewrite orphan_keys_perm. apply NoDup_elements. Qed.

Lemma elem_of_orphan_keys (m : gmap Wtxid OrphanTx) k :
  k ∈ orphan_keys m ↔ is_Some (m !! k).
Proof. by rewrite orphan_keys_perm, elem_of_elements, elem_of_dom. Qed.

Lemma Inv_with_next_sweep t s : Inv s → Inv (with_next_sweep t s).
Proof. intros [[] ? ? ?]. by split; [split|..]. Qed.

Lemma Inv_with_work_set ws s : Inv s → Inv (with_work_set ws s).
Proof. intros [[] ? ? ?]. by split; [split|..]. Qed.

Lemma payload_surviving nNow (m1 m : gmap Wtxid OrphanTx) :
  (∀ k, payload <$> m1 !! k
        = if bool_decide (k ∈ orphan_keys m) && is_expired nNow m k
          then None else payload <$> m !! k) →
  payload <$> m1 = payload <$> surviving nNow m.
Proof.
  intros Hlk. apply map_eq. intros k. rewrite !lookup_fmap, Hlk.
  unfold surviving, is_expired. rewrite map_lookup_filter.
  destruct (m !! k) as [e|] eqn:He; simpl.
  - rewrite bool_decide_eq_true_2 by (apply elem_of_orphan_keys; eauto). simpl.
    case_bool_decide; [by rewrite option_guard_False by lia|].
    by rewrite option_guard_True by lia.
  - by rewrite andb_false_r.
Qed.

(** The expiry block when a sweep is due. *)
Lemma expiry_sweep_due nNow s :
  Inv s → m_next_sweep s ≤ nNow →
  ∃ nMin s1,
    expiry_sweep nNow s = Some (expired_keys nNow (m_orphans s), s1)
    ∧ Inv s1
    ∧ payload <$> m_orphans s1 = payload <$> surviving nNow (m_orphans s)
    ∧ m_peer_work_set s1 = m_peer_work_set s
    ∧ m_next_sweep s1 = nMin + ORPHAN_TX_EXPIRE_INTERVAL
    ∧ nMin ≤ nNow + ORPHAN_TX_EXPIRE_TIME - ORPHAN_TX_EXPIRE_INTERVAL
    ∧ (∀ k e, m_orphans s1 !! k = Some e → nMin ≤ nTimeExpire e)
    ∧ (nMin = nNow + ORPHAN_TX_EXPIRE_TIME - ORPHAN_TX_EXPIRE_INTERVAL
       ∨ ∃ k e, m_orphans s1 !! k = Some e ∧ nMin = nTimeExpire e).
Proof.
  intros HI Hdue. unfold expiry_sweep. rewrite decide_True by done.
  destruct (sweep_loop_spec nNow (orphan_keys (m_orphans s)) []
              (nNow + ORPHAN_TX_EXPIRE_TIME - ORPHAN_TX_EXPIRE_INTERVAL) s HI)
    as (nMin & s1 & -> & HI1 & Hlk & Hws & Hns & Hle & Hlb & Hwit).
  { apply NoDup_orphan_keys. }
  { intros k. by rewrite elem_of_orphan_keys. }
  pose proof (payload_surviving _ _ _ Hlk) as Hpay.
  assert (∀ k e1, m_orphans s1 !! k = Some e1 →
            ∃ e, m_orphans s !! k = Some e ∧ nNow < nTimeExpire e
                 ∧ nTimeExpire e1 = nTimeExpire e) as Hfrom.
  { intros k e1 He1. assert ((payload <$> m_orphans s1) !! k = Some (payload e1)) as Hp.
    { by rewrite lookup_fmap, He1. }
    rewrite Hpay, lookup_fmap in Hp. unfold surviving in Hp.
    destruct (filter _ _ !! k) as [e|] eqn:He; [|done].
    apply map_lookup_filter_Some in He as [He Hlt]. simpl in *.
    exists e. unfold payload in Hp. injection Hp as _ _ Hexp _.
    split_and!; [done|done|congruence]. }
  assert (∀ k e, m_orphans s !! k = Some e → nNow < nTimeExpire e →
            ∃ e1, m_orphans s1 !! k = Some e1 ∧ nTimeExpire e1 = nTimeExpire e) as Hto.
  { intros k e He Hlt.
    assert ((payload <$> surviving nNow (m_orphans s)) !! k = Some (payload e)) as Hp.
    { rewrite lookup_fmap. unfold surviving.
      by rewrite (proj2 (map_lookup_filter_Some _ _ k e)). }
    rewrite <- Hpay, lookup_fmap in Hp.
    destruct (m_orphans s1 !! k) as [e1|]; [|done].
    exists e1. unfold payload in Hp. by injection Hp as _ _ -> _. }
  exists nMin, (with_next_sweep (nMin + ORPHAN_TX_EXPIRE_INTERVAL) s1). simpl.
  split_and!; try done.
  - by apply Inv_with_next_sweep.
  - intros k e1 (e & He & Hlt & ->)%Hfrom. apply (Hlb k e); [|done|done].
    apply elem_of_orphan_keys. eauto.
  - destruct Hwit as [->|(k & e & _ & He & Hlt & ->)]; [by left|right].
    destruct (Hto _ _ He Hlt) as (e1 & ? & ?). eauto.
Qed.

Lemma expiry_sweep_not_due nNow s :
  nNow < m_next_sweep s → expiry_sweep nNow s = Some ([], s).
Proof. intros Hlt. unfold expiry_sweep. by rewrite decide_False by lia. Qed.

Lemma expiry_sweep_Inv nNow s :
  Inv s → ∃ erased s1, expiry_sweep nNow s = Some (erased, s1) ∧ Inv s1.
Proof.
  intros HI. destruct (decide (m_next_sweep s ≤ nNow)) as [Hdue|Hnot].
  - destruct (expiry_sweep_due nNow s HI Hdue) as (? & s1 & -> & ? & _). eauto.
  - rewrite expiry_sweep_not_due by lia. eauto.
Qed.

(** The eviction loop with enough fuel. *)
Lemma evict_loop_spec `{FastRandomContext R} fuel max_orphans : ∀ (rng : R) erased s,
  Inv s → (size (m_orphans s) ≤ fuel + max_orphans)%nat →
  ∃ evicted s' rng',
    evict_loop fuel max_orphans rng erased s = Some (erased ++ evicted, s', rng')
    ∧ Inv s'
    ∧ (size (m_orphans s') ≤ max_orphans)%nat
    ∧ payload <$> m_orphans s' ⊆ payload <$> m_orphans s
    ∧ m_peer_work_set s' = m_peer_work_set s
    ∧ m_next_sweep s' = m_next_sweep s
    ∧ ((size (m_orphans s) ≤ max_orphans)%nat → evicted = [] ∧ s' = s ∧ rng' = rng).
Proof.
  induction fuel as [|fuel IH]; intros rng erased s HI Hfuel.
  - exists [], s, rng. cbn [evict_loop]. rewrite decide_False by lia.
    rewrite app_nil_r. split_and!; try done; lia.
  - cbn [evict_loop]. destruct (decide (max_orphans < size (m_orphans s))%nat) as [Hbig|Hok].
    + pose proof (coh_size _ (inv_coherent _ HI)) as Hsz.
      destruct (lookup_lt_is_Some_2 (m_orphan_list s)
                  (randrange rng (length (m_orphan_list s))).1) as [it Hit].
      { apply randrange_lt. lia. }
      rewrite Hit. simpl.
      destruct (inv_list _ HI _ _ Hit) as (e & He & _).
      rewrite He. simpl. rewrite (inv_key _ HI _ _ He).
      destruct (EraseTx_present it s e HI He) as (s1 & -> & HI1 & Hpay & Hws & Hns).
      simpl.
      assert (size (m_orphans s1) = pred (size (m_orphans s))) as Hsz1.
      { rewrite <- (map_size_fmap payload (m_orphans s1)), Hpay, map_size_delete.
        by rewrite lookup_fmap, He, map_size_fmap. }
      destruct (IH (randrange rng (length (m_orphan_list s))).2 (erased ++ [it]) s1 HI1)
        as (evicted & s' & rng' & -> & HI' & Hle & Hsub & Hws' & Hns' & _); [lia|].
      exists (it :: evicted), s', rng'. rewrite <- app_assoc.
      split_and!; try done; try congruence; [|lia].
      etrans; [apply Hsub|]. rewrite Hpay. apply delete_subseteq.
    + exists [], s, rng. rewrite app_nil_r. split_and!; try done; lia.
Qed.

Lemma LimitOrphans_Inv `{FastRandomContext R} max_orphans (rng : R) nNow s :
  Inv s →
  ∃ erased s' rng',
    LimitOrphans max_orphans rng nNow s = Some (erased, s', rng')
    ∧ Inv s' ∧ (size (m_orphans s') ≤ max_orphans)%nat.
Proof.
  intros HI. unfold LimitOrphans.
  destruct (expiry_sweep_Inv nNow s HI) as (erased & s1 & -> & HI1). simpl.
  destruct (evict_loop_spec (size (m_orphans s1)) max_orphans rng erased s1 HI1)
    as (evicted & s' & rng' & -> & HI' & Hle & _); [lia|]. eauto 10.
Qed.

Lemma run_call_Inv `{FastRandomContext R} maxWeight (c : Call R) s :
  Inv s → ∃ s', run_call maxWeight c s = Some s' ∧ Inv s'.
Proof.
  intros HI. destruct c as [ptx peer parents nNow|wtxid|max_orphans rng nNow]; simpl.
  - eexists. split; [done|]. by apply AddTx_Inv.
  - destruct (m_orphans s !! wtxid) as [e|] eqn:He.
    + destruct (EraseTx_present wtxid s e HI He) as (s' & -> & HI' & _). eauto.
    + rewrite EraseTx_absent by done. eauto.
  - destruct (LimitOrphans_Inv max_orphans rng nNow s HI) as (? & s' & ? & -> & HI' & _).
    eauto.
Qed.

Lemma run_Inv `{FastRandomContext R} maxWeight (calls : list (Call R)) : ∀ s,
  Inv s → ∃ s', run maxWeight calls s = Some s' ∧ Inv s'.
Proof.
  induction calls as [|c calls IH]; intros s HI; simpl; [eauto|].
  destruct (run_call_Inv maxWeight c s HI) as (s1 & -> & HI1). simpl. by apply IH.
Qed.

(** Claim C1.  For every finite sequence of [AddTx], [EraseTx] and
    [LimitOrphans] calls on an orphanage that starts empty, every call
    returns (no assertion fails, no vector is indexed out of range, the
    eviction loop ends) and in the state after the sequence the three
    indices cohere: [m_orphan_list] is as long as [m_orphans] has entries;
    the handle at [list_pos] of every entry is that entry; and
    [m_outpoint_to_orphan_it] relates an outpoint to a wtxid exactly when
    the live entry of that wtxid spends the outpoint.  The sequence is
    arbitrary, so this is the state after each call of any run. *)
Theorem C1_indices_cohere `{FastRandomContext R} (maxWeight : Z) (next_sweep : Z)
    (calls : list (Call R)) :
  ∃ s, run maxWeight calls (empty_orphanage next_sweep) = Some s ∧ coherent s.
Proof.
  destruct (run_Inv maxWeight calls (empty_orphanage next_sweep)) as (s & Hs & HI).
  { apply Inv_empty. }
  exists s. split; [done|]. apply HI.
Qed.

(** Claim C4, amended.  When [LimitOrphans] is called with
    [m_next_sweep <= nNow], its expiry sweep erases exactly the entries
    with [nTimeExpire <= nNow] (the entries of the state [s1] after the
    sweep are those that expire later, unchanged but for [list_pos]) and
    their wtxids, in map order, start the returned vector; the eviction
    loop may then erase more and appends what it erases, nothing when the
    survivors fit in [max_orphans].  Afterwards [m_next_sweep] is
    [nMin + ORPHAN_TX_EXPIRE_INTERVAL], where [nMin] is the least of
    [nNow + ORPHAN_TX_EXPIRE_TIME - ORPHAN_TX_EXPIRE_INTERVAL] and the
    expiries of the entries that survived the sweep. *)
Theorem C4_sweep_sets_capped_next_sweep `{FastRandomContext R} (max_orphans : nat)
    (rng : R) (nNow : Z) (s : TxOrphanage) :
  Inv s → m_next_sweep s ≤ nNow →
  ∃ s1 evicted s' rng' nMin,
    expiry_sweep nNow s = Some (expired_keys nNow (m_orphans s), s1)
    ∧ payload <$> m_orphans s1 = payload <$> surviving nNow (m_orphans s)
    ∧ LimitOrphans max_orphans rng nNow s
      = Some (expired_keys nNow (m_orphans s) ++ evicted, s', rng')
    ∧ payload <$> m_orphans s' ⊆ payload <$> m_orphans s1
    ∧ ((size (m_orphans s1) ≤ max_orphans)%nat → evicted = [] ∧ s' = s1)
    ∧ m_next_sweep s' = nMin + ORPHAN_TX_EXPIRE_INTERVAL
    ∧ nMin ≤ nNow + ORPHAN_TX_EXPIRE_TIME - ORPHAN_TX_EXPIRE_INTERVAL
    ∧ (∀ k e, m_orphans s1 !! k = Some e → nMin ≤ nTimeExpire e)
    ∧ (nMin = nNow + ORPHAN_TX_EXPIRE_TIME - ORPHAN_TX_EXPIRE_INTERVAL
       ∨ ∃ k e, m_orphans s1 !! k = Some e ∧ nMin = nTimeExpire e).
Proof.
  intros HI Hdue.
  destruct (expiry_sweep_due nNow s HI Hdue)
    as (nMin & s1 & Hsweep & HI1 & Hpay & _ & Hns & Hcap & Hlb & Hwit).
  destruct (evict_loop_spec (size (m_orphans s1)) max_orphans rng
              (expired_keys nNow (m_orphans s)) s1 HI1)
    as (evicted & s' & rng' & Hev & _ & _ & Hsub & _ & Hns' & Hnone); [lia|].
  exists s1, evicted, s', rng', nMin. split_and!; try done.
  - unfold LimitOrphans. rewrite Hsweep. simpl. apply Hev.
  - intros Hle. by destruct (Hnone Hle) as (? & ? & _).
  - congruence.
Qed.

(** The claim C4 as stated fails on [one_orphan]: the sweep at time 1100
    erases nothing, the only entry expires at 2200, and [m_next_sweep]
    becomes 2300 (the cap 1100 + 20 min - 5 min, plus the interval), not
    2200 plus the interval. *)
Lemma C4_counterexample :
  let s := one_orphan in
  m_next_sweep s ≤ 1100
  ∧ ∃ s', LimitOrphans 100 0%nat 1100 s = Some ([], s', 0%nat)
          ∧ m_orphans s' = {[ 21%N := mkOrphanTx tx1 {[7]} 2200 0 [] ]}
          ∧ m_next_sweep s' = 2300
          ∧ m_next_sweep s' ≠ 2200 + ORPHAN_TX_EXPIRE_INTERVAL.
Proof.
  split; [vm_compute; discriminate|].
  eexists. split_and!.
  - vm_compute. reflexivity.
  - vm_compute. reflexivity.
  - reflexivity.
  - vm_compute. discriminate.
Qed.

(** Claim C6.  [AddTx] returns [true] exactly when no entry with the
    transaction's wtxid exists and its weight is at most
    [MAX_STANDARD_TX_WEIGHT], and exactly when it creates an entry (the
    set of keys of [m_orphans] changes).  When an entry with the wtxid
    exists, the call returns [false] and only adds the peer to that entry's
    announcers; when none exists and the weight is above the bound, it
    returns [false] and leaves the state as it was; otherwise it stores the
    new entry under the wtxid and appends its handle to [m_orphan_list]. *)
Theorem C6_AddTx_reports_creation (maxWeight : Z) (ptx : CTransaction) (peer : NodeId)
    (parents : list Txid) (nNow : Z) (s : TxOrphanage) :
  let w := GetWitnessHash ptx in
  let r := AddTx maxWeight ptx peer parents nNow s in
  (r.1 = true ↔ m_orphans s !! w = None ∧ GetTransactionWeight ptx ≤ maxWeight)
  ∧ (r.1 = true ↔ dom (m_orphans r.2) ≠ dom (m_orphans s))
  ∧ (∀ e, m_orphans s !! w = Some e →
       r.1 = false
       ∧ m_orphans r.2 = <[w := set_announcers (announcers e ∪ {[peer]}) e]> (m_orphans s)
       ∧ m_orphan_list r.2 = m_orphan_list s
       ∧ m_outpoint_to_orphan_it r.2 = m_outpoint_to_orphan_it s
       ∧ m_peer_work_set r.2 = m_peer_work_set s
       ∧ m_next_sweep r.2 = m_next_sweep s)
  ∧ (m_orphans s !! w = None → maxWeight < GetTransactionWeight ptx → r = (false, s))
  ∧ (m_orphans s !! w = None → GetTransactionWeight ptx ≤ maxWeight →
       m_orphans r.2
       = <[w := mkOrphanTx ptx {[peer]} (nNow + ORPHAN_TX_EXPIRE_TIME)
                           (length (m_orphan_list s)) parents]> (m_orphans s)
       ∧ m_orphan_list r.2 = m_orphan_list s ++ [w]
       ∧ size (m_orphans r.2) = S (size (m_orphans s))).
Proof.
  intros w r. subst r. unfold AddTx. fold w.
  destruct (m_orphans s !! w) as [e|] eqn:He; simpl.
  - split_and!.
    + split; [done|]. by intros [? _].
    + split; [done|]. intros Hd. exfalso. apply Hd.
      rewrite dom_insert_L. apply elem_of_dom_2 in He. set_solver.
    + intros ? [= <-]. done.
    + done.
    + done.
  - case_decide as Hw; simpl.
    + split_and!; try done.
      * split; [done|]. intros [_ ?]. lia.
      * intros _ ?. exfalso. lia.
    + split_and!; try done.
      * split; [|done]. intros _. split; [done|lia].
      * split; [|done]. intros _. rewrite dom_insert_L.
        apply not_elem_of_dom in He. set_solver.
      * intros _ _. split_and!; [done|done|]. by rewrite map_size_insert, He.
Qed.

(** ** [EraseOrphanOfPeer] *)

Lemma size_one_elem_of (X : gset NodeId) p : size X = 1%nat → p ∈ X → X = {[p]}.
Proof.
  intros [x Hx]%size_1_elem_of Hp. apply leibniz_equiv in Hx. subst X.
  apply elem_of_singleton in Hp. by subst.
Qed.

(** Claim C8.  [EraseOrphanOfPeer(w, p)] on a coherent orphanage: when
    no entry with [w] exists the whole state is unchanged.  Otherwise [w]
    is removed from the work set of [p] (no other work set changes) and
    then: when [p] is not an announcer of the entry, the orphans are left
    as they were; when [p] is its sole announcer, the entry is erased;
    when [p] is one of several announcers, only [p] is removed from the
    entry's announcers. *)
Theorem C8_EraseOrphanOfPeer_cases (w : Wtxid) (p : NodeId) (s : TxOrphanage) :
  Inv s →
  (m_orphans s !! w = None → EraseOrphanOfPeer w p s = Some s)
  ∧ (∀ e, m_orphans s !! w = Some e →
       ∃ s', EraseOrphanOfPeer w p s = Some s' ∧ Inv s'
         ∧ m_peer_work_set s' = alter (λ ws, ws ∖ {[w]}) p (m_peer_work_set s)
         ∧ m_next_sweep s' = m_next_sweep s
         ∧ (p ∉ announcers e →
              m_orphans s' = m_orphans s ∧ m_orphan_list s' = m_orphan_list s
              ∧ m_outpoint_to_orphan_it s' = m_outpoint_to_orphan_it s)
         ∧ (announcers e = {[p]} →
              m_orphans s' !! w = None
              ∧ payload <$> m_orphans s' = delete w (payload <$> m_orphans s))
         ∧ (p ∈ announcers e → announcers e ≠ {[p]} →
              m_orphans s' = <[w := set_announcers (announcers e ∖ {[p]}) e]> (m_orphans s)
              ∧ m_orphan_list s' = m_orphan_list s
              ∧ m_outpoint_to_orphan_it s' = m_outpoint_to_orphan_it s)).
Proof.
  intros HI. unfold EraseOrphanOfPeer. split.
  - by intros ->.
  - intros e He. rewrite He.
    set (s1 := match m_peer_work_set s !! p with
               | Some ws => with_work_set (<[p:=ws ∖ {[w]}]> (m_peer_work_set s)) s
               | None => s
               end).
    assert (Inv s1) as HI1.
    { subst s1. destruct (m_peer_work_set s !! p); [by apply Inv_with_work_set|done]. }
    assert (m_orphans s1 = m_orphans s ∧ m_orphan_list s1 = m_orphan_list s
            ∧ m_outpoint_to_orphan_it s1 = m_outpoint_to_orphan_it s
            ∧ m_next_sweep s1 = m_next_sweep s
            ∧ m_peer_work_set s1 = alter (λ ws, ws ∖ {[w]}) p (m_peer_work_set s))
      as (Ho & Hl & Hb & Hn & Hw).
    { subst s1. destruct (m_peer_work_set s !! p) as [ws|] eqn:Hws; simpl.
      - split_and!; try done. apply map_eq. intros q. rewrite lookup_alter.
        case_decide as Hq; [subst; by rewrite lookup_insert_eq, Hws|].
        by rewrite lookup_insert_ne.
      - split_and!; try done. apply map_eq. intros q. rewrite lookup_alter.
        case_decide as Hq; [subst; by rewrite Hws|done]. }
    clearbody s1.
    assert (m_orphans s1 !! w = Some e) as He1 by (by rewrite Ho).
    destruct (decide (p ∈ announcers e)) as [Hp|Hp].
    + destruct (decide (size (announcers e) = 1%nat)) as [Hone|Hmore].
      * destruct (EraseTx_present w s1 e HI1 He1) as (s' & -> & HI' & Hpay & Hws' & Hns').
        simpl. exists s'. split_and!; try done; try congruence.
        -- intros _. split; [|congruence].
           assert ((payload <$> m_orphans s') !! w = None) as Hnone.
           { rewrite Hpay. apply lookup_delete_eq. }
           rewrite lookup_fmap in Hnone. by destruct (m_orphans s' !! w).
        -- intros _ Hneq. exfalso. apply Hneq. by apply size_one_elem_of.
      * eexists. split; [done|]. simpl.
        split_and!; try done.
        -- pose proof HI1 as [[Hsz Hpos Hout] Hlist Hkey Hne].
           split; [split|..]; simpl; try done.
           ++ by rewrite map_size_insert, He1.
           ++ intros w' e'. destruct (decide (w' = w)) as [->|Hw'].
              ** rewrite lookup_insert_eq. intros [= <-]. simpl. by apply Hpos.
              ** rewrite lookup_insert_ne by done. apply Hpos.
           ++ intros q w'. rewrite Hout. destruct (decide (w' = w)) as [->|Hw'].
              ** rewrite lookup_insert_eq, He1. split; intros (? & [= <-] & ?); eauto.
              ** by rewrite lookup_insert_ne.
           ++ intros i w' (e' & He' & Hi)%Hlist. destruct (decide (w' = w)) as [->|Hw'].
              ** rewrite lookup_insert_eq. eexists. split; [done|]. simpl. congruence.
              ** rewrite lookup_insert_ne by done. eauto.
           ++ intros w' e'. destruct (decide (w' = w)) as [->|Hw'].
              ** rewrite lookup_insert_eq. intros [= <-]. simpl. by apply Hkey.
              ** rewrite lookup_insert_ne by done. apply Hkey.
        -- intros Heq. exfalso. apply Hmore. rewrite Heq. apply size_singleton.
        -- intros _ _. by rewrite Ho.
    + exists s1. split_and!; try done.
      * intros Heq. exfalso. apply Hp. rewrite Heq. set_solver.
Qed.

(** ** [EraseForBlock] *)

Lemma occurrences_app w l1 l2 :
  occurrences w (l1 ++ l2) = (occurrences w l1 + occurrences w l2)%nat.
Proof. unfold occurrences. by rewrite filter_app, length_app. Qed.

Lemma occurrences_pos w l : w ∈ l ↔ (0 < occurrences w l)%nat.
Proof.
  unfold occurrences. split.
  - intros Hin. assert (w ∈ filter (λ x, x = w) l) as Hf by (by apply list_elem_of_filter).
    destruct (filter _ l); [by apply elem_of_nil in Hf|simpl; lia].
  - intros Hpos. destruct (filter (λ x, x = w) l) as [|x l'] eqn:Hf; [simpl in Hpos; lia|].
    assert (x ∈ filter (λ x, x = w) l) as Hx by (rewrite Hf; left).
    apply list_elem_of_filter in Hx as [-> ?]. done.
Qed.

Lemma occurrences_NoDup w l :
  NoDup l → occurrences w l = if decide (w ∈ l) then 1%nat else 0%nat.
Proof.
  unfold occurrences. induction 1 as [|x l Hx Hnd IH]; [done|].
  destruct (decide (x = w)) as [->|Hne].
  - rewrite filter_cons_True by done. simpl. rewrite IH.
    rewrite decide_False by done. rewrite decide_True by left. done.
  - rewrite filter_cons_False by done. rewrite IH.
    apply decide_ext. rewrite elem_of_cons. naive_solver.
Qed.

Lemma mapM_live {A B} (f : A → option B) (g : A → B) (l : list A) :
  (∀ x, x ∈ l → f x = Some (g x)) → mapM f l = Some (g <$> l).
Proof.
  intros Hf. apply mapM_Some. apply Forall2_fmap_r, Forall_Forall2_diag, Forall_forall.
  done.
Qed.

Section EraseForBlock.
Context `{IteratorOrder}.

Lemma orphans_spending_spec s p :
  Inv s →
  ∃ l, orphans_spending s p = Some l
    ∧ ∀ w, occurrences w l
           = match m_orphans s !! w with
             | Some e => if decide (p ∈ vin (tx e)) then 1%nat else 0%nat
             | None => 0%nat
             end.
Proof.
  intros HI. pose proof (coh_outpoint _ (inv_coherent _ HI) p) as Hout.
  unfold orphans_spending. destruct (m_outpoint_to_orphan_it s !! p) as [its|] eqn:Hits.
  - exists (set_walk its). split.
    + rewrite (mapM_live _ id); [by rewrite list_fmap_id|].
      intros mi Hmi. rewrite set_walk_perm, elem_of_elements in Hmi.
      destruct (proj1 (Hout mi)) as (e & He & _); [eauto|].
      rewrite He. simpl. by rewrite (inv_key _ HI _ _ He).
    + intros w. rewrite occurrences_NoDup
        by (rewrite set_walk_perm; apply NoDup_elements).
      assert (w ∈ set_walk its ↔ ∃ e, m_orphans s !! w = Some e ∧ p ∈ vin (tx e)) as Hw.
      { rewrite set_walk_perm, elem_of_elements, <- Hout. naive_solver. }
      destruct (m_orphans s !! w) as [e|].
      * apply decide_ext. rewrite Hw. naive_solver.
      * apply decide_False. rewrite Hw. naive_solver.
  - exists []. split; [done|]. intros w.
    destruct (m_orphans s !! w) as [e|] eqn:He; [|done].
    rewrite decide_False; [done|]. intros Hp.
    destruct (proj2 (Hout w)) as (? & ? & _); [eauto|done].
Qed.

Lemma gather_for_inputs_spec s inputs :
  Inv s →
  ∃ l, gather_for_inputs s inputs = Some l
    ∧ ∀ w, occurrences w l
           = match m_orphans s !! w with
             | Some e => length (filter (λ p, p ∈ vin (tx e)) inputs)
             | None => 0%nat
             end.
Proof.
  intros HI. induction inputs as [|p inputs (l2 & Hl2 & Hc2)].
  - exists []. split; [done|]. intros w. by destruct (m_orphans s !! w).
  - destruct (orphans_spending_spec s p HI) as (l1 & Hl1 & Hc1).
    exists (l1 ++ l2). cbn [gather_for_inputs]. rewrite Hl1, Hl2. split; [done|].
    intros w. rewrite occurrences_app, Hc1, Hc2.
    destruct (m_orphans s !! w) as [e|]; [|done].
    rewrite filter_cons. by case_decide.
Qed.

Lemma gather_for_block_spec s block :
  Inv s →
  ∃ l, gather_for_block s block = Some l
    ∧ ∀ w, occurrences w l
           = match m_orphans s !! w with
             | Some e => spent_inputs e block
             | None => 0%nat
             end.
Proof.
  intros HI. induction block as [|ptx block (l2 & Hl2 & Hc2)].
  - exists []. split; [done|]. intros w. by destruct (m_orphans s !! w).
  - destruct (gather_for_inputs_spec s (vin ptx) HI) as (l1 & Hl1 & Hc1).
    exists (l1 ++ l2). cbn [gather_for_block]. rewrite Hl1, Hl2. split; [done|].
    intros w. rewrite occurrences_app, Hc1, Hc2.
    destruct (m_orphans s !! w) as [e|]; [|done].
    unfold spent_inputs, block_inputs. rewrite fmap_cons. simpl.
    by rewrite filter_app, length_app.
Qed.

Lemma erase_all_spec hashes : ∀ s,
  Inv s →
  ∃ n s', erase_all hashes s = Some (n, s') ∧ Inv s'
    ∧ (∀ w, payload <$> m_orphans s' !! w
            = if decide (w ∈ hashes) then None else payload <$> m_orphans s !! w)
    ∧ m_peer_work_set s' = m_peer_work_set s
    ∧ m_next_sweep s' = m_next_sweep s.
Proof.
  induction hashes as [|h hashes IH]; intros s HI.
  - exists 0, s. split_and!; done.
  - cbn [erase_all].
    assert (∃ n1 s1, EraseTx h s = Some (n1, s1) ∧ Inv s1
              ∧ payload <$> m_orphans s1 = delete h (payload <$> m_orphans s)
              ∧ m_peer_work_set s1 = m_peer_work_set s
              ∧ m_next_sweep s1 = m_next_sweep s) as (n1 & s1 & -> & HI1 & Hpay & Hws & Hns).
    { destruct (m_orphans s !! h) as [e|] eqn:He.
      - destruct (EraseTx_present h s e HI He) as (s1 & ? & ?). eauto.
      - exists 0, s. rewrite EraseTx_absent by done. split_and!; try done.
        symmetry. apply delete_id. by rewrite lookup_fmap, He. }
    simpl. destruct (IH s1 HI1) as (n & s' & -> & HI' & Hlk & Hws' & Hns').
    simpl. exists (n1 + n), s'. split_and!; try done; try congruence.
    intros w. rewrite Hlk. destruct (decide (w = h)) as [->|Hw].
    + rewrite (decide_True (P := h ∈ h :: hashes)) by left.
      case_decide; [done|]. rewrite <- lookup_fmap, Hpay. apply lookup_delete_eq.
    + rewrite <- (lookup_fmap payload (m_orphans s1)), Hpay, lookup_delete_ne, lookup_fmap by done.
      apply decide_ext. rewrite elem_of_cons. naive_solver.
Qed.

(** Claim C10.  [EraseForBlock(block)] on a coherent orphanage returns a
    vector in which a wtxid occurs once for every input of the block (each
    input of each transaction counted) whose prevout the live orphan of
    that wtxid spends, so more than once when the orphan spends several
    outpoints that the block spends, and not at all when there is no such
    orphan; after the call no live entry spends an outpoint that a
    transaction of the block spends. *)
Theorem C10_EraseForBlock_result (block : CBlock) (s : TxOrphanage) :
  Inv s →
  ∃ vOrphanErase s',
    EraseForBlock block s = Some (vOrphanErase, s')
    ∧ Inv s'
    ∧ (∀ w, occurrences w vOrphanErase
            = match m_orphans s !! w with
              | Some e => spent_inputs e block
              | None => 0%nat
              end)
    ∧ (∀ w e ptx p, m_orphans s' !! w = Some e → ptx ∈ block → p ∈ vin ptx →
                    p ∉ vin (tx e)).
Proof.
  intros HI. unfold EraseForBlock.
  destruct (gather_for_block_spec s block HI) as (l & -> & Hocc). simpl.
  destruct (erase_all_spec l s HI) as (n & s' & -> & HI' & Hlk & _). simpl.
  exists l, s'. split_and!; try done.
  intros w e' ptx p He' Hptx Hp Hspend.
  specialize (Hlk w). rewrite He' in Hlk. simpl in Hlk.
  case_decide as Hin; [done|].
  destruct (m_orphans s !! w) as [e|] eqn:He; [|done].
  simpl in Hlk. unfold payload in Hlk. injection Hlk as Htx _ _ _.
  apply Hin, occurrences_pos. rewrite Hocc, He.
  unfold spent_inputs.
  assert (p ∈ filter (λ p, p ∈ vin (tx e)) (block_inputs block)) as Hf.
  { apply list_elem_of_filter. split; [congruence|].
    unfold block_inputs. apply list_elem_of_join. exists (vin ptx).
    split; [done|]. by apply list_elem_of_fmap_2. }
  destruct (filter _ _); [by apply elem_of_nil in Hf|simpl; lia].
Qed.

End EraseForBlock.

(** ** Closed instances *)

(** The fixtures are coherent. *)
Lemma Inv_one_orphan : Inv one_orphan.
Proof. apply AddTx_Inv, Inv_empty. Qed.

Lemma Inv_two_orphans : Inv two_orphans.
Proof. apply AddTx_Inv, Inv_one_orphan. Qed.

(** The theorem of C4 at [one_orphan], swept at time 1000. *)
Lemma C4_witness :
  Inv one_orphan ∧ m_next_sweep one_orphan ≤ 1000
  ∧ ∃ evicted s' rng',
      LimitOrphans 100 0%nat 1000 one_orphan
      = Some (expired_keys 1000 (m_orphans one_orphan) ++ evicted, s', rng').
Proof.
  assert (m_next_sweep one_orphan ≤ 1000) as Hdue by (vm_compute; discriminate).
  split_and!; [exact Inv_one_orphan|exact Hdue|].
  destruct (C4_sweep_sets_capped_next_sweep 100 0%nat 1000 one_orphan Inv_one_orphan Hdue)
    as (s1 & evicted & s' & rng' & nMin & _ & _ & Hrun & _).
  by exists evicted, s', rng'.
Defined.

(** The theorem of C8 at [one_orphan]: peer 7 is the sole announcer. *)
Lemma C8_witness :
  Inv one_orphan
  ∧ ∃ s', EraseOrphanOfPeer 21 7 one_orphan = Some s' ∧ m_orphans s' !! 21%N = None.
Proof.
  split; [exact Inv_one_orphan|].
  destruct (C8_EraseOrphanOfPeer_cases 21 7 one_orphan Inv_one_orphan) as [_ Hlive].
  destruct (Hlive (mkOrphanTx tx1 {[7]} 2200 0 []))
    as (s' & Hrun & _ & _ & _ & _ & Hsole & _); [vm_compute; reflexivity|].
  exists s'. split; [exact Hrun|]. by apply Hsole.
Defined.

(** The theorem of C10 at [two_orphans] and a block that spends both
    outputs: the orphan of [tx2] is gathered twice. *)
Lemma C10_witness :
  Inv two_orphans
  ∧ ∃ vOrphanErase s',
      EraseForBlock [tx3] two_orphans = Some (vOrphanErase, s')
      ∧ occurrences 21 vOrphanErase = 1%nat
      ∧ occurrences 22 vOrphanErase = 2%nat
      ∧ m_orphans s' = ∅.
Proof.
  split; [exact Inv_two_orphans|].
  destruct (C10_EraseForBlock_result [tx3] two_orphans Inv_two_orphans)
    as (l & s' & Hrun & _ & Hocc & _).
  exists l, s'. split_and!; [exact Hrun|by rewrite Hocc|by rewrite Hocc|].
  revert Hrun. vm_compute. by intros [= _ <-].
Defined.

End OrphanageProofs.

(* ===================================================================== *)
(** * Part IV: properties of the spork manager                            *)
(* ===================================================================== *)

Module SporkProofs.
Import Spork.

(** ** Counting votes *)

Lemma tally_snoc (v x : Z) l :
  tally v (l ++ [x]) = (tally v l + if decide (x = v) then 1 else 0)%nat.
Proof.
  rewrite filter_app, length_app. f_equal.
  rewrite filter_cons, filter_nil. by case_decide.
Qed.

Lemma tally_app (v : Z) l1 l2 : tally v (l1 ++ l2) = (tally v l1 + tally v l2)%nat.
Proof. by rewrite filter_app, length_app. Qed.

Lemma tally_two (v v' : Z) l : v ≠ v' → (tally v l + tally v' l ≤ length l)%nat.
Proof.
  intros Hne. induction l as [|x l IH]; [done|].
  rewrite !filter_cons. repeat case_decide; simpl; subst; lia.
Qed.

Section Votes.
Context `{SporkEnv}.

(** The loop of [SporkValueIsActive] computes what the spec describes. *)
Lemma count_votes_first_to_reach nMin signers : ∀ counts seen,
  (∀ v, default 0 (counts !! v) = Z.of_nat (tally v seen)) →
  count_votes nMin signers counts
  = first_to_reach nMin seen ((λ km, nValue km.2) <$> signers).
Proof.
  induction signers as [|[k m] signers IH]; intros counts seen Hc; [done|].
  rewrite fmap_cons. cbn [count_votes first_to_reach snd].
  rewrite lookup_insert_eq. cbn [default]. unfold id.
  rewrite Hc, tally_snoc, (decide_True (P := nValue m = nValue m)) by done.
  replace (Z.of_nat (tally (nValue m) seen) + 1)
    with (Z.of_nat (tally (nValue m) seen + 1)) by lia.
  case_decide; [done|]. apply IH. intros v. rewrite tally_snoc.
  destruct (decide (nValue m = v)) as [<-|Hv].
  - rewrite lookup_insert_eq. simpl. lia.
  - rewrite lookup_insert_ne by done. rewrite Hc. lia.
Qed.

Lemma first_to_reach_Some t rest : ∀ seen v,
  first_to_reach t seen rest = Some v → t ≤ Z.of_nat (tally v (seen ++ rest)).
Proof.
  induction rest as [|x rest IH]; intros seen v; simpl; [done|].
  case_decide as Hx.
  - intros [= <-].
    replace (seen ++ x :: rest) with ((seen ++ [x]) ++ rest) by (by rewrite <- app_assoc).
    rewrite (tally_app x (seen ++ [x]) rest). lia.
  - intros Hr. replace (seen ++ x :: rest) with ((seen ++ [x]) ++ rest)
      by (by rewrite <- app_assoc). by apply IH.
Qed.

Lemma first_to_reach_None t rest : ∀ seen,
  (∀ v, Z.of_nat (tally v seen) < t) →
  first_to_reach t seen rest = None →
  ∀ v, Z.of_nat (tally v (seen ++ rest)) < t.
Proof.
  induction rest as [|x rest IH]; intros seen Hseen; simpl.
  - intros _ v. by rewrite app_nil_r.
  - case_decide as Hx; [done|]. intros Hr v.
    replace (seen ++ x :: rest) with ((seen ++ [x]) ++ rest) by (by rewrite <- app_assoc).
    apply IH; [|done]. intros v'. rewrite tally_snoc.
    destruct (decide (x = v')) as [<-|Hv]; [|specialize (Hseen v'); lia].
    rewrite tally_snoc, decide_True in Hx by done. lia.
Qed.

Lemma tally_fmap_filter {A} (f : A → Z) v (l : list A) :
  tally v (f <$> l) = length (filter (λ a, f a = v) l).
Proof.
  induction l as [|a l IH]; [done|].
  rewrite fmap_cons, !filter_cons. case_decide; simpl; by rewrite IH.
Qed.

Lemma votes_walk (signers : gmap CKeyID CSporkMessage) v :
  votes signers v = tally v ((λ km, nValue km.2) <$> signer_walk signers).
Proof.
  unfold votes. rewrite tally_fmap_filter. by rewrite signer_walk_perm.
Qed.

Lemma length_walk (signers : gmap CKeyID CSporkMessage) :
  length (signer_walk signers) = size signers.
Proof. rewrite signer_walk_perm. by rewrite length_map_to_list. Qed.

(** Two different values cannot both have a majority of the signers. *)
Lemma votes_two (signers : gmap CKeyID CSporkMessage) v v' :
  v ≠ v' → (votes signers v + votes signers v' ≤ size signers)%nat.
Proof.
  intros Hne. rewrite !votes_walk, <- length_walk.
  rewrite <- (length_fmap (λ km, nValue km.2) (signer_walk signers)).
  by apply tally_two.
Qed.

Lemma count_votes_Some nMin signers v :
  count_votes nMin (signer_walk signers) ∅ = Some v →
  nMin ≤ Z.of_nat (votes signers v).
Proof.
  rewrite (count_votes_first_to_reach _ _ ∅ []) by done.
  intros Hr%first_to_reach_Some. by rewrite votes_walk.
Qed.

Lemma count_votes_None nMin signers v :
  0 < nMin →
  count_votes nMin (signer_walk signers) ∅ = None →
  Z.of_nat (votes signers v) < nMin.
Proof.
  intros Hpos. rewrite (count_votes_first_to_reach _ _ ∅ []) by done.
  intros Hr. rewrite votes_walk.
  apply (first_to_reach_None nMin _ [] (λ _, Hpos) Hr v).
Qed.

End Votes.

Section Manager.
Context `{SporkEnv}.

(** ** Storing messages and the cache *)

Lemma install_active hash k m st id :
  mapSporksActive (install hash k m st) !! id
  = if decide (id = nSporkID m)
    then Some (<[k := m]> (default ∅ (mapSporksActive st !! nSporkID m)))
    else mapSporksActive st !! id.
Proof.
  unfold install. simpl. case_decide as Hid; [subst; apply lookup_insert_eq|].
  by apply lookup_insert_ne.
Qed.

Lemma install_cached hash k m st id :
  mapSporksCachedValues (install hash k m st) !! id
  = if decide (id = nSporkID m) then None else mapSporksCachedValues st !! id.
Proof.
  unfold install. simpl. case_decide as Hid; [subst; apply lookup_delete_eq|].
  by apply lookup_delete_ne.
Qed.

Lemma install_stored hash k m st id k' :
  stored (install hash k m st) id k'
  = if decide (id = nSporkID m ∧ k' = k) then Some m else stored st id k'.
Proof.
  unfold stored. rewrite install_active.
  destruct (decide (id = nSporkID m)) as [->|Hid]; simpl.
  - destruct (decide (k' = k)) as [->|Hk].
    + rewrite lookup_insert_eq. by rewrite decide_True.
    + rewrite lookup_insert_ne by done. rewrite decide_False by naive_solver.
      by destruct (mapSporksActive st !! nSporkID m).
  - rewrite decide_False by naive_solver. done.
Qed.

(** What [ProcessSpork] does to the manager: nothing, or [install]. *)
Lemma ProcessSpork_outcome pfrom peer cmd spork now st :
  (ProcessSpork pfrom peer cmd spork now st).1 = st
  ∨ ∃ k, GetSignerKeyID spork = Some k ∧ k ∈ setSporkPubKeyIDs st
         ∧ seen k spork st = false
         ∧ (ProcessSpork pfrom peer cmd spork now st).1 = install (GetHash spork) k spork st.
Proof.
  unfold ProcessSpork. case_decide; [by left|]. case_decide; [by left|].
  destruct (GetSignerKeyID spork) as [k|]; [|by left].
  case_decide; [|by left].
  destruct (seen k spork st) eqn:Hseen; [by left|]. right. exists k. by split_and!.
Qed.

Lemma seen_false_stored k spork st old :
  seen k spork st = false → stored st (nSporkID spork) k = Some old →
  nTimeSigned old < nTimeSigned spork.
Proof.
  unfold seen, stored. destruct (mapSporksActive st !! nSporkID spork) as [signers|];
    simpl; [|done].
  intros Hs Ho. rewrite Ho in Hs. apply bool_decide_eq_false in Hs. lia.
Qed.

Lemma has_threshold_ext st st' id v :
  mapSporksActive st' !! id = mapSporksActive st !! id →
  nMinSporkKeys st' = nMinSporkKeys st →
  has_threshold st id v → has_threshold st' id v.
Proof. unfold has_threshold. intros -> ->. done. Qed.

Lemma install_cache_coherent hash k m st :
  cache_coherent st → cache_coherent (install hash k m st).
Proof.
  intros Hc id v. rewrite install_cached. case_decide as Hid; [done|].
  intros Hv. apply (has_threshold_ext st); [|done|by apply Hc].
  rewrite install_active. by rewrite decide_False.
Qed.

Lemma ProcessSpork_cache_coherent pfrom peer cmd spork now st :
  cache_coherent st → cache_coherent (ProcessSpork pfrom peer cmd spork now st).1.
Proof.
  intros Hc. destruct (ProcessSpork_outcome pfrom peer cmd spork now st)
    as [Heq|(k & _ & _ & _ & Heq)]; rewrite Heq; [done|].
  by apply install_cache_coherent.
Qed.

Lemma UpdateSpork_outcome id value now st :
  (UpdateSpork id value now st = (false, st, []))
  ∨ ∃ spork k, Sign (sporkPrivKey st) (mkSpork id value now []) = Some spork
       ∧ GetSignerKeyID spork = Some k ∧ k ∈ setSporkPubKeyIDs st
       ∧ UpdateSpork id value now st
         = (true, install (GetHash spork) k spork st, Relay spork).
Proof.
  unfold UpdateSpork. destruct (Sign _ _) as [spork|]; [|by left].
  destruct (GetSignerKeyID spork) as [k|] eqn:Hk; [|by left].
  case_decide; [|by left]. right. exists spork, k. by split_and!.
Qed.

Lemma UpdateSpork_cache_coherent id value now st :
  cache_coherent st → cache_coherent (UpdateSpork id value now st).1.2.
Proof.
  intros Hc. destruct (UpdateSpork_outcome id value now st)
    as [Heq|(spork & k & _ & _ & _ & Heq)]; rewrite Heq; [done|].
  by apply install_cache_coherent.
Qed.

Lemma Sign_fields key m spork :
  Sign key m = Some spork →
  nSporkID spork = nSporkID m ∧ nValue spork = nValue m ∧ nTimeSigned spork = nTimeSigned m.
Proof.
  unfold Sign. destruct (key_IsValid key); [|done].
  destruct (SignHash _ _) as [sig|]; simpl; [|done].
  destruct (VerifyHash _ _ _); [|done]. by intros [= <-].
Qed.

Lemma SporkValueIsActive_cache_coherent id st :
  cache_coherent st → cache_coherent (SporkValueIsActive id st).2.
Proof.
  intros Hc. unfold SporkValueIsActive.
  destruct (mapSporksActive st !! id) as [signers|] eqn:Hs; [|done].
  destruct (mapSporksCachedValues st !! id) as [v0|] eqn:Hv0; [done|].
  destruct (count_votes _ _ _) as [v|] eqn:Hcount; [|done]. simpl.
  intros id' v'. simpl. destruct (decide (id' = id)) as [->|Hid].
  - rewrite lookup_insert_eq. intros [= <-]. exists signers. split; [done|].
    by apply count_votes_Some.
  - rewrite lookup_insert_ne by done. apply Hc.
Qed.

Lemma GetSporkValue_state id st : (GetSporkValue id st).2 = (SporkValueIsActive id st).2.
Proof.
  unfold GetSporkValue. destruct (SporkValueIsActive id st).1; [done|].
  by destruct (find _ _).
Qed.

Lemma SporkValueIsActive_frame id st :
  mapSporksActive (SporkValueIsActive id st).2 = mapSporksActive st
  ∧ setSporkPubKeyIDs (SporkValueIsActive id st).2 = setSporkPubKeyIDs st
  ∧ nMinSporkKeys (SporkValueIsActive id st).2 = nMinSporkKeys st.
Proof.
  unfold SporkValueIsActive. destruct (mapSporksActive st !! id); [|done].
  destruct (mapSporksCachedValues st !! id); [done|].
  by destruct (count_votes _ _ _).
Qed.

Lemma sound_fresh keys minKeys priv : sound keys minKeys (fresh_manager keys minKeys priv).
Proof. split; try done. Qed.

Lemma sound_step keys minKeys ev st : sound keys minKeys st → sound keys minKeys (step ev st).
Proof.
  intros [Hk Hm Hsig Hc]. destruct ev as [pfrom peer spork now|id]; simpl.
  - pose proof (ProcessSpork_cache_coherent pfrom peer NetMsgType_SPORK spork now st Hc) as Hc'.
    destruct (ProcessSpork_outcome pfrom peer NetMsgType_SPORK spork now st)
      as [Heq|(k & _ & Hauth & _ & Heq)]; rewrite Heq in *; [by split|].
    split; try done. intros id signers. rewrite install_active.
    case_decide as Hid; [|by apply Hsig]. intros [= <-]. rewrite dom_insert.
    destruct (mapSporksActive st !! nSporkID spork) as [old|] eqn:Hold; simpl.
    + specialize (Hsig _ _ Hold). set_solver.
    + set_solver.
  - rewrite GetSporkValue_state.
    destruct (SporkValueIsActive_frame id st) as (Ha & Hk' & Hm').
    split; [congruence|congruence| |by apply SporkValueIsActive_cache_coherent].
    rewrite Ha. apply Hsig.
Qed.

Lemma sound_replay keys minKeys events : ∀ st,
  sound keys minKeys st → sound keys minKeys (replay events st).
Proof.
  induction events as [|ev events IH]; intros st Hs; [done|].
  apply IH. by apply sound_step.
Qed.

(** With a threshold above half of the keys, at most one value reaches it. *)
Lemma threshold_unique keys minKeys st id v v' :
  sound keys minKeys st →
  Z.of_nat (size keys) `quot` 2 < minKeys →
  has_threshold st id v → has_threshold st id v' → v = v'.
Proof.
  intros [Hk Hm Hsig Hc] Hmaj (signers & Hs & Hv) (signers' & Hs' & Hv').
  assert (signers' = signers) as -> by congruence.
  destruct (decide (v = v')) as [|Hne]; [done|exfalso].
  pose proof (votes_two signers v v' Hne) as Htwo.
  assert (size signers ≤ size keys)%nat as Hsz.
  { rewrite <- size_dom. apply subseteq_size. by apply (Hsig id). }
  rewrite Hm in *.
  pose proof (Z.quot_rem' (Z.of_nat (size keys)) 2) as Hq.
  pose proof (Z.rem_bound_pos (Z.of_nat (size keys)) 2) as Hr.
  lia.
Qed.

End Manager.

Section Claims.
Context `{SporkEnv}.

(** Claim C2.  In every manager reached from one without messages by
    [ProcessSpork] calls (and reads of spork values), with a threshold
    above half of the authorized keys: [SporkValueIsActive(id)] yields the
    value [v] exactly when [v] has at least [nMinSporkKeys] signers in
    [mapSporksActive[id]]; [GetSporkValue(id)] then returns that [v], and
    [v] is stored in [mapSporksCachedValues[id]]; and when nothing is
    cached for [id] the result is the first value whose count, walking the
    signers of [id], reaches the threshold. *)
Theorem C2_value_iff_threshold (keys : gset CKeyID) (minKeys : Z) (priv : CKey)
    (events : list Event) (id : SporkId) (v : Z) :
  Z.of_nat (size keys) `quot` 2 < minKeys →
  let st := replay events (fresh_manager keys minKeys priv) in
  let r := SporkValueIsActive id st in
  (r.1 = Some v ↔ has_threshold st id v)
  ∧ (r.1 = Some v →
       (GetSporkValue id st).1 = v
       ∧ mapSporksCachedValues r.2 !! id = Some v
       ∧ (GetSporkValue id st).2 = r.2)
  ∧ (∀ signers, mapSporksActive st !! id = Some signers →
       mapSporksCachedValues st !! id = None →
       r.1 = first_to_reach minKeys [] ((λ km, nValue km.2) <$> signer_walk signers)
       ∧ r.2 = match r.1 with Some w => with_cached_value id w st | None => st end).
Proof.
  intros Hmaj st r.
  assert (sound keys minKeys st) as Hs by apply sound_replay, sound_fresh.
  assert (0 < minKeys) as Hpos.
  { pose proof (Z.quot_pos (Z.of_nat (size keys)) 2). lia. }
  pose proof (sound_min _ _ _ Hs) as Hmin.
  assert (∀ w, r.1 = Some w → has_threshold st id w) as Hfwd.
  { intros w. subst r. unfold SporkValueIsActive.
    destruct (mapSporksActive st !! id) as [signers|] eqn:Ha; [|done].
    destruct (mapSporksCachedValues st !! id) as [v0|] eqn:Hv0; simpl.
    - intros [= <-]. by apply (sound_cache _ _ _ Hs).
    - destruct (count_votes _ _ _) as [v1|] eqn:Hcount; simpl; [|done].
      intros [= <-]. exists signers. split; [done|]. by apply count_votes_Some. }
  assert (has_threshold st id v → is_Some r.1) as Hsome.
  { intros (signers & Ha & Hv). subst r. unfold SporkValueIsActive. rewrite Ha.
    destruct (mapSporksCachedValues st !! id) as [v0|]; simpl; [eauto|].
    destruct (count_votes _ _ _) as [v1|] eqn:Hcount; simpl; [eauto|].
    assert (0 < nMinSporkKeys st) as Hpos' by (by rewrite Hmin).
    pose proof (count_votes_None _ signers v Hpos' Hcount). lia. }
  split_and!.
  - split; [apply Hfwd|]. intros Hv. destruct (Hsome Hv) as [w Hw]. rewrite Hw. f_equal.
    by apply (threshold_unique keys minKeys st id w v Hs Hmaj); [apply Hfwd|].
  - intros Hr. split_and!.
    + unfold GetSporkValue. fold r. by rewrite Hr.
    + subst r. revert Hr. unfold SporkValueIsActive.
      destruct (mapSporksActive st !! id) as [signers|] eqn:Ha; [|done].
      destruct (mapSporksCachedValues st !! id) as [v0|] eqn:Hv0; simpl.
      * by intros [= <-].
      * destruct (count_votes _ _ _) as [v1|]; simpl; [|done].
        intros [= <-]. apply lookup_insert_eq.
    + apply GetSporkValue_state.
  - intros signers Ha Hc. subst r. unfold SporkValueIsActive. rewrite Ha, Hc, Hmin.
    rewrite <- (count_votes_first_to_reach minKeys (signer_walk signers) ∅ []) by done.
    by destruct (count_votes _ _ _).
Qed.


(** Claim C7, amended.  For a spork message whose [nTimeSigned] exceeds
    [now + 2 hours], [ProcessSpork] leaves the manager unchanged, does not
    relay, and calls [Misbehaving] exactly when the peer manager still
    knows the sender ([GetPeerRef] found it): then for the sender, with 100
    points and the reason "spork too far into the future". *)
Theorem C7_future_spork_is_dropped (pfrom : NodeId) (peer : bool)
    (spork : CSporkMessage) (now : Z) (st : CSporkManager) :
  nTimeSigned spork > now + 2 * 60 * 60 →
  let r := ProcessSpork pfrom peer NetMsgType_SPORK spork now st in
  r.1 = st
  ∧ (∀ hash, RelayTransactionOther hash ∉ r.2)
  ∧ (∀ id n msg, Misbehaving id n msg ∈ r.2
       ↔ peer = true ∧ id = pfrom ∧ n = 100 ∧ msg = "spork too far into the future"%string).
Proof.
  intros Hfuture r. subst r. unfold ProcessSpork.
  rewrite decide_False by (by intros ?). rewrite decide_True by done.
  cbn [fst snd]. split_and!; [done|..].
  - intros hash. destruct peer; cbn [app]; rewrite !elem_of_cons, elem_of_nil; naive_solver.
  - intros id n msg. destruct peer; cbn [app]; rewrite !elem_of_cons, elem_of_nil; naive_solver.
Qed.

(** Claim C9.  [CheckAndRemove] asserts that [setSporkPubKeyIDs] is not
    empty: a call with at least one authorized key gets past the assertion
    and returns, a call with no authorized key aborts. *)
Theorem C9_CheckAndRemove_asserts_keys (st : CSporkManager) :
  (setSporkPubKeyIDs st ≠ ∅ → is_Some (CheckAndRemove st))
  ∧ (setSporkPubKeyIDs st = ∅ → CheckAndRemove st = None).
Proof.
  unfold CheckAndRemove. split; intros Hk.
  - rewrite decide_False by done. eauto.
  - by rewrite decide_True.
Qed.

End Claims.

(** ** Closed instances *)

(** The theorem of C2 at the manager [voted]. *)
Lemma C2_witness :
  Z.of_nat (size ({[1%N; 2%N; 3%N]} : gset CKeyID)) `quot` 2 < 2
  ∧ ((SporkValueIsActive 10000 voted).1 = Some 1600000000
     ↔ has_threshold voted 10000 1600000000).
Proof.
  assert (Z.of_nat (size ({[1%N; 2%N; 3%N]} : gset CKeyID)) `quot` 2 < 2) as Hmaj.
  { vm_compute. reflexivity. }
  split; [exact Hmaj|].
  exact (proj1 (C2_value_iff_threshold {[1%N; 2%N; 3%N]} 2 1%N
           [Message 7 true (signed_by 1 10000 1600000000 1000) 2000;
            Message 7 true (signed_by 2 10000 1600000000 1001) 2000;
            Query 10000] 10000 1600000000 Hmaj)).
Defined.

Lemma votes_le_size `{SporkEnv} (signers : gmap CKeyID CSporkMessage) v :
  (votes signers v ≤ size signers)%nat.
Proof.
  unfold votes. rewrite <- length_map_to_list. apply length_filter.
Qed.

(** Claim C3, evaluated where it fails.  The manager [voted] is reached
    through the operations of the manager alone: the addresses of signers
    1, 2 and 3 are set, the threshold is set to 2, signers 1 and 2 give
    spork 10000 the value 1600000000, and the value is read, which caches
    it; the cached value has its two votes.  [SetMinSporkKeys(3)] then
    returns [true] and leaves the cache as it is: the value is still
    cached, no value has three votes, and [GetSporkValue] still returns the
    cached value.  With the same calls and the read after
    [SetMinSporkKeys(3)] instead, the votes and the threshold are the same
    and [GetSporkValue] returns the default 4070908800. *)
Theorem C3_cached_value_outlives_the_threshold :
  manager_run [MSetSporkAddress "one"; MSetSporkAddress "two"; MSetSporkAddress "three";
               MSetMinSporkKeys 2;
               MProcessSpork 7 true "spork" (signed_by 1 10000 1600000000 1000) 2000;
               MProcessSpork 7 true "spork" (signed_by 2 10000 1600000000 1001) 2000;
               MGetSporkValue 10000] (fresh_manager ∅ 0 1%N)
  = Some voted
  ∧ (mapSporksCachedValues voted !! 10000 = Some 1600000000
     ∧ has_threshold voted 10000 1600000000)
  ∧ (let r := SetMinSporkKeys 3 voted in
     r.1 = true
     ∧ nMinSporkKeys r.2 = 3
     ∧ mapSporksCachedValues r.2 !! 10000 = Some 1600000000
     ∧ (∀ v, ¬ has_threshold r.2 10000 v)
     ∧ (GetSporkValue 10000 r.2).1 = 1600000000)
  ∧ (∃ st',
       manager_run [MSetSporkAddress "one"; MSetSporkAddress "two";
                    MSetSporkAddress "three"; MSetMinSporkKeys 2;
                    MProcessSpork 7 true "spork" (signed_by 1 10000 1600000000 1000) 2000;
                    MProcessSpork 7 true "spork" (signed_by 2 10000 1600000000 1001) 2000;
                    MSetMinSporkKeys 3] (fresh_manager ∅ 0 1%N)
       = Some st'
       ∧ mapSporksActive st' = mapSporksActive (SetMinSporkKeys 3 voted).2
       ∧ nMinSporkKeys st' = nMinSporkKeys (SetMinSporkKeys 3 voted).2
       ∧ (GetSporkValue 10000 st').1 = 4070908800).
Proof.
  split_and!.
  - vm_compute. reflexivity.
  - vm_compute. reflexivity.
  - eexists. split; [vm_compute; reflexivity|]. vm_compute. discriminate.
  - cbv zeta. split_and!.
    + vm_compute. reflexivity.
    + vm_compute. reflexivity.
    + vm_compute. reflexivity.
    + intros v (sg & Hsg & Hle).
      assert (∃ sg0, mapSporksActive (SetMinSporkKeys 3 voted).2 !! 10000 = Some sg0
                     ∧ size sg0 = 2%nat) as (sg0 & Hsg0 & Hsz).
      { eexists. split; vm_compute; reflexivity. }
      assert (sg = sg0) as -> by congruence.
      pose proof (votes_le_size sg0 v) as Hvotes.
      change (nMinSporkKeys (SetMinSporkKeys 3 voted).2) with 3 in Hle. lia.
    + vm_compute. reflexivity.
  - eexists. split_and!; vm_compute; reflexivity.
Qed.


(** The theorem of C7 for a message signed three hours ahead. *)
Lemma C7_witness :
  nTimeSigned (signed_by 1 10000 5 12800) > 2000 + 2 * 60 * 60
  ∧ (ProcessSpork 7 true NetMsgType_SPORK (signed_by 1 10000 5 12800) 2000 committee).1
    = committee
  ∧ Misbehaving 7 100 "spork too far into the future"
      ∈ (ProcessSpork 7 true NetMsgType_SPORK (signed_by 1 10000 5 12800) 2000 committee).2.
Proof.
  assert (nTimeSigned (signed_by 1 10000 5 12800) > 2000 + 2 * 60 * 60) as Hfuture.
  { vm_compute. reflexivity. }
  destruct (C7_future_spork_is_dropped 7 true (signed_by 1 10000 5 12800) 2000 committee
              Hfuture) as (Hst & _ & Hmis).
  split_and!; [exact Hfuture|exact Hst|]. apply Hmis. done.
Defined.

(** The claim C7 as stated fails when [GetPeerRef] finds no peer: the
    message is forgotten and nothing is scored. *)
Lemma C7_counterexample :
  nTimeSigned (signed_by 1 10000 5 12800) > 2000 + 2 * 60 * 60
  ∧ (ProcessSpork 7 false "spork" (signed_by 1 10000 5 12800) 2000 committee).2
    = [ReceivedResponse 7 (GetHash (signed_by 1 10000 5 12800));
       ForgetTxHash 7 (GetHash (signed_by 1 10000 5 12800))]
  ∧ Misbehaving 7 100 "spork too far into the future"
      ∉ (ProcessSpork 7 false "spork" (signed_by 1 10000 5 12800) 2000 committee).2.
Proof.
  split_and!.
  - vm_compute. reflexivity.
  - vm_compute. reflexivity.
  - assert ((ProcessSpork 7 false "spork" (signed_by 1 10000 5 12800) 2000 committee).2
            = [ReceivedResponse 7 (GetHash (signed_by 1 10000 5 12800));
               ForgetTxHash 7 (GetHash (signed_by 1 10000 5 12800))]) as ->
      by (vm_compute; reflexivity).
    rewrite !elem_of_cons, elem_of_nil. naive_solver.
Qed.

End SporkProofs.

(* ===================================================================== *)
(** * Part V: the other operations of the orphanage                       *)
(* ===================================================================== *)

Module OrphanageOperations.
Import Orphanage OrphanageProofs.

(** ** Updating the announcers of one entry *)

Lemma with_orphans_same s : with_orphans (m_orphans s) s = s.
Proof. by destruct s. Qed.

Lemma set_announcers_same e : set_announcers (announcers e) e = e.
Proof. by destruct e. Qed.

Lemma announcers_add_known (e : OrphanTx) (p : NodeId) :
  p ∈ announcers e → set_announcers (announcers e ∪ {[p]}) e = e.
Proof.
  intros Hp. replace (announcers e ∪ {[p]}) with (announcers e) by set_solver.
  apply set_announcers_same.
Qed.

(** Replacing the announcers of a live entry keeps the indices coherent. *)
Lemma Inv_set_announcers s w e a :
  Inv s → m_orphans s !! w = Some e →
  Inv (with_orphans (<[w := set_announcers a e]> (m_orphans s)) s).
Proof.
  intros [[Hsz Hpos Hout] Hlist Hkey Hne] He.
  split; [split|..]; simpl; try done.
  - by rewrite map_size_insert, He.
  - intros w' e'. destruct (decide (w' = w)) as [->|Hw'].
    + rewrite lookup_insert_eq. intros [= <-]. simpl. by apply Hpos.
    + rewrite lookup_insert_ne by done. apply Hpos.
  - intros q w'. rewrite Hout. destruct (decide (w' = w)) as [->|Hw'].
    + rewrite lookup_insert_eq, He. split; intros (? & [= <-] & ?); eauto.
    + by rewrite lookup_insert_ne.
  - intros i w' (e' & He' & Hi)%Hlist. destruct (decide (w' = w)) as [->|Hw'].
    + rewrite lookup_insert_eq. eexists. split; [done|]. simpl. congruence.
    + rewrite lookup_insert_ne by done. eauto.
  - intros w' e'. destruct (decide (w' = w)) as [->|Hw'].
    + rewrite lookup_insert_eq. intros [= <-]. simpl. by apply Hkey.
    + rewrite lookup_insert_ne by done. apply Hkey.
Qed.

Lemma announced_set_announcers s w e a :
  announced s → a ≠ ∅ →
  announced (with_orphans (<[w := set_announcers a e]> (m_orphans s)) s).
Proof.
  intros Han Ha w' e'. simpl. destruct (decide (w' = w)) as [->|Hw'].
  - rewrite lookup_insert_eq. by intros [= <-].
  - rewrite lookup_insert_ne by done. apply Han.
Qed.

Lemma payload_announcers e e' : payload e = payload e' → announcers e = announcers e'.
Proof. unfold payload. by intros [= _ -> _ _]. Qed.

(** Entries that come from entries with announcers have announcers. *)
Lemma announced_from s s' :
  (∀ w e', m_orphans s' !! w = Some e' →
     ∃ e, m_orphans s !! w = Some e ∧ announcers e' = announcers e) →
  announced s → announced s'.
Proof.
  intros Hfrom Han w e' He'. destruct (Hfrom w e' He') as (e & He & ->). by apply (Han w).
Qed.

Lemma announced_payload_subseteq s s' :
  payload <$> m_orphans s' ⊆ payload <$> m_orphans s → announced s → announced s'.
Proof.
  intros Hsub. apply announced_from. intros w e' He'.
  assert ((payload <$> m_orphans s) !! w = Some (payload e')) as Hp.
  { eapply lookup_weaken; [|exact Hsub]. by rewrite lookup_fmap, He'. }
  rewrite lookup_fmap in Hp. destruct (m_orphans s !! w) as [e|]; [|done].
  exists e. split; [done|]. simpl in Hp. symmetry. apply payload_announcers. congruence.
Qed.

Lemma announced_empty t : announced (empty_orphanage t).
Proof. intros w e. simpl. by rewrite lookup_empty. Qed.

Lemma announced_AddTx maxWeight ptx peer parents nNow s :
  announced s → announced (AddTx maxWeight ptx peer parents nNow s).2.
Proof.
  intros Han. unfold AddTx.
  destruct (m_orphans s !! GetWitnessHash ptx) as [e|] eqn:He; simpl.
  - apply announced_set_announcers; [done|set_solver].
  - case_decide; simpl; [done|]. intros w e. simpl.
    destruct (decide (w = GetWitnessHash ptx)) as [->|Hw].
    + rewrite lookup_insert_eq. intros [= <-]. simpl. set_solver.
    + rewrite lookup_insert_ne by done. apply Han.
Qed.

(** ** [AddAnnouncer] *)

Lemma AddAnnouncer_Inv w p s : Inv s → Inv (AddAnnouncer w p s).2.
Proof.
  intros HI. unfold AddAnnouncer. destruct (m_orphans s !! w) as [e|] eqn:He; [|done].
  by apply Inv_set_announcers.
Qed.

Lemma announced_AddAnnouncer w p s : announced s → announced (AddAnnouncer w p s).2.
Proof.
  intros Han. unfold AddAnnouncer. destruct (m_orphans s !! w) as [e|] eqn:He; [|done].
  apply announced_set_announcers; [done|set_solver].
Qed.

(** Property X1.  [AddAnnouncer(wtxid, peer)] returns [true] exactly when the
    orphan is stored and the peer is not yet one of its announcers; when it
    returns [false] the orphanage is unchanged; for a stored orphan only the
    announcers of that entry change, and the peer is one of them afterwards
    ([HaveTxAndPeer]); the orphan list, the outpoint index, the work sets
    and the sweep time are untouched; a second call with the same arguments
    returns [false] and changes nothing. *)
Theorem AddAnnouncer_reports_new_announcer (w : Wtxid) (p : NodeId) (s : TxOrphanage) :
  let r := AddAnnouncer w p s in
  (r.1 = true ↔ ∃ e, m_orphans s !! w = Some e ∧ p ∉ announcers e)
  ∧ (r.1 = false → r.2 = s)
  ∧ (∀ e, m_orphans s !! w = Some e →
       m_orphans r.2 = <[w := set_announcers (announcers e ∪ {[p]}) e]> (m_orphans s)
       ∧ HaveTxAndPeer w p r.2 = true)
  ∧ m_orphan_list r.2 = m_orphan_list s
  ∧ m_outpoint_to_orphan_it r.2 = m_outpoint_to_orphan_it s
  ∧ m_peer_work_set r.2 = m_peer_work_set s
  ∧ m_next_sweep r.2 = m_next_sweep s
  ∧ AddAnnouncer w p r.2 = (false, r.2).
Proof.
  intros r. subst r. unfold AddAnnouncer.
  destruct (m_orphans s !! w) as [e|] eqn:He; simpl.
  - split_and!; try done.
    + rewrite bool_decide_eq_true. split; [eauto|]. by intros (? & [= <-] & ?).
    + rewrite bool_decide_eq_false. intros Hp%dec_stable.
      rewrite announcers_add_known by done. rewrite insert_id by done.
      apply with_orphans_same.
    + intros ? [= <-]. split; [done|]. unfold HaveTxAndPeer. simpl.
      rewrite lookup_insert_eq. simpl. apply bool_decide_eq_true. set_solver.
    + rewrite lookup_insert_eq. simpl. f_equal.
      * apply bool_decide_eq_false. set_solver.
      * unfold with_orphans. simpl. f_equal. rewrite insert_insert_eq. f_equal.
        unfold set_announcers. simpl. f_equal. set_solver.
  - rewrite He. split_and!; try done. split; [done|]. by intros (? & ? & _).
Qed.

(** ** [EraseForPeer] *)

Lemma without_peer_payload peer (o o' : option OrphanTx) :
  payload <$> o = payload <$> o' →
  payload <$> (o ≫= without_peer peer) = payload <$> (o' ≫= without_peer peer).
Proof.
  destruct o as [e|], o' as [e'|]; simpl; try done.
  unfold payload at 1 2. intros [= Htx Han Hexp Hpar]. unfold without_peer.
  rewrite Han. repeat case_decide; simpl; try done.
  - unfold payload. simpl. congruence.
  - unfold payload. congruence.
Qed.

Lemma with_work_set_same s : with_work_set (m_peer_work_set s) s = s.
Proof. by destruct s. Qed.

Lemma erase_for_peer_loop_spec peer keys : ∀ n0 s,
  Inv s → NoDup keys → (∀ k, k ∈ keys → is_Some (m_orphans s !! k)) →
  ∃ n s',
    erase_for_peer_loop peer keys n0 s = Some (n, s')
    ∧ Inv s'
    ∧ (∀ k, payload <$> m_orphans s' !! k
            = if bool_decide (k ∈ keys)
              then payload <$> (m_orphans s !! k ≫= without_peer peer)
              else payload <$> m_orphans s !! k)
    ∧ m_peer_work_set s' = m_peer_work_set s
    ∧ m_next_sweep s' = m_next_sweep s.
Proof.
  induction keys as [|k keys IH]; intros n0 s HI Hnd Hlive.
  - exists n0, s. split_and!; try done.
  - apply NoDup_cons in Hnd as [Hk Hnd].
    destruct (Hlive k) as [e He]; [by left|].
    cbn [erase_for_peer_loop]. rewrite He. simpl.
    assert (∀ k', bool_decide (k' ∈ k :: keys)
                  = if decide (k' = k) then true else bool_decide (k' ∈ keys)) as Hmem.
    { intros k'. case_decide as Hk'; [subst; apply bool_decide_eq_true; by left|].
      apply bool_decide_ext. rewrite elem_of_cons. naive_solver. }
    assert (∀ s1, Inv s1 →
              (∀ k', k' ≠ k → payload <$> m_orphans s1 !! k' = payload <$> m_orphans s !! k') →
              payload <$> m_orphans s1 !! k = payload <$> (without_peer peer e) →
              m_peer_work_set s1 = m_peer_work_set s →
              m_next_sweep s1 = m_next_sweep s →
              ∀ n1, ∃ n s',
                erase_for_peer_loop peer keys n1 s1 = Some (n, s') ∧ Inv s'
                ∧ (∀ k', payload <$> m_orphans s' !! k'
                     = if bool_decide (k' ∈ k :: keys)
                       then payload <$> (m_orphans s !! k' ≫= without_peer peer)
                       else payload <$> m_orphans s !! k')
                ∧ m_peer_work_set s' = m_peer_work_set s
                ∧ m_next_sweep s' = m_next_sweep s) as Hstep.
    { intros s1 HI1 Hother Hthis Hws Hns n1.
      destruct (IH n1 s1 HI1 Hnd) as (n & s' & Hrun & HI' & Hlk & Hws' & Hns').
      { intros k' Hk'. assert (k' ≠ k) as Hne by (intros ->; done).
        specialize (Hother k' Hne). destruct (Hlive k') as [? Hx]; [by right|].
        rewrite Hx in Hother. destruct (m_orphans s1 !! k'); [eauto|done]. }
      exists n, s'. split_and!; try done; try congruence.
      intros k'. rewrite Hlk, Hmem. case_decide as Hk'.
      - subst k'. rewrite bool_decide_eq_false_2 by done. by rewrite Hthis, He.
      - rewrite (without_peer_payload peer _ _ (Hother k' Hk')). by rewrite Hother. }
    destruct (decide (peer ∈ announcers e)) as [Hp|Hp].
    + destruct (decide (size (announcers e) = 1%nat)) as [Hone|Hmore].
      * rewrite (inv_key _ HI _ _ He).
        destruct (EraseTx_present k s e HI He) as (s1 & -> & HI1 & Hpay & Hws & Hns).
        simpl. apply Hstep; try done.
        -- intros k' Hk'. rewrite <- !lookup_fmap, Hpay. by apply lookup_delete_ne.
        -- unfold without_peer. rewrite !decide_True by done.
           rewrite <- lookup_fmap, Hpay. apply lookup_delete_eq.
      * apply Hstep; try done.
        -- by apply Inv_set_announcers.
        -- intros k' Hk'. simpl. by rewrite lookup_insert_ne.
        -- simpl. rewrite lookup_insert_eq. unfold without_peer.
           rewrite decide_True by done. by rewrite decide_False by done.
    + apply Hstep; try done. rewrite He. unfold without_peer.
      by rewrite decide_False by done.
Qed.

Lemma erase_for_peer_loop_absent peer keys : ∀ n0 s,
  (∀ k, k ∈ keys → ∃ e, m_orphans s !! k = Some e ∧ peer ∉ announcers e) →
  erase_for_peer_loop peer keys n0 s = Some (n0, s).
Proof.
  induction keys as [|k keys IH]; intros n0 s Hkeys; [done|].
  destruct (Hkeys k) as (e & He & Hp); [by left|].
  cbn [erase_for_peer_loop]. rewrite He. simpl. rewrite decide_False by done.
  apply IH. intros k' Hk'. apply Hkeys. by right.
Qed.

Lemma without_peer_Some peer e e' :
  without_peer peer e = Some e' →
  ((peer ∉ announcers e) ∧ e' = e)
  ∨ (peer ∈ announcers e ∧ size (announcers e) ≠ 1%nat
     ∧ e' = set_announcers (announcers e ∖ {[peer]}) e).
Proof.
  unfold without_peer. destruct (decide (peer ∈ announcers e)) as [Hp|Hp].
  - destruct (decide (size (announcers e) = 1%nat)) as [|Hsz]; [done|].
    intros [= <-]. by right.
  - intros [= <-]. by left.
Qed.

Lemma without_peer_gone peer e e' : without_peer peer e = Some e' → peer ∉ announcers e'.
Proof.
  intros [[Hp ->]|(Hp & Hsz & ->)]%without_peer_Some; [done|]. simpl. set_solver.
Qed.

Lemma without_peer_announced peer e e' :
  announcers e ≠ ∅ → without_peer peer e = Some e' → announcers e' ≠ ∅.
Proof.
  intros Hne [[Hp ->]|(Hp & Hsz & ->)]%without_peer_Some; [done|].
  simpl. intros Hemp. apply Hsz.
  assert (announcers e = {[peer]}) as Heq.
  { apply set_eq. intros x. rewrite elem_of_singleton. split; [|by intros ->].
    intros Hx. destruct (decide (x = peer)) as [|Hxp]; [done|exfalso].
    assert (x ∈ announcers e ∖ {[peer]}) as Hin by set_solver.
    rewrite Hemp in Hin. set_solver. }
  rewrite Heq. apply size_singleton.
Qed.

(** The entries after [EraseForPeer], read off the payload map. *)
Lemma lookup_payload_omap_without_peer peer (m : gmap Wtxid OrphanTx) k :
  (payload <$> omap (without_peer peer) m) !! k
  = payload <$> (m !! k ≫= without_peer peer).
Proof. by rewrite lookup_fmap, lookup_omap. Qed.

(** What [EraseForPeer] establishes; the lemmas on sequences of calls
    build on it. *)
Lemma EraseForPeer_post (peer : NodeId) (s : TxOrphanage) :
  Inv s →
  ∃ s', EraseForPeer peer s = Some s'
    ∧ Inv s'
    ∧ payload <$> m_orphans s' = payload <$> omap (without_peer peer) (m_orphans s)
    ∧ m_peer_work_set s' = delete peer (m_peer_work_set s)
    ∧ m_next_sweep s' = m_next_sweep s
    ∧ (∀ w, HaveTxAndPeer w peer s' = false)
    ∧ (announced s → announced s')
    ∧ EraseForPeer peer s' = Some s'.
Proof.
  intros HI. unfold EraseForPeer.
  set (s0 := with_work_set (delete peer (m_peer_work_set s)) s).
  assert (Inv s0) as HI0 by (by apply Inv_with_work_set).
  destruct (erase_for_peer_loop_spec peer (orphan_keys (m_orphans s0)) 0 s0 HI0)
    as (n & s' & Hrun & HI' & Hlk & Hws & Hns).
  { apply NoDup_orphan_keys. }
  { intros k. by rewrite elem_of_orphan_keys. }
  rewrite Hrun. simpl. exists s'.
  assert (∀ k, payload <$> m_orphans s' !! k
               = payload <$> (m_orphans s !! k ≫= without_peer peer)) as Hlk'.
  { intros k. rewrite Hlk. simpl. case_bool_decide as Hk; [done|].
    rewrite elem_of_orphan_keys in Hk. simpl in Hk.
    destruct (m_orphans s !! k); [exfalso; eauto|done]. }
  assert (∀ w e', m_orphans s' !! w = Some e' →
            ∃ e e1, m_orphans s !! w = Some e ∧ without_peer peer e = Some e1
                    ∧ announcers e' = announcers e1) as Hfrom.
  { intros w e' He'. specialize (Hlk' w). rewrite He' in Hlk'.
    destruct (m_orphans s !! w) as [e|]; simpl in Hlk'; [|done].
    destruct (without_peer peer e) as [e1|] eqn:He1; simpl in Hlk'; [|done].
    exists e, e1. split_and!; [done|done|]. apply payload_announcers. congruence. }
  assert (∀ w e', m_orphans s' !! w = Some e' → peer ∉ announcers e') as Hgone.
  { intros w e' (e & e1 & _ & He1 & ->)%Hfrom. by apply (without_peer_gone peer e). }
  split_and!; try done.
  - apply map_eq. intros k.
    rewrite lookup_payload_omap_without_peer, lookup_fmap. apply Hlk'.
  - intros w. unfold HaveTxAndPeer. destruct (m_orphans s' !! w) as [e'|] eqn:He'; [|done].
    apply bool_decide_eq_false. by apply (Hgone w).
  - intros Han w e' (e & e1 & He & He1 & ->)%Hfrom.
    apply (without_peer_announced peer e); [by apply (Han w)|done].
  - assert (with_work_set (delete peer (m_peer_work_set s')) s' = s') as ->.
    { rewrite delete_id; [apply with_work_set_same|].
      rewrite Hws. simpl. apply lookup_delete_eq. }
    rewrite erase_for_peer_loop_absent; [done|].
    intros k [e' He']%elem_of_orphan_keys. exists e'. split; [done|]. by apply (Hgone k).
Qed.

(** Property X2.  In an orphanage whose indices cohere, [EraseForPeer(peer)]
    runs to its end (no erasure meets a dangling handle) and keeps the
    indices coherent.  List positions apart, the orphans afterwards are
    those before with the peer taken out of every announcer set, an orphan
    being erased exactly when the peer was its only announcer; the work set
    of the peer is dropped and no other; the sweep time is kept; no orphan
    has the peer as announcer afterwards; every orphan still has an
    announcer when that held before; and a second call changes nothing. *)
Theorem EraseForPeer_removes_peer (peer : NodeId) (s : TxOrphanage) :
  Inv s →
  ∃ s', EraseForPeer peer s = Some s'
    ∧ Inv s'
    ∧ payload <$> m_orphans s' = payload <$> omap (without_peer peer) (m_orphans s)
    ∧ m_peer_work_set s' = delete peer (m_peer_work_set s)
    ∧ m_next_sweep s' = m_next_sweep s
    ∧ (∀ w, HaveTxAndPeer w peer s' = false)
    ∧ (announced s → announced s')
    ∧ EraseForPeer peer s' = Some s'.
Proof. exact (EraseForPeer_post peer s). Qed.

(** ** [AddChildrenToWorkSet] *)

Lemma add_to_work_set_fold w l : ∀ ws p w',
  w' ∈ default ∅ (foldl (add_to_work_set w) ws l !! p)
  ↔ w' ∈ default ∅ (ws !! p) ∨ (w' = w ∧ p ∈ l).
Proof.
  induction l as [|a l IH]; intros ws p w'; cbn [foldl].
  - rewrite elem_of_nil. naive_solver.
  - rewrite IH. unfold add_to_work_set.
    destruct (decide (p = a)) as [->|Hp].
    + rewrite lookup_insert_eq. simpl. rewrite elem_of_union, elem_of_singleton, elem_of_cons.
      naive_solver.
    + rewrite lookup_insert_ne by done. rewrite elem_of_cons. naive_solver.
Qed.

Lemma add_children_walk_spec orphans elems : ∀ ws,
  (∀ w, w ∈ elems → ∃ e, orphans !! w = Some e ∧ announcers e ≠ ∅) →
  ∃ ws', add_children_walk orphans elems ws = Some ws'
    ∧ ∀ p w', w' ∈ default ∅ (ws' !! p)
              ↔ w' ∈ default ∅ (ws !! p)
                ∨ (w' ∈ elems ∧ ∃ e, orphans !! w' = Some e ∧ p ∈ announcers e).
Proof.
  induction elems as [|elem elems IH]; intros ws Hlive.
  - exists ws. split; [done|]. intros p w'. rewrite elem_of_nil. naive_solver.
  - destruct (Hlive elem) as (e & He & Hne); [by left|].
    cbn [add_children_walk]. rewrite He. simpl. rewrite decide_False by done.
    destruct (IH (foldl (add_to_work_set elem) ws (elements (announcers e))))
      as (ws' & -> & Hws').
    { intros w Hw. apply Hlive. by right. }
    exists ws'. split; [done|]. intros p w'.
    rewrite Hws', add_to_work_set_fold, elem_of_elements, elem_of_cons. split.
    + intros [[?|[-> Hp]]|[? ?]]; [by left|right|right]; [|naive_solver].
      split; [by left|eauto].
    + intros [?|[[->|?] (e' & He' & Hp)]]; [by left; left| |right; eauto].
      left. right. split; [done|]. congruence.
Qed.

Section WorkSets.
Context `{IteratorOrder}.

Lemma add_children_outputs_spec s hash indices : ∀ ws,
  Inv s → announced s →
  ∃ ws', add_children_outputs s hash indices ws = Some ws'
    ∧ ∀ p w', w' ∈ default ∅ (ws' !! p)
              ↔ w' ∈ default ∅ (ws !! p)
                ∨ ∃ e i, m_orphans s !! w' = Some e ∧ p ∈ announcers e
                         ∧ i ∈ indices ∧ (hash, N.of_nat i) ∈ vin (tx e).
Proof.
  intros ws HI Han. revert ws. induction indices as [|i indices IH]; intros ws.
  - exists ws. split; [done|]. intros p w'. split; [by left|].
    intros [?|(? & ? & _ & _ & []%elem_of_nil & _)]. done.
  - pose proof (coh_outpoint _ (inv_coherent _ HI) (hash, N.of_nat i)) as Hout.
    cbn [add_children_outputs].
    destruct (m_outpoint_to_orphan_it s !! (hash, N.of_nat i)) as [its|] eqn:Hits.
    + destruct (add_children_walk_spec (m_orphans s) (set_walk its) ws) as (ws1 & -> & Hws1).
      { intros w Hw. rewrite set_walk_perm, elem_of_elements in Hw.
        destruct (proj1 (Hout w)) as (e & He & _); [eauto|]. exists e. split; [done|].
        by apply (Han w). }
      simpl. destruct (IH ws1) as (ws' & -> & Hws'). exists ws'. split; [done|].
      intros p w'. rewrite Hws', Hws1. rewrite set_walk_perm, elem_of_elements.
      assert (w' ∈ its ↔ ∃ e, m_orphans s !! w' = Some e ∧ (hash, N.of_nat i) ∈ vin (tx e))
        as Hmem by (rewrite <- Hout; naive_solver).
      rewrite Hmem. setoid_rewrite elem_of_cons. split.
      * intros [[?|[(e & He & Hspend) (e' & He' & Hp)]]|(e & j & ? & ? & ? & ?)].
        -- by left.
        -- right. exists e, i. split_and!; try done; [congruence|by left].
        -- right. exists e, j. split_and!; try done. by right.
      * intros [?|(e & j & He & Hp & [->|Hj] & Hspend)].
        -- by left; left.
        -- left. right. split; eauto.
        -- right. exists e, j. done.
    + destruct (IH ws) as (ws' & -> & Hws'). exists ws'. split; [done|].
      intros p w'. rewrite Hws'. setoid_rewrite elem_of_cons. split.
      * intros [?|(e & j & ? & ? & ? & ?)]; [by left|right].
        exists e, j. split_and!; try done. by right.
      * intros [?|(e & j & He & Hp & [->|Hj] & Hspend)]; [by left| |right; eauto 10].
        exfalso. destruct (proj2 (Hout w')) as (? & ? & _); [eauto|congruence].
Qed.

(** What [AddChildrenToWorkSet] establishes; the lemmas on sequences of calls
    build on it. *)
Lemma AddChildrenToWorkSet_post (parent : CTransaction) (s : TxOrphanage) :
  Inv s → announced s →
  ∃ s', AddChildrenToWorkSet parent s = Some s'
    ∧ m_orphans s' = m_orphans s
    ∧ m_orphan_list s' = m_orphan_list s
    ∧ m_outpoint_to_orphan_it s' = m_outpoint_to_orphan_it s
    ∧ m_next_sweep s' = m_next_sweep s
    ∧ ∀ p w, w ∈ work_set_of p s'
             ↔ w ∈ work_set_of p s
               ∨ ∃ e, m_orphans s !! w = Some e ∧ p ∈ announcers e
                      ∧ spends_output_of parent e.
Proof.
  intros HI Han. unfold AddChildrenToWorkSet.
  destruct (add_children_outputs_spec s (GetHash parent) (seq 0 (vout_size parent))
              (m_peer_work_set s) HI Han) as (ws' & -> & Hws').
  simpl. eexists. split; [done|]. split_and!; try done.
  intros p w. unfold work_set_of. simpl. rewrite Hws'. unfold spends_output_of.
  setoid_rewrite elem_of_seq. split.
  - intros [?|(e & i & ? & ? & ? & ?)]; [by left|right]. exists e. split_and!; try done.
    exists i. split; [lia|done].
  - intros [?|(e & ? & ? & i & ? & ?)]; [by left|right]. exists e, i.
    split_and!; try done; lia.
Qed.

(** Property X3.  In an orphanage whose indices cohere and whose orphans all
    have an announcer, [AddChildrenToWorkSet(tx)] runs to its end, leaves
    the orphans, the orphan list, the outpoint index and the sweep time
    unchanged, and a wtxid is in the work set of a peer afterwards exactly
    when it was there before or it is a stored orphan that the peer
    announced and that spends an output [(tx.GetHash(), i)] with
    [i < tx.vout.size()]. *)
Theorem AddChildrenToWorkSet_queues_children (parent : CTransaction) (s : TxOrphanage) :
  Inv s → announced s →
  ∃ s', AddChildrenToWorkSet parent s = Some s'
    ∧ m_orphans s' = m_orphans s
    ∧ m_orphan_list s' = m_orphan_list s
    ∧ m_outpoint_to_orphan_it s' = m_outpoint_to_orphan_it s
    ∧ m_next_sweep s' = m_next_sweep s
    ∧ ∀ p w, w ∈ work_set_of p s'
             ↔ w ∈ work_set_of p s
               ∨ ∃ e, m_orphans s !! w = Some e ∧ p ∈ announcers e
                      ∧ spends_output_of parent e.
Proof. exact (AddChildrenToWorkSet_post parent s). Qed.

End WorkSets.

(** ** [GetTxToReconsider] *)

(** The loop drops entries that are not live until it meets a live one. *)
Lemma reconsider_loop_spec (orphans : gmap Wtxid OrphanTx) (l : list Wtxid) :
  ∃ skipped,
    (∀ w, w ∈ skipped → orphans !! w = None)
    ∧ match (reconsider_loop orphans l).1 with
      | Some t => ∃ w e, l = skipped ++ w :: (reconsider_loop orphans l).2
                         ∧ orphans !! w = Some e ∧ t = tx e
      | None => l = skipped ∧ (reconsider_loop orphans l).2 = []
      end.
Proof.
  induction l as [|w l (skipped & Hsk & IH)]; cbn [reconsider_loop].
  - exists []. split; [by intros ? ?%elem_of_nil|done].
  - destruct (orphans !! w) as [e|] eqn:He; cbn [fst snd].
    + exists []. split; [by intros ? ?%elem_of_nil|]. exists w, e. by split_and!.
    + exists (w :: skipped). split.
      * intros w' [->|?]%elem_of_cons; [done|by apply Hsk].
      * destruct (reconsider_loop orphans l).1 as [t|].
        -- destruct IH as (w' & e & Heq & ? & ?). exists w', e. rewrite Heq at 1. by split_and!.
        -- destruct IH as [-> ->]. done.
Qed.

#[local] Instance N_le_total : Total N.le.
Proof. intros x y. lia. Qed.

#[local] Instance N_le_transitive : Transitive N.le.
Proof. intros x y z. lia. Qed.

Lemma sorted_work_set_elem (ws : gset Wtxid) w :
  w ∈ merge_sort N.le (elements ws) ↔ w ∈ ws.
Proof. by rewrite merge_sort_Permutation, elem_of_elements. Qed.

(** What [GetTxToReconsider] establishes; the lemmas on sequences of calls
    build on it. *)
Lemma GetTxToReconsider_post (p : NodeId) (s : TxOrphanage) :
  let r := GetTxToReconsider p s in
  (m_orphans r.2 = m_orphans s ∧ m_orphan_list r.2 = m_orphan_list s
   ∧ m_outpoint_to_orphan_it r.2 = m_outpoint_to_orphan_it s
   ∧ m_next_sweep r.2 = m_next_sweep s)
  ∧ (∀ q, q ≠ p → m_peer_work_set r.2 !! q = m_peer_work_set s !! q)
  ∧ work_set_of p r.2 ⊆ work_set_of p s
  ∧ match r.1 with
    | Some t =>
        ∃ w e, w ∈ work_set_of p s ∧ m_orphans s !! w = Some e ∧ t = tx e
               ∧ (w ∉ work_set_of p r.2)
               ∧ (∀ w', w' ∈ work_set_of p s → is_Some (m_orphans s !! w') →
                        (w ≤ w')%N ∧ (w' ≠ w → w' ∈ work_set_of p r.2))
    | None =>
        (∀ w, w ∈ work_set_of p s → m_orphans s !! w = None)
        ∧ work_set_of p r.2 = ∅
    end.
Proof.
  intros r. subst r. unfold GetTxToReconsider, work_set_of.
  destruct (m_peer_work_set s !! p) as [ws|] eqn:Hws; simpl.
  2:{ rewrite Hws. simpl. split_and!; try done. }
  set (l := merge_sort N.le (elements ws)).
  assert (NoDup l) as Hnd.
  { subst l. rewrite merge_sort_Permutation. apply NoDup_elements. }
  assert (StronglySorted N.le l) as Hsorted.
  { apply StronglySorted_merge_sort; apply _. }
  assert (∀ w, w ∈ l ↔ w ∈ ws) as Hl by apply sorted_work_set_elem.
  destruct (reconsider_loop_spec (m_orphans s) l) as (skipped & Hsk & Hres).
  rewrite lookup_insert_eq. simpl.
  split_and!; try done.
  - intros q Hq. by rewrite lookup_insert_ne.
  - intros w. rewrite elem_of_list_to_set, <- Hl.
    destruct (reconsider_loop (m_orphans s) l).1 as [t|].
    + destruct Hres as (w0 & e & Heq & _). rewrite Heq at 2.
      rewrite elem_of_app, elem_of_cons. tauto.
    + destruct Hres as [_ ->]. by intros ?%elem_of_nil.
  - destruct (reconsider_loop (m_orphans s) l).1 as [t|].
    + destruct Hres as (w & e & Heq & He & ->).
      rewrite Heq in Hnd, Hsorted.
      apply NoDup_app in Hnd as (_ & Hdisj & [Hw _]%NoDup_cons).
      apply StronglySorted_app in Hsorted as (_ & _ & [Hle _]%StronglySorted_cons).
      exists w, e. split_and!; try done.
      * apply Hl. rewrite Heq. set_solver.
      * by rewrite elem_of_list_to_set.
      * intros w' Hw'%Hl [e' He']. rewrite Heq in Hw'.
        apply elem_of_app in Hw' as [Hw'|[->|Hw']%elem_of_cons].
        -- rewrite (Hsk w' Hw') in He'. done.
        -- split; [lia|done].
        -- split; [by apply (Forall_forall (N.le w)) with (x := w') in Hle|].
           intros _. by rewrite elem_of_list_to_set.
    + destruct Hres as [Heq ->]. split.
      * intros w Hw%Hl. apply Hsk. by rewrite <- Heq.
      * done.
Qed.

(** Property X4.  [GetTxToReconsider(peer)] changes nothing but the work set
    of that peer, which only shrinks.  When it returns a transaction, this
    is the orphan of the smallest wtxid among those of the work set that
    are stored; that wtxid leaves the work set, and every other wtxid of
    the work set that is stored stays.  When it returns null, no wtxid of the work set was
    stored, and the work set is empty afterwards. *)
Theorem GetTxToReconsider_pops_first_live (p : NodeId) (s : TxOrphanage) :
  let r := GetTxToReconsider p s in
  (m_orphans r.2 = m_orphans s ∧ m_orphan_list r.2 = m_orphan_list s
   ∧ m_outpoint_to_orphan_it r.2 = m_outpoint_to_orphan_it s
   ∧ m_next_sweep r.2 = m_next_sweep s)
  ∧ (∀ q, q ≠ p → m_peer_work_set r.2 !! q = m_peer_work_set s !! q)
  ∧ work_set_of p r.2 ⊆ work_set_of p s
  ∧ match r.1 with
    | Some t =>
        ∃ w e, w ∈ work_set_of p s ∧ m_orphans s !! w = Some e ∧ t = tx e
               ∧ (w ∉ work_set_of p r.2)
               ∧ (∀ w', w' ∈ work_set_of p s → is_Some (m_orphans s !! w') →
                        (w ≤ w')%N ∧ (w' ≠ w → w' ∈ work_set_of p r.2))
    | None =>
        (∀ w, w ∈ work_set_of p s → m_orphans s !! w = None)
        ∧ work_set_of p r.2 = ∅
    end.
Proof. exact (GetTxToReconsider_post p s). Qed.

(** Property X5.  In an orphanage whose indices cohere, two calls of
    [GetTxToReconsider(peer)] in a row that both return a transaction
    return transactions with different wtxids. *)
Theorem GetTxToReconsider_no_repeat (p : NodeId) (s : TxOrphanage) (t1 t2 : CTransaction) :
  Inv s →
  (GetTxToReconsider p s).1 = Some t1 →
  (GetTxToReconsider p (GetTxToReconsider p s).2).1 = Some t2 →
  GetWitnessHash t1 ≠ GetWitnessHash t2.
Proof.
  intros HI H1 H2.
  pose proof (GetTxToReconsider_post p s) as (Hframe & _ & _ & Hr1).
  pose proof (GetTxToReconsider_post p (GetTxToReconsider p s).2)
    as (_ & _ & _ & Hr2).
  cbv zeta in *. rewrite H1 in Hr1. rewrite H2 in Hr2.
  destruct Hframe as (Ho & _).
  destruct Hr1 as (w1 & e1 & _ & He1 & -> & Hout & _).
  destruct Hr2 as (w2 & e2 & Hin & He2 & -> & _).
  rewrite Ho in He2.
  rewrite (inv_key _ HI _ _ He1), (inv_key _ HI _ _ He2). intros <-. done.
Qed.

Lemma HaveTxToReconsider_true p s :
  HaveTxToReconsider p s = true ↔ work_set_of p s ≠ ∅.
Proof.
  unfold HaveTxToReconsider, work_set_of.
  destruct (m_peer_work_set s !! p) as [ws|]; simpl; [apply bool_decide_eq_true|].
  split; [done|]. by intros [].
Qed.

(** Property X6.  When [HaveTxToReconsider(peer)] is [false],
    [GetTxToReconsider(peer)] returns null; when [GetTxToReconsider]
    returns a transaction, [HaveTxToReconsider] was [true]; after
    [GetTxToReconsider] returned null, [HaveTxToReconsider] is [false].
    [HaveTxToReconsider] can be [true] while [GetTxToReconsider] returns
    null: then every wtxid of the work set has left the orphanage. *)
Theorem HaveTxToReconsider_vs_Get (p : NodeId) (s : TxOrphanage) :
  let r := GetTxToReconsider p s in
  (HaveTxToReconsider p s = false → r.1 = None)
  ∧ (is_Some r.1 → HaveTxToReconsider p s = true)
  ∧ (r.1 = None → HaveTxToReconsider p r.2 = false)
  ∧ (HaveTxToReconsider p s = true → r.1 = None →
       ∀ w, w ∈ work_set_of p s → HaveTx w s = false).
Proof.
  intros r. pose proof (GetTxToReconsider_post p s) as (_ & _ & Hsub & Hr).
  cbv zeta in Hr. fold r in Hr, Hsub.
  assert (is_Some r.1 → HaveTxToReconsider p s = true) as Hsome.
  { intros [t Ht]. rewrite Ht in Hr. destruct Hr as (w & _ & Hw & _).
    apply HaveTxToReconsider_true. set_solver. }
  split_and!; try done.
  - intros Hf. destruct r.1 as [t|] eqn:Ht; [|done].
    rewrite Hsome in Hf by eauto. done.
  - intros Hn. rewrite Hn in Hr. destruct Hr as [_ Hemp].
    destruct (HaveTxToReconsider p r.2) eqn:Hh; [|done].
    apply HaveTxToReconsider_true in Hh. done.
  - intros _ Hn w Hw. rewrite Hn in Hr. destruct Hr as [Hdead _].
    unfold HaveTx. rewrite (Hdead w Hw). apply bool_decide_eq_false. by intros [].
Qed.

Section Rendezvous.
Context `{IteratorOrder}.

(** Property X7.  In an orphanage whose indices cohere and whose orphans all
    have an announcer: after [AddChildrenToWorkSet(parent)], a peer that
    announced a stored orphan spending an output of [parent] has work
    ([HaveTxToReconsider] is [true]), and [GetTxToReconsider] hands it a
    stored orphan whose wtxid is at most the wtxid of that child. *)
Theorem children_are_reconsidered (parent : CTransaction) (p : NodeId) (w : Wtxid)
    (e : OrphanTx) (s s' : TxOrphanage) :
  Inv s → announced s →
  m_orphans s !! w = Some e → p ∈ announcers e → spends_output_of parent e →
  AddChildrenToWorkSet parent s = Some s' →
  HaveTxToReconsider p s' = true
  ∧ ∃ w0 e0, (GetTxToReconsider p s').1 = Some (tx e0)
             ∧ m_orphans s !! w0 = Some e0 ∧ (w0 ≤ w)%N.
Proof.
  intros HI Han He Hp Hspend Hadd.
  destruct (AddChildrenToWorkSet_post parent s HI Han)
    as (s1 & Hrun & Ho & _ & _ & _ & Hws).
  assert (s1 = s') as -> by congruence.
  assert (w ∈ work_set_of p s') as Hw by (apply Hws; right; eauto).
  split; [apply HaveTxToReconsider_true; set_solver|].
  pose proof (GetTxToReconsider_post p s') as (_ & _ & _ & Hr).
  cbv zeta in Hr. destruct (GetTxToReconsider p s').1 as [t|].
  - destruct Hr as (w0 & e0 & _ & He0 & -> & _ & Hleast).
    exists w0, e0. rewrite Ho in He0. split_and!; [done|done|].
    apply Hleast; [done|]. rewrite Ho. eauto.
  - destruct Hr as [Hdead _]. specialize (Hdead w Hw). rewrite Ho in Hdead. congruence.
Qed.

End Rendezvous.

(** ** [EraseTx], [AddTx] and the lookups *)

Lemma HaveTx_true w s : HaveTx w s = true ↔ is_Some (m_orphans s !! w).
Proof. apply bool_decide_eq_true. Qed.

Lemma HaveTx_false w s : HaveTx w s = false ↔ m_orphans s !! w = None.
Proof. unfold HaveTx. rewrite bool_decide_eq_false, eq_None_not_Some. done. Qed.

Lemma payload_lookup_None (m : gmap Wtxid OrphanTx) w :
  (payload <$> m) !! w = None ↔ m !! w = None.
Proof. rewrite lookup_fmap. by destruct (m !! w). Qed.

(** What [EraseTx] establishes; the lemmas on sequences of calls
    build on it. *)
Lemma EraseTx_post (w : Wtxid) (s : TxOrphanage) :
  Inv s →
  ∃ n s', EraseTx w s = Some (n, s')
    ∧ Inv s'
    ∧ n = (if HaveTx w s then 1 else 0)
    ∧ HaveTx w s' = false
    ∧ payload <$> m_orphans s' = delete w (payload <$> m_orphans s)
    ∧ m_peer_work_set s' = m_peer_work_set s
    ∧ m_next_sweep s' = m_next_sweep s
    ∧ (announced s → announced s')
    ∧ EraseTx w s' = Some (0, s').
Proof.
  intros HI. destruct (m_orphans s !! w) as [e|] eqn:He.
  - destruct (EraseTx_present w s e HI He) as (s' & Hrun & HI' & Hpay & Hws & Hns).
    assert (m_orphans s' !! w = None) as Hgone.
    { apply payload_lookup_None. rewrite Hpay. apply lookup_delete_eq. }
    exists 1, s'. split_and!; try done.
    + unfold HaveTx. rewrite He. by rewrite bool_decide_eq_true_2 by eauto.
    + by apply HaveTx_false.
    + apply announced_payload_subseteq. rewrite Hpay. apply delete_subseteq.
    + by apply EraseTx_absent.
  - exists 0, s. rewrite EraseTx_absent by done. split_and!; try done.
    + unfold HaveTx. rewrite He. by rewrite bool_decide_eq_false_2 by (by intros []).
    + by apply HaveTx_false.
    + symmetry. apply delete_id. by apply payload_lookup_None.
Qed.

(** Property X8.  In an orphanage whose indices cohere, [EraseTx(wtxid)] runs
    to its end and returns 1 when the orphan was stored and 0 when not; the
    orphan is not stored afterwards; list positions apart, every other
    orphan is kept as it was; the work sets (also those that hold the
    erased wtxid) and the sweep time are untouched; the indices still
    cohere; and a second call returns 0 and changes nothing. *)
Theorem EraseTx_erases_once (w : Wtxid) (s : TxOrphanage) :
  Inv s →
  ∃ n s', EraseTx w s = Some (n, s')
    ∧ Inv s'
    ∧ n = (if HaveTx w s then 1 else 0)
    ∧ HaveTx w s' = false
    ∧ payload <$> m_orphans s' = delete w (payload <$> m_orphans s)
    ∧ m_peer_work_set s' = m_peer_work_set s
    ∧ m_next_sweep s' = m_next_sweep s
    ∧ (announced s → announced s')
    ∧ EraseTx w s' = Some (0, s').
Proof. exact (EraseTx_post w s). Qed.

Lemma AddTx_new maxWeight ptx peer parents nNow s :
  m_orphans s !! GetWitnessHash ptx = None →
  GetTransactionWeight ptx ≤ maxWeight →
  AddTx maxWeight ptx peer parents nNow s
  = (true,
     mkOrphanage
       (<[GetWitnessHash ptx :=
            mkOrphanTx ptx {[peer]} (nNow + ORPHAN_TX_EXPIRE_TIME)
                       (length (m_orphan_list s)) parents]> (m_orphans s))
       (m_orphan_list s ++ [GetWitnessHash ptx])
       (foldl (index_prevout (GetWitnessHash ptx)) (m_outpoint_to_orphan_it s) (vin ptx))
       (m_peer_work_set s) (m_next_sweep s)).
Proof. intros Hnew Hw. unfold AddTx. rewrite Hnew. by rewrite decide_False by lia. Qed.

Lemma AddTx_known maxWeight ptx peer parents nNow s e :
  m_orphans s !! GetWitnessHash ptx = Some e →
  AddTx maxWeight ptx peer parents nNow s
  = (false,
     with_orphans
       (<[GetWitnessHash ptx := set_announcers (announcers e ∪ {[peer]}) e]> (m_orphans s))
       s).
Proof. intros He. unfold AddTx. by rewrite He. Qed.

(** Property X9.  For a transaction that is not stored and is within the
    weight limit, [AddTx] returns [true] and stores it with the announcing
    peer and the parents given.  A second [AddTx] of the same transaction
    from another peer returns [false] and only adds that peer to the
    announcers: the expiry time, the parents, the position in the orphan
    list and the outpoint index stay those of the first call, and the
    orphanage has grown by one entry. *)
Theorem AddTx_first_announcement_counts (maxWeight : Z) (ptx : CTransaction)
    (p1 p2 : NodeId) (parents1 parents2 : list Txid) (now1 now2 : Z) (s : TxOrphanage) :
  m_orphans s !! GetWitnessHash ptx = None →
  GetTransactionWeight ptx ≤ maxWeight →
  let w := GetWitnessHash ptx in
  let r1 := AddTx maxWeight ptx p1 parents1 now1 s in
  let r2 := AddTx maxWeight ptx p2 parents2 now2 r1.2 in
  r1.1 = true ∧ r2.1 = false
  ∧ HaveTx w r1.2 = true
  ∧ (∀ q, HaveTxAndPeer w q r1.2 = bool_decide (q = p1))
  ∧ GetParentTxids w r1.2 = Some parents1
  ∧ m_orphans r2.2 !! w
    = Some (mkOrphanTx ptx {[p1; p2]} (now1 + ORPHAN_TX_EXPIRE_TIME)
                       (length (m_orphan_list s)) parents1)
  ∧ (∀ q, HaveTxAndPeer w q r2.2 = bool_decide (q = p1 ∨ q = p2))
  ∧ GetParentTxids w r2.2 = Some parents1
  ∧ size (m_orphans r2.2) = S (size (m_orphans s))
  ∧ m_orphan_list r2.2 = m_orphan_list s ++ [w]
  ∧ m_outpoint_to_orphan_it r2.2 = m_outpoint_to_orphan_it r1.2.
Proof.
  intros Hnew Hw w r1 r2. subst r2 r1 w.
  rewrite (AddTx_new _ _ _ _ _ _ Hnew Hw). cbn [fst snd].
  erewrite AddTx_known by apply lookup_insert_eq. cbn [fst snd].
  unfold HaveTx, HaveTxAndPeer, GetParentTxids. simpl.
  rewrite !lookup_insert_eq. simpl. split_and!; try done.
  - intros q. apply bool_decide_ext. set_solver.
  - intros q. apply bool_decide_ext. set_solver.
  - rewrite insert_insert_eq, map_size_insert, Hnew. done.
Qed.

(** ** [LimitOrphans] *)

Lemma evict_loop_exact `{FastRandomContext R} fuel max_orphans : ∀ (rng : R) erased s,
  Inv s → (size (m_orphans s) ≤ fuel + max_orphans)%nat →
  ∃ evicted s' rng',
    evict_loop fuel max_orphans rng erased s = Some (erased ++ evicted, s', rng')
    ∧ Inv s'
    ∧ NoDup evicted
    ∧ (∀ k, payload <$> m_orphans s' !! k
            = if bool_decide (k ∈ evicted) then None else payload <$> m_orphans s !! k)
    ∧ (∀ k, k ∈ evicted → is_Some (m_orphans s !! k))
    ∧ (size (m_orphans s') ≤ max_orphans)%nat
    ∧ m_peer_work_set s' = m_peer_work_set s
    ∧ m_next_sweep s' = m_next_sweep s
    ∧ ((size (m_orphans s) ≤ max_orphans)%nat → evicted = [] ∧ s' = s ∧ rng' = rng).
Proof.
  induction fuel as [|fuel IH]; intros rng erased s HI Hfuel.
  - exists [], s, rng. cbn [evict_loop]. rewrite decide_False by lia.
    rewrite app_nil_r. split_and!; try done; try (by intros ? ?%elem_of_nil); try lia; try apply NoDup_nil_2.
  - cbn [evict_loop]. destruct (decide (max_orphans < size (m_orphans s))%nat) as [Hbig|Hok].
    + pose proof (coh_size _ (inv_coherent _ HI)) as Hsz.
      destruct (lookup_lt_is_Some_2 (m_orphan_list s)
                  (randrange rng (length (m_orphan_list s))).1) as [it Hit].
      { apply randrange_lt. lia. }
      rewrite Hit. simpl.
      destruct (inv_list _ HI _ _ Hit) as (e & He & _).
      rewrite He. simpl. rewrite (inv_key _ HI _ _ He).
      destruct (EraseTx_present it s e HI He) as (s1 & -> & HI1 & Hpay & Hws & Hns).
      simpl.
      assert (size (m_orphans s1) = pred (size (m_orphans s))) as Hsz1.
      { rewrite <- (map_size_fmap payload (m_orphans s1)), Hpay, map_size_delete.
        by rewrite lookup_fmap, He, map_size_fmap. }
      assert (∀ k, payload <$> m_orphans s1 !! k
                   = if decide (k = it) then None else payload <$> m_orphans s !! k) as Hlk1.
      { intros k. rewrite <- !lookup_fmap, Hpay. case_decide as Hk.
        - subst. apply lookup_delete_eq.
        - by apply lookup_delete_ne. }
      destruct (IH (randrange rng (length (m_orphan_list s))).2 (erased ++ [it]) s1 HI1)
        as (evicted & s' & rng' & -> & HI' & Hnd & Hlk & Hlive & Hle & Hws' & Hns' & _);
        [lia|].
      exists (it :: evicted), s', rng'. rewrite <- app_assoc.
      split_and!; try done; try congruence; [| | |lia].
      * apply NoDup_cons. split; [|done]. intros Hin.
        destruct (Hlive it Hin) as [? Hx]. specialize (Hlk1 it).
        rewrite decide_True, Hx in Hlk1 by done. done.
      * intros k. rewrite Hlk, Hlk1. destruct (decide (k = it)) as [->|Hk].
        -- rewrite (bool_decide_eq_true_2 (it ∈ it :: evicted)) by left. by case_bool_decide.
        -- apply (f_equal (λ b : bool, if b then None else payload <$> m_orphans s !! k)).
           apply bool_decide_ext. rewrite elem_of_cons. naive_solver.
      * intros k [->|Hk]%elem_of_cons; [eauto|].
        destruct (Hlive k Hk) as [? Hx]. specialize (Hlk1 k). rewrite Hx in Hlk1.
        case_decide; [done|]. destruct (m_orphans s !! k); [eauto|done].
    + exists [], s, rng. rewrite app_nil_r.
      split_and!; try done; try (by intros ? ?%elem_of_nil); try lia; try apply NoDup_nil_2.
Qed.

Lemma is_expired_live nNow m k : Is_true (is_expired nNow m k) → is_Some (m !! k).
Proof. unfold is_expired. destruct (m !! k); [eauto|done]. Qed.

Lemma size_after_removal (m m' : gmap Wtxid OrphanTx) (erased : list Wtxid) :
  NoDup erased →
  (∀ k, k ∈ erased → is_Some (m !! k)) →
  (∀ k, payload <$> m' !! k = if bool_decide (k ∈ erased) then None else payload <$> m !! k) →
  (size m' + length erased = size m)%nat.
Proof.
  intros Hnd Hlive Hlk.
  assert (dom m' = dom m ∖ list_to_set erased) as Hdom.
  { apply set_eq. intros k. rewrite elem_of_difference, !elem_of_dom, elem_of_list_to_set.
    specialize (Hlk k). case_bool_decide as Hk.
    - destruct (m' !! k); [done|]. split; [by intros []|tauto].
    - destruct (m' !! k), (m !! k); simpl in Hlk; try done; split; eauto.
      by intros [[] _]. }
  rewrite <- !size_dom, Hdom.
  assert (list_to_set erased ⊆ dom m) as Hsub.
  { intros k. rewrite elem_of_list_to_set, elem_of_dom. apply Hlive. }
  pose proof (size_union_alt (list_to_set erased) (dom m)) as Hu.
  replace (list_to_set erased ∪ dom m) with (dom m) in Hu by set_solver.
  rewrite size_list_to_set in Hu by done. lia.
Qed.

(** What [LimitOrphans] establishes; the lemmas on sequences of calls
    build on it. *)
Lemma LimitOrphans_post `{FastRandomContext R} (max_orphans : nat)
    (rng : R) (nNow : Z) (s : TxOrphanage) :
  Inv s →
  ∃ erased s' rng',
    LimitOrphans max_orphans rng nNow s = Some (erased, s', rng')
    ∧ Inv s'
    ∧ NoDup erased
    ∧ (∀ w, w ∈ erased → HaveTx w s = true)
    ∧ (∀ w, payload <$> m_orphans s' !! w
            = if bool_decide (w ∈ erased) then None else payload <$> m_orphans s !! w)
    ∧ (size (m_orphans s') + length erased = size (m_orphans s))%nat
    ∧ (size (m_orphans s') ≤ max_orphans)%nat
    ∧ m_peer_work_set s' = m_peer_work_set s
    ∧ (announced s → announced s')
    ∧ (nNow < m_next_sweep s → (size (m_orphans s) ≤ max_orphans)%nat →
         erased = [] ∧ s' = s ∧ rng' = rng).
Proof.
  intros HI. unfold LimitOrphans.
  assert (∃ swept s1,
            expiry_sweep nNow s = Some (swept, s1) ∧ Inv s1 ∧ NoDup swept
            ∧ (∀ k, k ∈ swept → is_Some (m_orphans s !! k))
            ∧ (∀ k, payload <$> m_orphans s1 !! k
                    = if bool_decide (k ∈ swept) then None else payload <$> m_orphans s !! k)
            ∧ m_peer_work_set s1 = m_peer_work_set s
            ∧ (nNow < m_next_sweep s → swept = [] ∧ s1 = s))
    as (swept & s1 & -> & HI1 & Hnd1 & Hlive1 & Hlk1 & Hws1 & Hnot).
  { destruct (decide (m_next_sweep s ≤ nNow)) as [Hdue|Hnot].
    - destruct (expiry_sweep_due nNow s HI Hdue)
        as (nMin & s1 & -> & HI1 & Hpay & Hws & _).
      eexists _, s1. split_and!; try done.
      + apply NoDup_filter, NoDup_orphan_keys.
      + intros k [Hk _]%list_elem_of_filter. by apply (is_expired_live nNow).
      + intros k. rewrite <- lookup_fmap, Hpay, lookup_fmap. unfold surviving.
        rewrite map_lookup_filter. unfold expired_keys.
        destruct (m_orphans s !! k) as [e|] eqn:He; simpl.
        * destruct (decide (nTimeExpire e ≤ nNow)) as [Hexp|Hexp].
          -- rewrite option_guard_False by lia. rewrite bool_decide_eq_true_2; [done|].
             apply list_elem_of_filter. split.
             ++ unfold is_expired. rewrite He. by apply bool_decide_pack.
             ++ apply elem_of_orphan_keys. eauto.
          -- rewrite option_guard_True by lia. rewrite bool_decide_eq_false_2; [done|].
             intros [Hk _]%list_elem_of_filter. unfold is_expired in Hk. rewrite He in Hk.
             by apply bool_decide_unpack in Hk.
        * by case_bool_decide.
      + intros ?. lia.
    - rewrite expiry_sweep_not_due by lia. exists [], s.
      split_and!; try done; try (by intros ? ?%elem_of_nil); try apply NoDup_nil_2. }
  simpl.
  destruct (evict_loop_exact (size (m_orphans s1)) max_orphans rng swept s1 HI1)
    as (evicted & s' & rng' & -> & HI' & Hnd2 & Hlk2 & Hlive2 & Hle & Hws2 & _ & Hnone);
    [lia|].
  assert (∀ k, k ∈ evicted → (k ∉ swept) ∧ is_Some (m_orphans s !! k)) as Hlive2'.
  { intros k Hk. destruct (Hlive2 k Hk) as [e1 He1]. specialize (Hlk1 k).
    rewrite He1 in Hlk1. case_bool_decide; [done|]. split; [done|].
    destruct (m_orphans s !! k); [eauto|done]. }
  assert (∀ w, payload <$> m_orphans s' !! w
               = if bool_decide (w ∈ swept ++ evicted) then None
                 else payload <$> m_orphans s !! w) as Hlk.
  { intros w. rewrite Hlk2, Hlk1.
    destruct (decide (w ∈ evicted)) as [Hw|Hw].
    - rewrite (bool_decide_eq_true_2 (w ∈ evicted)) by done.
      rewrite bool_decide_eq_true_2; [done|]. apply elem_of_app. by right.
    - rewrite (bool_decide_eq_false_2 (w ∈ evicted)) by done.
      apply (f_equal (λ b : bool, if b then None else payload <$> m_orphans s !! w)).
      apply bool_decide_ext. rewrite elem_of_app. tauto. }
  assert (NoDup (swept ++ evicted)) as Hnd.
  { apply NoDup_app. split_and!; [done| |done]. intros k Hk Hk'.
    by destruct (Hlive2' k Hk'). }
  assert (∀ w, w ∈ swept ++ evicted → is_Some (m_orphans s !! w)) as Hlive.
  { intros w [?|?]%elem_of_app; [by apply Hlive1|by apply Hlive2']. }
  exists (swept ++ evicted), s', rng'. split_and!; try done; try congruence.
  - intros w Hw. apply HaveTx_true. by apply Hlive.
  - by apply size_after_removal.
  - apply announced_from. intros w e' He'. specialize (Hlk w). rewrite He' in Hlk.
    case_bool_decide; [done|]. destruct (m_orphans s !! w) as [e|]; [|done].
    exists e. split; [done|]. symmetry. apply payload_announcers. simpl in Hlk. congruence.
  - intros Hlt Hsz. destruct (Hnot Hlt) as [-> ->].
    destruct (Hnone Hsz) as (-> & -> & ->). done.
Qed.

(** Property X10.  In an orphanage whose indices cohere, [LimitOrphans] runs to
    its end, and the vector it returns holds what it erased: no wtxid
    twice, only orphans that were stored, an orphan is stored afterwards
    exactly when it was stored and is not in the vector (unchanged, list
    positions apart), and the number of orphans drops by the length of the
    vector, to at most [max_orphans].  The work sets are untouched.  When
    no sweep is due and the orphanage is within the limit, nothing changes
    and the random generator is not used. *)
Theorem LimitOrphans_returns_what_it_erased `{FastRandomContext R} (max_orphans : nat)
    (rng : R) (nNow : Z) (s : TxOrphanage) :
  Inv s →
  ∃ erased s' rng',
    LimitOrphans max_orphans rng nNow s = Some (erased, s', rng')
    ∧ Inv s'
    ∧ NoDup erased
    ∧ (∀ w, w ∈ erased → HaveTx w s = true)
    ∧ (∀ w, payload <$> m_orphans s' !! w
            = if bool_decide (w ∈ erased) then None else payload <$> m_orphans s !! w)
    ∧ (size (m_orphans s') + length erased = size (m_orphans s))%nat
    ∧ (size (m_orphans s') ≤ max_orphans)%nat
    ∧ m_peer_work_set s' = m_peer_work_set s
    ∧ (announced s → announced s')
    ∧ (nNow < m_next_sweep s → (size (m_orphans s) ≤ max_orphans)%nat →
         erased = [] ∧ s' = s ∧ rng' = rng).
Proof. exact (LimitOrphans_post max_orphans rng nNow s). Qed.

(** ** [EraseForBlock] and [EraseOrphanOfPeer] once more *)

Section AllOperations.
Context `{IteratorOrder}.

(** What [EraseForBlock] establishes; the lemmas on sequences of calls
    build on it. *)
Lemma EraseForBlock_post (block : CBlock) (s : TxOrphanage) :
  Inv s →
  ∃ vOrphanErase s',
    EraseForBlock block s = Some (vOrphanErase, s')
    ∧ Inv s'
    ∧ (∀ w, w ∈ vOrphanErase
            ↔ ∃ e, m_orphans s !! w = Some e ∧ spent_inputs e block ≠ 0%nat)
    ∧ (∀ w, payload <$> m_orphans s' !! w
            = if bool_decide (w ∈ vOrphanErase) then None else payload <$> m_orphans s !! w)
    ∧ m_peer_work_set s' = m_peer_work_set s
    ∧ m_next_sweep s' = m_next_sweep s
    ∧ (announced s → announced s')
    ∧ (vOrphanErase = [] → s' = s).
Proof.
  intros HI. unfold EraseForBlock.
  destruct (gather_for_block_spec s block HI) as (l & -> & Hocc). simpl.
  destruct (erase_all_spec l s HI) as (n & s' & Hrun & HI' & Hlk & Hws & Hns).
  rewrite Hrun. simpl. exists l, s'.
  assert (∀ w, payload <$> m_orphans s' !! w
               = if bool_decide (w ∈ l) then None else payload <$> m_orphans s !! w) as Hlk'.
  { intros w. rewrite Hlk. by destruct (decide (w ∈ l));
      [rewrite bool_decide_eq_true_2|rewrite bool_decide_eq_false_2]. }
  split_and!; try done.
  - intros w. rewrite occurrences_pos, Hocc.
    destruct (m_orphans s !! w) as [e|]; [|split; [lia|by intros (? & ? & _)]].
    split; [intros ?; exists e; split; [done|lia]|]. intros (? & [= <-] & ?). lia.
  - apply announced_from. intros w e' He'. specialize (Hlk' w). rewrite He' in Hlk'.
    case_bool_decide; [done|]. destruct (m_orphans s !! w) as [e|]; [|done].
    exists e. split; [done|]. symmetry. apply payload_announcers. simpl in Hlk'. congruence.
  - intros ->. simpl in Hrun. congruence.
Qed.

(** Property X11.  In an orphanage whose indices cohere, [EraseForBlock(block)]
    runs to its end and erases exactly the stored orphans that have an
    input spent by a transaction of the block; every other orphan is kept
    as it was (list positions apart); the work sets and the sweep time are
    untouched; the indices still cohere; and when no orphan conflicts with
    the block the orphanage is unchanged. *)
Theorem EraseForBlock_erases_only_spenders (block : CBlock) (s : TxOrphanage) :
  Inv s →
  ∃ vOrphanErase s',
    EraseForBlock block s = Some (vOrphanErase, s')
    ∧ Inv s'
    ∧ (∀ w, w ∈ vOrphanErase
            ↔ ∃ e, m_orphans s !! w = Some e ∧ spent_inputs e block ≠ 0%nat)
    ∧ (∀ w, payload <$> m_orphans s' !! w
            = if bool_decide (w ∈ vOrphanErase) then None else payload <$> m_orphans s !! w)
    ∧ m_peer_work_set s' = m_peer_work_set s
    ∧ m_next_sweep s' = m_next_sweep s
    ∧ (announced s → announced s')
    ∧ (vOrphanErase = [] → s' = s).
Proof. exact (EraseForBlock_post block s). Qed.

Lemma EraseOrphanOfPeer_Inv w p s :
  Inv s →
  ∃ s', EraseOrphanOfPeer w p s = Some s' ∧ Inv s' ∧ (announced s → announced s').
Proof.
  intros HI. unfold EraseOrphanOfPeer.
  destruct (m_orphans s !! w) as [e|] eqn:He; [|eauto].
  set (s1 := match m_peer_work_set s !! p with
             | Some ws => with_work_set (<[p:=ws ∖ {[w]}]> (m_peer_work_set s)) s
             | None => s
             end).
  assert (Inv s1 ∧ m_orphans s1 = m_orphans s) as [HI1 Ho].
  { subst s1. destruct (m_peer_work_set s !! p); [|done].
    split; [by apply Inv_with_work_set|done]. }
  assert (announced s → announced s1) as Han1.
  { intros Han w' e'. rewrite Ho. apply Han. }
  clearbody s1.
  assert (m_orphans s1 !! w = Some e) as He1 by (by rewrite Ho).
  destruct (decide (p ∈ announcers e)) as [Hp|Hp]; [|eauto].
  destruct (decide (size (announcers e) = 1%nat)) as [Hone|Hmore].
  - destruct (EraseTx_present w s1 e HI1 He1) as (s' & -> & HI' & Hpay & _).
    simpl. exists s'. split_and!; [done|done|]. intros Han.
    apply (announced_payload_subseteq s1); [|by apply Han1].
    rewrite Hpay. apply delete_subseteq.
  - eexists. split; [done|]. split; [by apply Inv_set_announcers|].
    intros Han. apply announced_set_announcers; [by apply Han1|].
    change (announcers (set_announcers (announcers e ∖ {[p]}) e) ≠ ∅).
    apply (without_peer_announced p e); [by apply (Han w)|].
    unfold without_peer. rewrite decide_True by done. by rewrite decide_False.
Qed.

(** ** Every operation keeps the invariant *)

Lemma apply_op_Inv `{FastRandomContext R} maxWeight (op : Op R) s :
  Inv s → announced s →
  ∃ s', apply_op maxWeight op s = Some s' ∧ Inv s' ∧ announced s'.
Proof.
  intros HI Han. destruct op; simpl.
  - eexists. split; [done|]. split; [by apply AddTx_Inv|by apply announced_AddTx].
  - eexists. split; [done|].
    split; [by apply AddAnnouncer_Inv|by apply announced_AddAnnouncer].
  - destruct (EraseTx_post wtxid s HI) as (n & s' & -> & HI' & _ & _ & _ & _ & _ & Han' & _).
    simpl. eauto.
  - destruct (EraseForPeer_post peer s HI) as (s' & -> & HI' & _ & _ & _ & _ & Han' & _).
    eauto.
  - destruct (LimitOrphans_post max_orphans rng nNow s HI)
      as (erased & s' & rng' & -> & HI' & _ & _ & _ & _ & _ & _ & Han' & _).
    simpl. eauto.
  - destruct (AddChildrenToWorkSet_post parent s HI Han)
      as (s' & -> & Ho & Hl & Hb & Hn & _).
    exists s'. split; [done|]. split.
    + destruct HI as [[Hsz Hpos Hout] Hlist Hkey Hne].
      split; [split|..]; rewrite ?Ho, ?Hl, ?Hb; done.
    + intros w e. rewrite Ho. apply Han.
  - pose proof (GetTxToReconsider_post peer s) as ((Ho & Hl & Hb & Hn) & _).
    cbv zeta in *. eexists. split; [done|]. split.
    + destruct HI as [[Hsz Hpos Hout] Hlist Hkey Hne].
      split; [split|..]; rewrite ?Ho, ?Hl, ?Hb; done.
    + intros w e. rewrite Ho. apply Han.
  - destruct (EraseForBlock_post block s HI)
      as (l & s' & -> & HI' & _ & _ & _ & _ & Han' & _).
    simpl. eauto.
  - destruct (EraseOrphanOfPeer_Inv wtxid peer s HI) as (s' & -> & HI' & Han'). eauto.
Qed.

(** Property X12.  From an empty orphanage, every sequence of calls of [AddTx],
    [AddAnnouncer], [EraseTx], [EraseForPeer], [LimitOrphans],
    [AddChildrenToWorkSet], [GetTxToReconsider], [EraseForBlock] and
    [EraseOrphanOfPeer] runs to its end (no call meets a dangling handle or
    a position out of range) and reaches an orphanage whose indices cohere,
    where every orphan has an announcer and is stored under the witness
    hash of its transaction, and where [m_orphan_list] holds each stored
    orphan once and nothing else. *)
Theorem every_operation_keeps_the_indices `{FastRandomContext R} (maxWeight : Z)
    (next_sweep : Z) (ops : list (Op R)) :
  ∃ s, apply_ops maxWeight ops (empty_orphanage next_sweep) = Some s
       ∧ coherent s
       ∧ (∀ w e, m_orphans s !! w = Some e → announcers e ≠ ∅ ∧ GetWitnessHash (tx e) = w)
       ∧ NoDup (m_orphan_list s)
       ∧ (∀ w, w ∈ m_orphan_list s ↔ HaveTx w s = true).
Proof.
  assert (∀ ops s, Inv s → announced s →
            ∃ s', apply_ops maxWeight ops s = Some s' ∧ Inv s' ∧ announced s') as Hrun.
  { clear ops. induction ops as [|op ops IH]; intros s HI Han; simpl; [eauto|].
    destruct (apply_op_Inv maxWeight op s HI Han) as (s1 & -> & HI1 & Han1). simpl.
    by apply IH. }
  destruct (Hrun ops (empty_orphanage next_sweep)) as (s & Hs & HI & Han).
  { apply Inv_empty. }
  { apply announced_empty. }
  exists s. split; [done|]. split; [apply HI|]. split_and!.
  - intros w e He. split; [by apply (Han w)|by apply (inv_key _ HI)].
  - apply NoDup_alt. intros i j w Hi Hj.
    destruct (inv_list _ HI _ _ Hi) as (e & He & <-).
    destruct (inv_list _ HI _ _ Hj) as (e' & He' & <-). congruence.
  - intros w. rewrite HaveTx_true, list_elem_of_lookup. split.
    + intros [i Hi]. destruct (inv_list _ HI _ _ Hi) as (e & He & _). eauto.
    + intros [e He]. exists (list_pos e). by apply (coh_pos _ (inv_coherent _ HI)).
Qed.

End AllOperations.

(** ** [GetChildrenFromSamePeer] *)

(** [std::unique] on a sorted vector. *)
Section Unique.
Context {A : Type} `{EqDecision A} (R : relation A).

Lemma unique_cons_cons (x y : A) l :
  unique (x :: y :: l) = if decide (x = y) then unique (y :: l) else x :: unique (y :: l).
Proof. done. Qed.

Lemma elem_of_unique (l : list A) x : x ∈ unique l ↔ x ∈ l.
Proof.
  induction l as [|a l IH]; [done|]. destruct l as [|b l]; [done|].
  rewrite unique_cons_cons. case_decide as Hab.
  - subst. rewrite IH. rewrite !elem_of_cons. tauto.
  - rewrite elem_of_cons, IH. rewrite !elem_of_cons. tauto.
Qed.

Lemma StronglySorted_unique (l : list A) :
  StronglySorted R l → StronglySorted R (unique l).
Proof.
  induction l as [|a l IH]; [done|]. destruct l as [|b l]; [done|].
  intros [Hall Hs]%StronglySorted_cons. rewrite unique_cons_cons. case_decide as Hab.
  - by apply IH.
  - apply StronglySorted_cons. split; [|by apply IH].
    apply Forall_forall. intros x Hx. rewrite elem_of_unique in Hx.
    rewrite Forall_forall in Hall. by apply Hall.
Qed.

Lemma NoDup_unique (l : list A) :
  (∀ x y, R x y → R y x → x = y) →
  StronglySorted R l → NoDup (unique l).
Proof.
  intros Hanti. induction l as [|a l IH]; [intros _; constructor|].
  destruct l as [|b l]; [intros _; apply NoDup_singleton|].
  intros [Hall Hs]%StronglySorted_cons. rewrite unique_cons_cons. case_decide as Hab.
  - by apply IH.
  - apply NoDup_cons. split; [|by apply IH].
    intros Ha. rewrite elem_of_unique in Ha. apply Hab.
    apply elem_of_cons in Ha as [->|Ha]; [done|].
    apply StronglySorted_cons in Hs as [Hb _].
    rewrite Forall_forall in Hall, Hb.
    apply Hanti; [apply Hall; by left|by apply Hb].
Qed.

End Unique.

#[local] Instance OrphanTx_inhabited : Inhabited OrphanTx :=
  populate (mkOrphanTx (mkTx 0 0 [] 0 0) ∅ 0 0 []).

Section Children.
Context `{IteratorOrder} `{NodeAddress}.

Lemma not_after_iff a b :
  not_after a b ↔ b.1 < a.1 ∨ (a.1 = b.1 ∧ (address_of a.2 ≤ address_of b.2)%N).
Proof.
  unfold not_after, sorts_before. case_decide as Heq.
  - rewrite negb_True, bool_decide_spec. split; [intros; right; split; [done|lia]|].
    intros [?|[_ ?]]; lia.
  - rewrite negb_True, bool_decide_spec. split; [intros; left; lia|].
    intros [?|[? _]]; [lia|congruence].
Qed.

#[local] Instance not_after_total : Total not_after.
Proof. intros a b. rewrite !not_after_iff. lia. Qed.

#[local] Instance not_after_transitive : Transitive not_after.
Proof. intros a b c. rewrite !not_after_iff. lia. Qed.

Lemma not_after_antisym a b : not_after a b → not_after b a → a = b.
Proof.
  rewrite !not_after_iff. intros Hab Hba. destruct a as [x w], b as [y v]. simpl in *.
  assert (x = y) as -> by lia. f_equal. apply address_of_inj. lia.
Qed.

Lemma children_of_outpoint_spec s nodeid q :
  Inv s →
  ∃ l, children_of_outpoint s nodeid q = Some l ∧ ∀ it, it ∈ l ↔ child_at s nodeid q it.
Proof.
  intros HI. pose proof (coh_outpoint _ (inv_coherent _ HI) q) as Hout.
  unfold children_of_outpoint.
  destruct (m_outpoint_to_orphan_it s !! q) as [its|] eqn:Hits.
  - assert (∀ w, w ∈ set_walk its ↔ ∃ e, m_orphans s !! w = Some e ∧ q ∈ vin (tx e)) as Hw.
    { intros w. rewrite set_walk_perm, elem_of_elements, <- Hout. naive_solver. }
    rewrite (mapM_live _ (λ elem, (elem, m_orphans s !!! elem))).
    2:{ intros w (e & He & _)%Hw. rewrite He. simpl.
        by rewrite (lookup_total_correct _ _ _ He). }
    simpl. eexists. split; [done|]. intros [x w].
    rewrite list_elem_of_fmap. unfold child_at. simpl. split.
    + intros ([w' e'] & [= -> ->] & [Hp Hin]%list_elem_of_filter). simpl in *.
      apply list_elem_of_fmap in Hin as (w0 & [= -> ->] & (e & He & Hq)%Hw).
      rewrite (lookup_total_correct _ _ _ He) in *. eauto.
    + intros (e & He & -> & Hp & Hq). exists (w, e). split; [done|].
      apply list_elem_of_filter. split; [done|]. apply list_elem_of_fmap.
      exists w. rewrite (lookup_total_correct _ _ _ He). split; [done|]. apply Hw. eauto.
  - exists []. split; [done|]. intros it. split; [by intros ?%elem_of_nil|].
    intros (e & He & _ & _ & Hq). destruct (proj2 (Hout it.2)) as (? & ? & _); [eauto|].
    congruence.
Qed.

Lemma gather_children_spec s nodeid hash indices :
  Inv s →
  ∃ l, gather_children s nodeid hash indices = Some l
    ∧ ∀ it, it ∈ l ↔ ∃ i, i ∈ indices ∧ child_at s nodeid (hash, N.of_nat i) it.
Proof.
  intros HI. induction indices as [|i indices (l2 & Hl2 & Hm2)].
  - exists []. split; [done|]. intros it. split; [by intros ?%elem_of_nil|].
    by intros (? & ?%elem_of_nil & _).
  - destruct (children_of_outpoint_spec s nodeid (hash, N.of_nat i) HI) as (l1 & Hl1 & Hm1).
    exists (l1 ++ l2). cbn [gather_children]. rewrite Hl1, Hl2. split; [done|].
    intros it. rewrite elem_of_app, Hm1, Hm2. setoid_rewrite elem_of_cons. naive_solver.
Qed.

(** Property X13.  In an orphanage whose indices cohere,
    [GetChildrenFromSamePeer(parent, nodeid)] returns each stored orphan
    that [nodeid] announced and that spends an output of [parent] exactly
    once, also when it spends several outputs, and nothing else; the
    result is ordered by decreasing [nTimeExpire], and orphans with equal
    expiry by increasing address of their map entry. *)
Theorem GetChildrenFromSamePeer_lists_children_once (parent : CTransaction)
    (nodeid : NodeId) (s : TxOrphanage) :
  Inv s →
  ∃ (children : list CTransaction) (iters : list (Z * Wtxid)),
    GetChildrenFromSamePeer parent nodeid s = Some children
    ∧ Forall2 (λ it t, ∃ e, m_orphans s !! it.2 = Some e ∧ it.1 = nTimeExpire e ∧ t = tx e)
              iters children
    ∧ GetWitnessHash <$> children = snd <$> iters
    ∧ NoDup (snd <$> iters)
    ∧ (∀ w, w ∈ snd <$> iters
            ↔ ∃ e, m_orphans s !! w = Some e ∧ nodeid ∈ announcers e
                   ∧ spends_output_of parent e)
    ∧ StronglySorted
        (λ a b, b.1 < a.1 ∨ (a.1 = b.1 ∧ (address_of a.2 ≤ address_of b.2)%N)) iters.
Proof.
  intros HI. unfold GetChildrenFromSamePeer.
  destruct (gather_children_spec s nodeid (GetHash parent) (seq 0 (vout_size parent)) HI)
    as (gathered & -> & Hg). simpl.
  set (iters := unique (sort_children gathered)).
  assert (StronglySorted not_after (sort_children gathered)) as Hsorted.
  { apply (StronglySorted_merge_sort not_after). }
  assert (∀ it, it ∈ iters
            ↔ ∃ i, (i < vout_size parent)%nat
                   ∧ child_at s nodeid (GetHash parent, N.of_nat i) it) as Hmem.
  { intros it. subst iters. rewrite elem_of_unique. unfold sort_children.
    rewrite merge_sort_Permutation, Hg. setoid_rewrite elem_of_seq.
    split; intros (i & ? & ?); exists i; (split; [lia|done]). }
  assert (∀ it, it ∈ iters →
            ∃ e, m_orphans s !! it.2 = Some e ∧ it.1 = nTimeExpire e) as Hlive.
  { intros it (i & _ & e & He & Hx & _)%Hmem. eauto. }
  rewrite (mapM_live _ (λ it, tx (m_orphans s !!! it.2))).
  2:{ intros it (e & He & _)%Hlive. rewrite He. simpl.
      by rewrite (lookup_total_correct _ _ _ He). }
  exists ((λ it, tx (m_orphans s !!! it.2)) <$> iters), iters.
  split_and!; [done|..].
  - apply Forall2_fmap_r, Forall_Forall2_diag, Forall_forall.
    intros it (e & He & Hx)%Hlive. exists e.
    by rewrite (lookup_total_correct _ _ _ He).
  - rewrite <- list_fmap_compose. apply list_fmap_ext. intros i it Hit.
    destruct (Hlive it) as (e & He & _); [by eapply list_elem_of_lookup_2|].
    simpl. rewrite (lookup_total_correct _ _ _ He). by apply (inv_key _ HI).
  - apply NoDup_fmap_2_strong.
    + intros [x w] [y v] (e & He & Hx)%Hlive (e' & He' & Hy)%Hlive. simpl in *.
      intros <-. f_equal. congruence.
    + subst iters. apply (NoDup_unique not_after); [apply not_after_antisym|done].
  - intros w. rewrite list_elem_of_fmap. unfold spends_output_of. split.
    + intros (it & -> & (i & Hi & e & He & _ & Hp & Hq)%Hmem). eauto 10.
    + intros (e & He & Hp & i & Hi & Hq). exists (nTimeExpire e, w). split; [done|].
      apply Hmem. exists i. split; [done|]. exists e. done.
  - rewrite <- (list_fmap_id iters).
    apply (StronglySorted_fmap id not_after); [intros a b; apply not_after_iff|].
    subst iters. by apply StronglySorted_unique.
Qed.

End Children.

(** ** Closed instances *)

Lemma announced_two_orphans : announced two_orphans.
Proof. do 2 apply announced_AddTx. apply announced_empty. Qed.

Lemma Inv_two_orphans_queued : Inv two_orphans_queued.
Proof.
  assert (Inv (AddAnnouncer 22 7 two_orphans).2) as HI
    by apply AddAnnouncer_Inv, Inv_two_orphans.
  assert (announced (AddAnnouncer 22 7 two_orphans).2) as Han
    by apply announced_AddAnnouncer, announced_two_orphans.
  destruct (AddChildrenToWorkSet_post tx5 _ HI Han)
    as (s' & Hrun & Ho & Hl & Hb & _).
  unfold two_orphans_queued. rewrite Hrun. simpl.
  destruct HI as [[Hsz Hpos Hout] Hlist Hkey Hne].
  split; [split|..]; rewrite ?Ho, ?Hl, ?Hb; done.
Qed.

(** The theorem of X2 at a concrete orphanage. *)
Lemma EraseForPeer_witness :
  Inv two_orphans
  ∧ ∃ s', EraseForPeer 7 two_orphans = Some s'
          ∧ HaveTx 21 s' = false ∧ HaveTx 22 s' = true.
Proof.
  split; [exact Inv_two_orphans|].
  destruct (EraseForPeer_removes_peer 7 two_orphans Inv_two_orphans) as (s' & Hrun & _).
  exists s'. split; [exact Hrun|].
  revert Hrun. vm_compute. intros [= <-]. split; reflexivity.
Defined.

(** The theorem of X3 at a concrete orphanage. *)
Lemma AddChildrenToWorkSet_witness :
  Inv two_orphans ∧ announced two_orphans
  ∧ ∃ s', AddChildrenToWorkSet tx5 two_orphans = Some s'
          ∧ work_set_of 7 s' = {[21%N]} ∧ work_set_of 8 s' = {[22%N]}.
Proof.
  split_and!; [exact Inv_two_orphans|exact announced_two_orphans|].
  destruct (AddChildrenToWorkSet_queues_children tx5 two_orphans
              Inv_two_orphans announced_two_orphans) as (s' & Hrun & _).
  exists s'. split; [exact Hrun|].
  revert Hrun. vm_compute. intros [= <-]. split; reflexivity.
Defined.

(** The theorem of X5 at a concrete orphanage. *)
Lemma GetTxToReconsider_no_repeat_witness :
  Inv two_orphans_queued
  ∧ (GetTxToReconsider 7 two_orphans_queued).1 = Some tx1
  ∧ (GetTxToReconsider 7 (GetTxToReconsider 7 two_orphans_queued).2).1 = Some tx2
  ∧ GetWitnessHash tx1 ≠ GetWitnessHash tx2.
Proof.
  assert ((GetTxToReconsider 7 two_orphans_queued).1 = Some tx1) as H1
    by (vm_compute; reflexivity).
  assert ((GetTxToReconsider 7 (GetTxToReconsider 7 two_orphans_queued).2).1 = Some tx2)
    as H2 by (vm_compute; reflexivity).
  split_and!; [exact Inv_two_orphans_queued|exact H1|exact H2|].
  exact (GetTxToReconsider_no_repeat 7 two_orphans_queued tx1 tx2
           Inv_two_orphans_queued H1 H2).
Defined.

(** The theorem of X7 at a concrete orphanage. *)
Lemma children_are_reconsidered_witness :
  Inv two_orphans ∧ announced two_orphans
  ∧ ∃ s', AddChildrenToWorkSet tx5 two_orphans = Some s'
          ∧ HaveTxToReconsider 8 s' = true.
Proof.
  split_and!; [exact Inv_two_orphans|exact announced_two_orphans|].
  destruct (AddChildrenToWorkSet_post tx5 two_orphans
              Inv_two_orphans announced_two_orphans) as (s' & Hrun & _).
  exists s'. split; [exact Hrun|].
  refine (proj1 (children_are_reconsidered tx5 8 22
                   (mkOrphanTx tx2 {[8]} 2210 1 [5%N]) two_orphans s'
                   Inv_two_orphans announced_two_orphans _ _ _ Hrun)).
  - vm_compute. reflexivity.
  - simpl. set_solver.
  - exists 1%nat. split; [simpl; lia|]. simpl. set_solver.
Defined.

(** The theorem of X8 at a concrete orphanage. *)
Lemma EraseTx_witness :
  Inv two_orphans
  ∧ ∃ s', EraseTx 21 two_orphans = Some (1, s') ∧ EraseTx 21 s' = Some (0, s').
Proof.
  split; [exact Inv_two_orphans|].
  destruct (EraseTx_erases_once 21 two_orphans Inv_two_orphans)
    as (n & s' & Hrun & _ & Hn & _ & _ & _ & _ & _ & Hagain).
  exists s'. split; [|exact Hagain]. rewrite Hrun, Hn. reflexivity.
Defined.

(** The theorem of X9 at a concrete orphanage. *)
Lemma AddTx_first_announcement_witness :
  m_orphans one_orphan !! GetWitnessHash tx2 = None
  ∧ GetTransactionWeight tx2 ≤ 400000
  ∧ GetParentTxids 22
      (AddTx 400000 tx2 9 [6%N] 1020 (AddTx 400000 tx2 8 [5%N] 1010 one_orphan).2).2
    = Some [5%N].
Proof.
  assert (m_orphans one_orphan !! GetWitnessHash tx2 = None) as Hnew
    by (vm_compute; reflexivity).
  assert (GetTransactionWeight tx2 ≤ 400000) as Hw by (vm_compute; discriminate).
  split_and!; [exact Hnew|exact Hw|].
  exact (proj1 (proj2 (proj2 (proj2 (proj2 (proj2 (proj2 (proj2
           (AddTx_first_announcement_counts 400000 tx2 8 9 [5%N] [6%N] 1010 1020
              one_orphan Hnew Hw))))))))).
Defined.

(** The theorem of X10 at a concrete orphanage. *)
Lemma LimitOrphans_witness :
  Inv two_orphans
  ∧ ∃ erased s' rng',
      LimitOrphans 1 0%nat 1005 two_orphans = Some (erased, s', rng')
      ∧ length erased = 1%nat ∧ size (m_orphans s') = 1%nat.
Proof.
  split; [exact Inv_two_orphans|].
  destruct (LimitOrphans_returns_what_it_erased 1 0%nat 1005 two_orphans Inv_two_orphans)
    as (erased & s' & rng' & Hrun & _).
  exists erased, s', rng'. split; [exact Hrun|].
  revert Hrun. vm_compute. intros [= <- <- _]. split; reflexivity.
Defined.

(** The theorem of X11 at a concrete orphanage. *)
Lemma EraseForBlock_witness :
  Inv two_orphans
  ∧ ∃ vOrphanErase s',
      EraseForBlock [mkTx 14 24 [(5%N, 1%N)] 1 500] two_orphans = Some (vOrphanErase, s')
      ∧ HaveTx 21 s' = true ∧ HaveTx 22 s' = false.
Proof.
  split; [exact Inv_two_orphans|].
  destruct (EraseForBlock_erases_only_spenders [mkTx 14 24 [(5%N, 1%N)] 1 500]
              two_orphans Inv_two_orphans) as (l & s' & Hrun & _).
  exists l, s'. split; [exact Hrun|].
  revert Hrun. vm_compute. intros [= _ <-]. split; reflexivity.
Defined.

(** The theorem of X13 at a concrete orphanage. *)
Lemma GetChildrenFromSamePeer_witness :
  Inv two_orphans_queued
  ∧ GetChildrenFromSamePeer tx5 7 two_orphans_queued = Some [tx2; tx1].
Proof.
  split; [exact Inv_two_orphans_queued|].
  destruct (GetChildrenFromSamePeer_lists_children_once tx5 7 two_orphans_queued
              Inv_two_orphans_queued) as (children & iters & Hrun & _).
  rewrite Hrun. revert Hrun. vm_compute. intros [= <-]. reflexivity.
Defined.

End OrphanageOperations.

(* ===================================================================== *)
(** * Part VI: the other operations of the spork manager                  *)
(* ===================================================================== *)

Module SporkOperations.
Import Spork SporkProofs.

(** ** [ProcessSpork] and [Sign] *)

Section Messages.
Context `{SporkEnv}.

Lemma install_changes k spork st :
  seen k spork st = false → install (GetHash spork) k spork st ≠ st.
Proof.
  intros Hseen Heq.
  assert (stored st (nSporkID spork) k = Some spork) as Hst.
  { rewrite <- Heq at 1. rewrite install_stored. by rewrite decide_True. }
  pose proof (seen_false_stored k spork st spork Hseen Hst). lia.
Qed.

Lemma seen_install k spork st :
  seen k spork (install (GetHash spork) k spork st) = true.
Proof.
  unfold seen. rewrite install_active, decide_True by done.
  rewrite lookup_insert_eq. apply bool_decide_eq_true. lia.
Qed.

(** The calls of [ProcessSpork] before it looks at the message. *)
Lemma ProcessSpork_shape pfrom peer spork now st :
  let r := ProcessSpork pfrom peer NetMsgType_SPORK spork now st in
  let hash := GetHash spork in
  ∃ relay punish,
    r.2 = (if peer then [AddKnownTx pfrom hash] else [])
            ++ [ReceivedResponse pfrom hash] ++ relay
            ++ [ForgetTxHash pfrom hash] ++ punish
    ∧ ((r.1 = st ∧ relay = []) ∨ (r.1 ≠ st ∧ relay = [RelayTransactionOther hash]))
    ∧ (punish = []
       ∨ (peer = true ∧ r.1 = st
          ∧ ∃ msg, punish = [Misbehaving pfrom 100 msg])).
Proof.
  intros r hash. subst r hash. unfold ProcessSpork.
  rewrite decide_False by (by intros ?).
  case_decide.
  { simpl. exists []. destruct peer; simpl.
    - eexists. split_and!; [done|by left|]. right. eauto.
    - exists []. split_and!; [done|by left|by left]. }
  destruct (GetSignerKeyID spork) as [k|]; [case_decide|].
  - destruct (seen k spork st) eqn:Hseen; simpl.
    + exists [], []. split_and!; [|by left|by left].
      by rewrite <- ?app_assoc.
    + exists [RelayTransactionOther (GetHash spork)], [].
      split_and!; [|right; split; [by apply install_changes|done]|by left].
      unfold Relay. by rewrite <- ?app_assoc.
  - simpl. exists []. destruct peer; simpl.
    + eexists. split_and!; [done|by left|]. right. eauto.
    + exists []. split_and!; [done|by left|by left].
  - simpl. exists []. destruct peer; simpl.
    + eexists. split_and!; [done|by left|]. right. eauto.
    + exists []. split_and!; [done|by left|by left].
Qed.

(** Property X14.  [ProcessSpork] ignores every command but [NetMsgType::SPORK].
    For a spork message its calls on the peer manager are, in this order:
    [AddKnownTx] when the peer is known, [ReceivedResponse], the relay of
    the message exactly when the manager changed, [ForgetTxHash], and at
    most one [Misbehaving] of 100 points, which needs a known peer and
    leaves the manager unchanged.  When the manager changed, the message
    was signed no later than two hours ahead by an authorized key, it is
    stored under its hash and under its spork and signer, both cached
    entries of its spork are dropped, and no other stored vote changed. *)
Theorem ProcessSpork_relays_what_it_stores (pfrom : NodeId) (peer : bool)
    (strCommand : string) (spork : CSporkMessage) (now : Z) (st : CSporkManager) :
  let r := ProcessSpork pfrom peer strCommand spork now st in
  let hash := GetHash spork in
  (strCommand ≠ NetMsgType_SPORK → r = (st, []))
  ∧ (strCommand = NetMsgType_SPORK →
       ∃ relay punish,
         r.2 = (if peer then [AddKnownTx pfrom hash] else [])
                 ++ [ReceivedResponse pfrom hash] ++ relay
                 ++ [ForgetTxHash pfrom hash] ++ punish
         ∧ ((r.1 = st ∧ relay = [])
            ∨ (r.1 ≠ st ∧ relay = [RelayTransactionOther hash]))
         ∧ (punish = []
            ∨ (peer = true ∧ r.1 = st
               ∧ ∃ msg, punish = [Misbehaving pfrom 100 msg])))
  ∧ (r.1 ≠ st →
       GetSporkByHash hash r.1 = Some spork
       ∧ mapSporksCachedActive r.1 !! nSporkID spork = None
       ∧ mapSporksCachedValues r.1 !! nSporkID spork = None
       ∧ nTimeSigned spork ≤ now + 2 * 60 * 60
       ∧ ∃ k, GetSignerKeyID spork = Some k ∧ k ∈ setSporkPubKeyIDs st
              ∧ stored r.1 (nSporkID spork) k = Some spork
              ∧ ∀ id k', (id, k') ≠ (nSporkID spork, k) →
                         stored r.1 id k' = stored st id k').
Proof.
  intros r hash. split_and!.
  - intros Hne. subst r. unfold ProcessSpork. by rewrite decide_True.
  - intros ->. apply ProcessSpork_shape.
  - intros Hch. subst r hash. revert Hch. unfold ProcessSpork.
    case_decide; [done|]. case_decide; [done|].
    destruct (GetSignerKeyID spork) as [k|]; [|done].
    case_decide; [|done]. destruct (seen k spork st); [done|]. simpl. intros _.
    unfold GetSporkByHash. simpl. rewrite lookup_insert_eq, !lookup_delete_eq. split_and!; try done; try lia.
    exists k. split_and!; try done.
    + rewrite install_stored. by rewrite decide_True.
    + intros id k' Hne. rewrite install_stored. rewrite decide_False; [done|].
      intros [-> ->]. done.
Qed.

Lemma ProcessSpork_installs pfrom peer spork now st k :
  nTimeSigned spork ≤ now + 2 * 60 * 60 →
  GetSignerKeyID spork = Some k → k ∈ setSporkPubKeyIDs st → seen k spork st = false →
  (ProcessSpork pfrom peer NetMsgType_SPORK spork now st).1
  = install (GetHash spork) k spork st.
Proof.
  intros Ht Hk Hauth Hseen. unfold ProcessSpork.
  rewrite decide_False by (by intros ?). rewrite decide_False by lia.
  rewrite Hk. rewrite decide_True by done. by rewrite Hseen.
Qed.

Lemma ProcessSpork_seen pfrom peer cmd spork now st k :
  GetSignerKeyID spork = Some k → seen k spork st = true →
  let r := ProcessSpork pfrom peer cmd spork now st in
  r.1 = st ∧ ∀ hash, RelayTransactionOther hash ∉ r.2.
Proof.
  intros Hk Hseen. unfold ProcessSpork. rewrite Hk, Hseen.
  repeat case_decide; simpl; (split; [done|]); intros ?; destruct peer; set_solver.
Qed.

(** Property X15.  A spork message that [ProcessSpork] has handled once and did
    not reject for its time is dropped when it comes again, from any peer
    and at any time: the second call leaves the manager as the first call
    left it and relays nothing. *)
Theorem ProcessSpork_drops_a_replay (pfrom pfrom' : NodeId) (peer peer' : bool)
    (strCommand : string) (spork : CSporkMessage) (now now' : Z) (st : CSporkManager) :
  nTimeSigned spork ≤ now + 2 * 60 * 60 →
  let st1 := (ProcessSpork pfrom peer strCommand spork now st).1 in
  let r := ProcessSpork pfrom' peer' strCommand spork now' st1 in
  r.1 = st1 ∧ ∀ hash, RelayTransactionOther hash ∉ r.2.
Proof.
  intros Htime st1 r.
  destruct (decide (strCommand = NetMsgType_SPORK)) as [->|Hcmd].
  2:{ subst r. unfold ProcessSpork. rewrite decide_True by done.
      split; [done|]. intros ?. apply not_elem_of_nil. }
  destruct (GetSignerKeyID spork) as [k|] eqn:Hk.
  2:{ subst r. unfold ProcessSpork. rewrite Hk.
      repeat case_decide; simpl; (split; [done|]); intros ?; destruct peer'; set_solver. }
  destruct (decide (k ∈ setSporkPubKeyIDs st)) as [Hauth|Hauth].
  2:{ assert (st1 = st) as Hst1.
      { subst st1. unfold ProcessSpork. rewrite Hk.
        repeat case_decide; simpl; done. }
      subst r. rewrite Hst1. unfold ProcessSpork. rewrite Hk.
      repeat case_decide; simpl; try done;
        (split; [done|]); intros ?; destruct peer'; set_solver. }
  destruct (seen k spork st) eqn:Hseen.
  - assert (st1 = st) as Hst1
      by apply (ProcessSpork_seen pfrom peer _ spork now st k Hk Hseen).
    subst r. rewrite Hst1. by apply (ProcessSpork_seen _ _ _ _ _ _ k).
  - assert (st1 = install (GetHash spork) k spork st) as Hst1
      by by apply ProcessSpork_installs.
    subst r. rewrite Hst1. apply (ProcessSpork_seen _ _ _ _ _ _ k Hk), seen_install.
Qed.

(** Property X16.  When [CSporkMessage::Sign(key)] succeeds, the key is valid,
    the spork id, value and time of the message are unchanged (and so is
    its signature hash), the signature is the one [SignHash] made for that
    hash, and [CheckSignature] accepts the message for the id of the public
    key. *)
Theorem Sign_then_CheckSignature (key : CKey) (m spork : CSporkMessage) :
  Sign key m = Some spork →
  key_IsValid key = true
  ∧ nSporkID spork = nSporkID m ∧ nValue spork = nValue m
  ∧ nTimeSigned spork = nTimeSigned m
  ∧ GetSignatureHash spork = GetSignatureHash m
  ∧ SignHash (GetSignatureHash m) key = Some (vchSig spork)
  ∧ CheckSignature spork (key_GetPubKeyID key) = true.
Proof.
  unfold Sign. destruct (key_IsValid key) eqn:Hv; [|done].
  destruct (SignHash (GetSignatureHash m) key) as [sig|] eqn:Hs; simpl; [|done].
  destruct (VerifyHash _ _ sig) eqn:Hver; [|done]. intros [= <-].
  unfold CheckSignature, GetSignatureHash in *. simpl.
  by split_and!.
Qed.

End Messages.

(** ** [CheckAndRemove] *)

Section Cleaning.
Context `{SporkEnv}.

Lemma lookup_erase_hashes (l : list CSporkMessage) (M : gmap uint256 CSporkMessage) h x :
  foldr (λ m acc, delete (GetHash m) acc) M l !! h = Some x → M !! h = Some x.
Proof.
  induction l as [|m l IH]; simpl; [done|].
  intros [_ Hl]%lookup_delete_Some. by apply IH.
Qed.

Lemma prune_signers_Some keys signers kept :
  prune_signers keys signers = Some kept →
  kept = filter (λ km, Is_true (fHasValidSig keys km.1 km.2)) signers ∧ kept ≠ ∅.
Proof.
  unfold prune_signers. case_decide as Hsz; [done|]. intros [= <-].
  split; [done|]. by apply map_size_non_empty_iff.
Qed.

Lemma prune_signers_fixed keys signers kept :
  prune_signers keys signers = Some kept → prune_signers keys kept = Some kept.
Proof.
  intros [-> Hne]%prune_signers_Some. unfold prune_signers.
  rewrite (map_filter_id _ (filter _ signers)).
  - rewrite decide_False; [done|]. by apply map_size_non_empty_iff.
  - by intros k m [_ ?]%map_lookup_filter_Some.
Qed.

Lemma stored_pruned keys (active : gmap SporkId (gmap CKeyID CSporkMessage)) id signer m :
  (signers ← omap (prune_signers keys) active !! id; signers !! signer) = Some m
  ↔ (signers ← active !! id; signers !! signer) = Some m
    ∧ fHasValidSig keys signer m = true.
Proof.
  rewrite lookup_omap. destruct (active !! id) as [signers|]; simpl; [|naive_solver].
  destruct (prune_signers keys signers) as [kept|] eqn:Hp; simpl.
  - apply prune_signers_Some in Hp as [-> _].
    rewrite map_lookup_filter_Some. simpl. by rewrite Is_true_true.
  - split; [done|]. intros [Hs Hv]. exfalso.
    unfold prune_signers in Hp. case_decide as Hsz; [|done].
    apply map_size_empty_iff in Hsz.
    assert (filter (λ km, Is_true (fHasValidSig keys km.1 km.2)) signers !! signer
            = Some m) as Hin.
    { apply map_lookup_filter_Some. split; [done|]. simpl. by rewrite Hv. }
    rewrite Hsz in Hin. by rewrite lookup_empty in Hin.
Qed.

Lemma invalid_messages_pruned keys (active : gmap SporkId (gmap CKeyID CSporkMessage)) :
  invalid_messages keys (omap (prune_signers keys) active) = [].
Proof.
  apply elem_of_nil_inv. intros m. unfold invalid_messages.
  rewrite list_elem_of_join. intros (l & Hm & Hl).
  apply list_elem_of_fmap in Hl as ([id kept] & -> & Hent).
  apply elem_of_map_to_list in Hent. simpl in Hm.
  apply list_elem_of_fmap in Hm as ([k m'] & -> & Hkm).
  apply list_elem_of_filter in Hkm as [Hbad Hkm]. apply elem_of_map_to_list in Hkm.
  apply Hbad. simpl.
  assert ((signers ← omap (prune_signers keys) active !! id; signers !! k) = Some m')
    as Hst by (rewrite Hent; done).
  apply stored_pruned in Hst as [_ ->]. done.
Qed.

(** What [CheckAndRemove] establishes; the lemmas on sequences of calls
    build on it. *)
Lemma CheckAndRemove_post (st : CSporkManager) :
  setSporkPubKeyIDs st ≠ ∅ →
  ∃ st', CheckAndRemove st = Some st'
    ∧ (∀ id signer m,
         stored st' id signer = Some m
         ↔ stored st id signer = Some m
           ∧ signer ∈ setSporkPubKeyIDs st ∧ CheckSignature m signer = true)
    ∧ (∀ id signers, mapSporksActive st' !! id = Some signers → signers ≠ ∅)
    ∧ (∀ hash m,
         mapSporksByHash st' !! hash = Some m →
         mapSporksByHash st !! hash = Some m
         ∧ ∃ signer, signer ∈ setSporkPubKeyIDs st ∧ CheckSignature m signer = true)
    ∧ mapSporksCachedActive st' = mapSporksCachedActive st
    ∧ mapSporksCachedValues st' = mapSporksCachedValues st
    ∧ setSporkPubKeyIDs st' = setSporkPubKeyIDs st
    ∧ nMinSporkKeys st' = nMinSporkKeys st
    ∧ sporkPrivKey st' = sporkPrivKey st
    ∧ CheckAndRemove st' = Some st'.
Proof.
  intros Hkeys. unfold CheckAndRemove at 1. rewrite decide_False by done.
  eexists. split; [done|]. simpl. split_and!; try done.
  - intros id signer m. unfold stored. simpl. rewrite stored_pruned.
    unfold fHasValidSig. rewrite andb_true_iff, bool_decide_eq_true. tauto.
  - intros id signers. rewrite lookup_omap.
    destruct (mapSporksActive st !! id) as [sg|]; simpl; [|done].
    by intros [_ ?]%prune_signers_Some.
  - intros hash m [Hin Hex]%map_lookup_filter_Some. simpl in Hex. split.
    + by apply lookup_erase_hashes in Hin.
    + apply Exists_exists in Hex as (signer & Hs & Hv). exists signer.
      split; [by apply elem_of_elements in Hs|]. by apply Is_true_true.
  - unfold CheckAndRemove. simpl. rewrite decide_False by done. f_equal.
    rewrite invalid_messages_pruned. simpl. f_equal.
    + apply map_filter_id. by intros h m [_ ?]%map_lookup_filter_Some.
    + apply map_eq. intros id. rewrite !lookup_omap.
      destruct (mapSporksActive st !! id) as [sg|]; simpl; [|done].
      destruct (prune_signers _ sg) as [kept|] eqn:Hp; simpl; [|done].
      by apply prune_signers_fixed in Hp.
Qed.

(** Property X17.  With a non-empty set of spork keys [CheckAndRemove] runs to
    its end.  A vote is stored afterwards exactly when it was stored, its
    signer is an authorized key and the signature verifies for that key; no
    spork is left with an empty map of signers; [mapSporksByHash] only
    loses entries, and each entry left verifies for some authorized key;
    the two caches, the keys, the threshold and the private key are
    untouched; and a second call changes nothing. *)
Theorem CheckAndRemove_keeps_the_valid (st : CSporkManager) :
  setSporkPubKeyIDs st ≠ ∅ →
  ∃ st', CheckAndRemove st = Some st'
    ∧ (∀ id signer m,
         stored st' id signer = Some m
         ↔ stored st id signer = Some m
           ∧ signer ∈ setSporkPubKeyIDs st ∧ CheckSignature m signer = true)
    ∧ (∀ id signers, mapSporksActive st' !! id = Some signers → signers ≠ ∅)
    ∧ (∀ hash m,
         mapSporksByHash st' !! hash = Some m →
         mapSporksByHash st !! hash = Some m
         ∧ ∃ signer, signer ∈ setSporkPubKeyIDs st ∧ CheckSignature m signer = true)
    ∧ mapSporksCachedActive st' = mapSporksCachedActive st
    ∧ mapSporksCachedValues st' = mapSporksCachedValues st
    ∧ setSporkPubKeyIDs st' = setSporkPubKeyIDs st
    ∧ nMinSporkKeys st' = nMinSporkKeys st
    ∧ sporkPrivKey st' = sporkPrivKey st
    ∧ CheckAndRemove st' = Some st'.
Proof. apply CheckAndRemove_post. Qed.

End Cleaning.

(** ** [GetSporkValue], [IsSporkActive] and [SetMinSporkKeys] *)

Section Reads.
Context `{SporkEnv}.

Lemma SporkValueIsActive_again id st :
  SporkValueIsActive id (SporkValueIsActive id st).2
  = ((SporkValueIsActive id st).1, (SporkValueIsActive id st).2).
Proof.
  unfold SporkValueIsActive.
  destruct (mapSporksActive st !! id) as [signers|] eqn:Ha; simpl; [|by rewrite Ha].
  destruct (mapSporksCachedValues st !! id) as [v|] eqn:Hc; simpl; [by rewrite Ha, Hc|].
  destruct (count_votes _ _ _) as [v|] eqn:Hcount; simpl.
  - by rewrite Ha, lookup_insert_eq.
  - by rewrite Ha, Hc, Hcount.
Qed.

Lemma SporkValueIsActive_other id id' st :
  (SporkValueIsActive id' (SporkValueIsActive id st).2).1 = (SporkValueIsActive id' st).1.
Proof.
  destruct (decide (id' = id)) as [->|Hne]; [by rewrite SporkValueIsActive_again|].
  unfold SporkValueIsActive at 2.
  destruct (mapSporksActive st !! id) as [signers|]; simpl; [|done].
  destruct (mapSporksCachedValues st !! id) as [v|]; simpl; [done|].
  destruct (count_votes _ _ _) as [v|]; simpl; [|done].
  unfold SporkValueIsActive. simpl. rewrite lookup_insert_ne by done.
  destruct (mapSporksActive st !! id'); [|done].
  destruct (mapSporksCachedValues st !! id'); [done|].
  by destruct (count_votes _ _ _).
Qed.

Lemma SporkValueIsActive_fields id st :
  let st' := (SporkValueIsActive id st).2 in
  mapSporksByHash st' = mapSporksByHash st
  ∧ mapSporksActive st' = mapSporksActive st
  ∧ mapSporksCachedActive st' = mapSporksCachedActive st
  ∧ setSporkPubKeyIDs st' = setSporkPubKeyIDs st
  ∧ nMinSporkKeys st' = nMinSporkKeys st
  ∧ sporkPrivKey st' = sporkPrivKey st.
Proof.
  unfold SporkValueIsActive.
  destruct (mapSporksActive st !! id); [|done].
  destruct (mapSporksCachedValues st !! id); [done|].
  by destruct (count_votes _ _ _).
Qed.

(** Property X18.  [GetSporkValue(id)] changes nothing but the cache of values;
    calling it again returns the same value and leaves the manager as it
    is, and it does not change what [GetSporkValue] returns for any spork.
    For a spork without stored votes it returns the default value of the
    first row of [sporkDefs] with that id, or -1 when there is none, and
    leaves the manager untouched. *)
Theorem GetSporkValue_reads_are_stable (id : SporkId) (st : CSporkManager) :
  let r := GetSporkValue id st in
  GetSporkValue id r.2 = r
  ∧ (∀ id', (GetSporkValue id' r.2).1 = (GetSporkValue id' st).1)
  ∧ mapSporksByHash r.2 = mapSporksByHash st
  ∧ mapSporksActive r.2 = mapSporksActive st
  ∧ mapSporksCachedActive r.2 = mapSporksCachedActive st
  ∧ setSporkPubKeyIDs r.2 = setSporkPubKeyIDs st
  ∧ nMinSporkKeys r.2 = nMinSporkKeys st
  ∧ (mapSporksActive st !! id = None →
       r = (match find (λ d, bool_decide (sporkId d = id)) sporkDefs with
            | Some optSpork => defaultValue optSpork
            | None => -1
            end, st)).
Proof.
  intros r.
  assert (r.2 = (SporkValueIsActive id st).2) as Hr2 by apply GetSporkValue_state.
  pose proof (SporkValueIsActive_fields id st) as (Hb & Ha & Hc & Hk & Hm & _).
  rewrite Hr2. split_and!; try done.
  - subst r. unfold GetSporkValue. rewrite SporkValueIsActive_again. simpl.
    destruct ((SporkValueIsActive id st).1); [done|]. by destruct (find _ _).
  - intros id'. unfold GetSporkValue. rewrite SporkValueIsActive_other.
    destruct ((SporkValueIsActive id' st).1); [done|]. by destruct (find _ _).
  - intros Hnone. subst r. unfold GetSporkValue, SporkValueIsActive. rewrite Hnone.
    simpl. by destruct (find _ _).
Qed.

Lemma IsSporkActive_cached id now st :
  mapSporksCachedActive st !! id = Some true → IsSporkActive id now st = (true, st).
Proof. intros Hc. unfold IsSporkActive. by rewrite Hc. Qed.

Lemma IsSporkActive_computed id now st :
  mapSporksCachedActive st !! id ≠ Some true →
  let v := (GetSporkValue id st).1 in
  let st1 := (GetSporkValue id st).2 in
  IsSporkActive id now st
  = (bool_decide (v < now),
     if bool_decide (v < now) then
       mkManager (mapSporksByHash st1) (mapSporksActive st1)
                 (<[id := true]> (mapSporksCachedActive st1))
                 (mapSporksCachedValues st1)
                 (setSporkPubKeyIDs st1) (nMinSporkKeys st1) (sporkPrivKey st1)
     else st1).
Proof.
  intros Hc. unfold IsSporkActive.
  destruct (mapSporksCachedActive st !! id) as [[]|]; try done;
    by destruct (bool_decide _).
Qed.

(** Property X19.  Once [IsSporkActive(id)] has returned [true], it returns
    [true] at every time, also an earlier one, without changing the
    manager.  When it returns [false], the value of the spork is not below
    the current time and nothing is cached beyond what [GetSporkValue]
    caches.  Without a cached [true] the result is
    [GetSporkValue(id) < GetAdjustedTime()].  The cached entries of other
    sporks, the stored messages, the keys and the threshold are untouched. *)
Theorem IsSporkActive_true_sticks (id : SporkId) (now : Z) (st : CSporkManager) :
  let r := IsSporkActive id now st in
  (r.1 = true → ∀ now', IsSporkActive id now' r.2 = (true, r.2))
  ∧ (r.1 = false →
       r.2 = (GetSporkValue id st).2 ∧ now ≤ (GetSporkValue id st).1
       ∧ mapSporksCachedActive st !! id ≠ Some true)
  ∧ (mapSporksCachedActive st !! id ≠ Some true →
       r.1 = bool_decide ((GetSporkValue id st).1 < now))
  ∧ (∀ id', id' ≠ id →
       mapSporksCachedActive r.2 !! id' = mapSporksCachedActive st !! id')
  ∧ mapSporksByHash r.2 = mapSporksByHash st
  ∧ mapSporksActive r.2 = mapSporksActive st
  ∧ setSporkPubKeyIDs r.2 = setSporkPubKeyIDs st
  ∧ nMinSporkKeys r.2 = nMinSporkKeys st.
Proof.
  intros r.
  pose proof (SporkValueIsActive_fields id st) as (Hb & Ha & Hc & Hk & Hm & _).
  rewrite <- GetSporkValue_state in Hb, Ha, Hc, Hk, Hm.
  destruct (decide (mapSporksCachedActive st !! id = Some true)) as [Hcached|Hcached].
  { subst r. rewrite (IsSporkActive_cached id now st Hcached). simpl.
    split_and!; try done. intros _ now'. by apply IsSporkActive_cached. }
  subst r. rewrite (IsSporkActive_computed id now st Hcached).
  destruct (bool_decide _) eqn:Hlt; simpl.
  - split_and!; try done.
    + intros _ now'. apply IsSporkActive_cached. simpl. by rewrite lookup_insert_eq.
    + intros id' Hne. rewrite lookup_insert_ne by done. by rewrite Hc.
  - apply bool_decide_eq_false in Hlt. split_and!; try done.
    + intros _. split_and!; [done|lia|done].
    + intros id' _. by rewrite Hc.
Qed.

(** Property X20.  [SetMinSporkKeys(n)] returns [true] exactly when [n] is more
    than half of the number of spork keys and at most that number; when it
    returns [false] the manager is unchanged; when it returns [true] only
    [nMinSporkKeys] changes, to [n], and then, if every stored vote is by
    an authorized key, at most one value of a spork reaches the
    threshold. *)
Theorem SetMinSporkKeys_needs_a_majority (minSporkKeys : Z) (st : CSporkManager) :
  let r := SetMinSporkKeys minSporkKeys st in
  let maxKeysNumber := Z.of_nat (size (setSporkPubKeyIDs st)) in
  (r.1 = true ↔ maxKeysNumber < 2 * minSporkKeys ∧ minSporkKeys ≤ maxKeysNumber)
  ∧ (r.1 = false → r.2 = st)
  ∧ (r.1 = true →
       nMinSporkKeys r.2 = minSporkKeys
       ∧ mapSporksByHash r.2 = mapSporksByHash st
       ∧ mapSporksActive r.2 = mapSporksActive st
       ∧ mapSporksCachedActive r.2 = mapSporksCachedActive st
       ∧ mapSporksCachedValues r.2 = mapSporksCachedValues st
       ∧ setSporkPubKeyIDs r.2 = setSporkPubKeyIDs st
       ∧ sporkPrivKey r.2 = sporkPrivKey st
       ∧ ((∀ id signers, mapSporksActive st !! id = Some signers →
             dom signers ⊆ setSporkPubKeyIDs st) →
          ∀ id v v', has_threshold r.2 id v → has_threshold r.2 id v' → v = v')).
Proof.
  intros r maxKeysNumber. subst r. unfold SetMinSporkKeys. fold maxKeysNumber.
  pose proof (Z.quot_rem' maxKeysNumber 2) as Hq.
  pose proof (Z.rem_bound_pos maxKeysNumber 2) as Hr.
  assert (0 ≤ maxKeysNumber) as Hpos by (subst maxKeysNumber; lia).
  case_decide as Hbad; simpl.
  - split_and!; [|done|done]. split; [done|]. intros [? ?]. exfalso. lia.
  - split_and!; [|done|]. { split; [intros _; lia|done]. }
    intros _. split_and!; try done.
    intros Hdom id v v' (signers & Hs & Hv) (signers' & Hs' & Hv'). simpl in *.
    assert (signers' = signers) as -> by congruence.
    destruct (decide (v = v')) as [|Hne]; [done|exfalso].
    pose proof (votes_two signers v v' Hne) as Htwo.
    assert (size signers ≤ size (setSporkPubKeyIDs st))%nat as Hsz.
    { rewrite <- size_dom. apply subseteq_size. by apply (Hdom id). }
    subst maxKeysNumber. lia.
Qed.

End Reads.

(** ** Sequences of calls *)

Section Runs.
Context `{SporkNode}.

Lemma manager_ok_fresh keys minKeys priv : manager_ok (fresh_manager keys minKeys priv).
Proof. split; intros *; unfold stored; simpl; by rewrite ?lookup_empty. Qed.

Lemma manager_ok_install k spork st :
  GetSignerKeyID spork = Some k →
  manager_ok st → manager_ok (install (GetHash spork) k spork st).
Proof.
  intros Hk [Hh Hs Hne]. split.
  - intros hash m. simpl. intros [[<- <-]|[_ ?]]%lookup_insert_Some; [done|by apply Hh].
  - intros id signer m. rewrite install_stored. case_decide as Hpair; [|apply Hs].
    destruct Hpair as [-> ->]. by intros [= <-].
  - intros id signers. rewrite install_active. case_decide; [|apply Hne].
    intros [= <-]. apply insert_non_empty.
Qed.

Lemma manager_ok_ext st st' :
  mapSporksByHash st' = mapSporksByHash st →
  mapSporksActive st' = mapSporksActive st →
  manager_ok st → manager_ok st'.
Proof.
  intros Hb Ha [Hh Hs Hne]. split; unfold stored in *; rewrite ?Hb, ?Ha; done.
Qed.

Lemma manager_step_ok op st st' :
  manager_step op st = Some st' → manager_ok st →
  manager_ok st' ∧ setSporkPubKeyIDs st ⊆ setSporkPubKeyIDs st'.
Proof.
  destruct op as [pfrom peer cmd spork now|id value now|id|id now| | |n|addr|key];
    simpl; intros Hstep Hok.
  - injection Hstep as <-.
    destruct (ProcessSpork_outcome pfrom peer cmd spork now st)
      as [->|(k & Hk & _ & _ & ->)]; [done|].
    split; [by apply manager_ok_install|done].
  - injection Hstep as <-.
    destruct (UpdateSpork_outcome id value now st)
      as [->|(spork & k & _ & Hk & _ & ->)]; [done|].
    split; [by apply manager_ok_install|done].
  - injection Hstep as <-.
    pose proof (SporkValueIsActive_fields id st) as (Hb & Ha & _ & Hk & _).
    rewrite <- GetSporkValue_state in Hb, Ha, Hk.
    split; [by apply (manager_ok_ext st)|by rewrite Hk].
  - injection Hstep as <-.
    pose proof (SporkValueIsActive_fields id st) as (Hb & Ha & _ & Hk & _).
    rewrite <- GetSporkValue_state in Hb, Ha, Hk.
    unfold IsSporkActive. destruct (mapSporksCachedActive st !! id) as [[]|];
      try done; destruct (bool_decide _); simpl;
      (split; [by apply (manager_ok_ext st)|by rewrite ?Hk]).
  - assert (setSporkPubKeyIDs st ≠ ∅) as Hne.
    { intros He. unfold CheckAndRemove in Hstep. by rewrite decide_True in Hstep. }
    destruct (CheckAndRemove_post st Hne)
      as (st1 & Hrun & Hst & Hsig & Hhash & _ & _ & Hk & _).
    rewrite Hrun in Hstep. injection Hstep as <-. destruct Hok as [Hh Hs _].
    split; [|by rewrite Hk]. split.
    + intros hash m [Hin _]%Hhash. by apply Hh.
    + intros id signer m [Hin _]%Hst. by apply Hs.
    + done.
  - injection Hstep as <-. split; [|done].
    split; intros *; unfold stored; simpl; by rewrite ?lookup_empty.
  - injection Hstep as <-. unfold SetMinSporkKeys. case_decide; [done|].
    split; [by apply (manager_ok_ext st)|done].
  - injection Hstep as <-. unfold SetSporkAddress. case_decide; [done|].
    split; [by apply (manager_ok_ext st)|simpl; set_solver].
  - injection Hstep as <-. unfold SetPrivKey.
    destruct (GetKeysFromSecret key) as [[k pk]|]; [|done].
    case_decide; [|done]. destruct (Sign k empty_message); [|done].
    split; [by apply (manager_ok_ext st)|done].
Qed.

Lemma manager_step_fails op st :
  manager_step op st = None → op = MCheckAndRemove ∧ setSporkPubKeyIDs st = ∅.
Proof.
  destruct op; simpl; try done. intros Hnone. split; [done|].
  destruct (decide (setSporkPubKeyIDs st = ∅)) as [|Hne]; [done|].
  unfold CheckAndRemove in Hnone. by rewrite decide_False in Hnone.
Qed.

(** Property X21.  Every sequence of calls of [ProcessSpork], [UpdateSpork],
    [GetSporkValue], [IsSporkActive], [CheckAndRemove], [Clear],
    [SetMinSporkKeys], [SetSporkAddress] and [SetPrivKey], from a manager
    whose messages are filed, keeps them filed: each entry of [mapSporksByHash] sits under the hash of
    its message, each vote sits under the spork id of its message and the
    key recovered from its signature, and no spork has an empty map of
    signers.  No call removes a spork key.  The only call that can stop
    the run is [CheckAndRemove] with its [assert], and then the run
    started without spork keys. *)
Theorem every_manager_operation_files_messages (ops : list ManagerOp)
    (st : CSporkManager) :
  manager_ok st →
  match manager_run ops st with
  | Some st' => manager_ok st' ∧ setSporkPubKeyIDs st ⊆ setSporkPubKeyIDs st'
  | None => setSporkPubKeyIDs st = ∅ ∧ MCheckAndRemove ∈ ops
  end.
Proof.
  revert st. induction ops as [|op ops IH]; intros st Hok; simpl; [done|].
  destruct (manager_step op st) as [st1|] eqn:Hstep; simpl.
  - apply manager_step_ok in Hstep as [Hok1 Hsub]; [|done].
    specialize (IH st1 Hok1). destruct (manager_run ops st1) as [st'|].
    + destruct IH as [? ?]. split; [done|set_solver].
    + destruct IH as [Hempty Hin]. split; [set_solver|by right].
  - apply manager_step_fails in Hstep as [-> ?]. split; [done|by left].
Qed.

Lemma manager_step_cache op st st' :
  keeps_cache op → manager_step op st = Some st' →
  cache_coherent st → cache_coherent st'.
Proof.
  destruct op as [pfrom peer cmd spork now|id value now|id|id now| | |n|addr|key];
    simpl; intros Hkeep Hstep Hc; try done; injection Hstep as <-.
  - by apply ProcessSpork_cache_coherent.
  - by apply UpdateSpork_cache_coherent.
  - rewrite GetSporkValue_state. by apply SporkValueIsActive_cache_coherent.
  - assert (cache_coherent (GetSporkValue id st).2) as Hc1
      by (rewrite GetSporkValue_state; by apply SporkValueIsActive_cache_coherent).
    unfold IsSporkActive. destruct (mapSporksCachedActive st !! id) as [[]|];
      try done; destruct (bool_decide _); simpl; try done;
      intros i v Hv; by apply (has_threshold_ext (GetSporkValue id st).2), Hc1.
  - unfold SetSporkAddress. case_decide; [done|].
    intros i v Hv. by apply (has_threshold_ext st), Hc.
  - unfold SetPrivKey. destruct (GetKeysFromSecret key) as [[k pk]|]; [|done].
    case_decide; [|done]. destruct (Sign k empty_message); [|done].
    intros i v Hv. by apply (has_threshold_ext st), Hc.
Qed.

(** Property X22.  From a manager whose cached values are backed by votes,
    every sequence of calls of [ProcessSpork], [UpdateSpork],
    [GetSporkValue], [IsSporkActive], [SetSporkAddress] and [SetPrivKey]
    runs to its end and keeps them backed: a value
    cached for a spork has at least [nMinSporkKeys] signers among the
    stored votes of that spork, and [GetSporkValue] returns it. *)
Theorem cached_values_have_their_votes (ops : list ManagerOp) (st : CSporkManager) :
  Forall keeps_cache ops → cache_coherent st →
  ∃ st', manager_run ops st = Some st'
         ∧ cache_coherent st'
         ∧ ∀ id v, mapSporksCachedValues st' !! id = Some v →
                   (GetSporkValue id st').1 = v ∧ has_threshold st' id v.
Proof.
  intros Hall Hc.
  assert (∃ st', manager_run ops st = Some st' ∧ cache_coherent st')
    as (st' & Hrun & Hc').
  { revert st Hc. induction Hall as [|op ops Hop Hall IH]; intros st Hc; simpl; [eauto|].
    destruct (manager_step op st) as [st1|] eqn:Hstep; simpl.
    - apply IH. by apply (manager_step_cache op st).
    - apply manager_step_fails in Hstep as [-> _]. done. }
  exists st'. split_and!; try done. intros id v Hv. split; [|by apply Hc'].
  destruct (Hc' id v Hv) as (signers & Hs & _).
  unfold GetSporkValue, SporkValueIsActive. by rewrite Hs, Hv.
Qed.

End Runs.

(** ** [ProcessGetSporks], [ProcessSporkMessages] and [GetSporkIDByName] *)

Lemma join_fmap_Permutation {A B} (f g : A → list B) (l : list A) :
  (∀ x, f x ≡ₚ g x) → mjoin (f <$> l) ≡ₚ mjoin (g <$> l).
Proof.
  intros Hfg. induction l as [|x l IH]; simpl; [done|]. by rewrite Hfg, IH.
Qed.

Lemma find_NoDup {A B} `{EqDecision B} (f : A → B) (l : list A) (d : A) :
  NoDup (f <$> l) → d ∈ l → find (λ x, bool_decide (f x = f d)) l = Some d.
Proof.
  induction l as [|x l IH]; simpl; [by intros _ ?%elem_of_nil|].
  intros [Hx Hl]%NoDup_cons [->|Hd]%elem_of_cons.
  - by rewrite bool_decide_eq_true_2.
  - rewrite bool_decide_eq_false_2; [by apply IH|].
    intros Heq. apply Hx. rewrite Heq. by apply list_elem_of_fmap_2.
Qed.

Lemma find_none_iff {A} (p : A → bool) (l : list A) :
  (∀ x, x ∈ l → p x = false) → find p l = None.
Proof.
  induction l as [|x l IH]; simpl; [done|]. intros Hall.
  rewrite (Hall x) by left. apply IH. intros y Hy. apply Hall. by right.
Qed.

Section Node.
Context `{SporkNode}.

(** The messages of [mapSporksActive], one for each pair of spork and signer. *)
Lemma elem_of_stored_messages (st : CSporkManager) m :
  m ∈ mjoin ((λ pair : SporkId * gmap CKeyID CSporkMessage,
                (λ km : CKeyID * CSporkMessage, km.2) <$> map_to_list pair.2)
               <$> map_to_list (mapSporksActive st))
  ↔ ∃ id signer, stored st id signer = Some m.
Proof.
  rewrite list_elem_of_join. split.
  - intros (l & Hm & Hl). apply list_elem_of_fmap in Hl as ([id signers] & -> & Hent).
    apply elem_of_map_to_list in Hent. simpl in Hm.
    apply list_elem_of_fmap in Hm as ([k m'] & -> & Hkm).
    apply elem_of_map_to_list in Hkm. exists id, k. unfold stored. by rewrite Hent.
  - intros (id & signer & Hst). unfold stored in Hst.
    destruct (mapSporksActive st !! id) as [signers|] eqn:Hent; simpl in Hst; [|done].
    exists ((λ km : CKeyID * CSporkMessage, km.2) <$> map_to_list signers). split.
    + apply list_elem_of_fmap. exists (signer, m). split; [done|].
      by apply elem_of_map_to_list.
    + apply list_elem_of_fmap. exists (id, signers). split; [done|].
      by apply elem_of_map_to_list.
Qed.

Lemma ProcessGetSporks_perm (st : CSporkManager) :
  ProcessGetSporks NetMsgType_GETSPORKS st
  ≡ₚ mjoin ((λ pair : SporkId * gmap CKeyID CSporkMessage,
               (λ km : CKeyID * CSporkMessage, km.2) <$> map_to_list pair.2)
              <$> map_to_list (mapSporksActive st)).
Proof.
  unfold ProcessGetSporks. rewrite decide_False by (by intros ?).
  rewrite active_walk_perm. apply join_fmap_Permutation.
  intros [id signers]. simpl. by rewrite signer_walk_perm.
Qed.

(** Property X23.  [ProcessGetSporks] pushes nothing for a command other than
    [NetMsgType::GETSPORKS].  For that command it pushes the stored votes,
    one message for each pair of spork and signer, in some order: a message
    is pushed exactly when it is stored for some spork and signer, and
    nothing is pushed when no vote is stored. *)
Theorem ProcessGetSporks_pushes_the_stored (strCommand : string) (st : CSporkManager) :
  let pushed := ProcessGetSporks strCommand st in
  (strCommand ≠ NetMsgType_GETSPORKS → pushed = [])
  ∧ (strCommand = NetMsgType_GETSPORKS →
       pushed ≡ₚ mjoin ((λ pair : SporkId * gmap CKeyID CSporkMessage,
                           (λ km : CKeyID * CSporkMessage, km.2) <$> map_to_list pair.2)
                          <$> map_to_list (mapSporksActive st))
       ∧ (∀ m, m ∈ pushed ↔ ∃ id signer, stored st id signer = Some m)
       ∧ (mapSporksActive st = ∅ → pushed = [])).
Proof.
  intros pushed. subst pushed. split.
  - intros Hne. unfold ProcessGetSporks. by rewrite decide_True.
  - intros ->. pose proof (ProcessGetSporks_perm st) as Hperm. split_and!; [done| |].
    + intros m. rewrite Hperm. apply elem_of_stored_messages.
    + intros Hempty. apply Permutation_nil_r. rewrite Hperm, Hempty.
      by rewrite map_to_list_empty.
Qed.

(** Property X24.  With distinct command names for SPORK and GETSPORKS,
    [ProcessSporkMessages] does the work of one handler at most: for a
    spork message it is [ProcessSpork] and nothing is pushed to the peer;
    for a request it pushes what [ProcessGetSporks] pushes, with the
    manager unchanged and no call on the peer manager; for every other
    command it does nothing. *)
Theorem ProcessSporkMessages_handles_one_command (pfrom : NodeId) (peer : bool)
    (strCommand : string) (spork : CSporkMessage) (now : Z) (st : CSporkManager) :
  NetMsgType_SPORK ≠ NetMsgType_GETSPORKS →
  let r := ProcessSporkMessages pfrom peer strCommand spork now st in
  (strCommand = NetMsgType_SPORK →
     r = (ProcessSpork pfrom peer strCommand spork now st, []))
  ∧ (strCommand = NetMsgType_GETSPORKS →
       r = (st, [], ProcessGetSporks strCommand st))
  ∧ (strCommand ≠ NetMsgType_SPORK → strCommand ≠ NetMsgType_GETSPORKS →
       r = (st, [], [])).
Proof.
  intros Hdistinct r. subst r. unfold ProcessSporkMessages. split_and!.
  - intros ->. unfold ProcessGetSporks. rewrite decide_True by done.
    by destruct (ProcessSpork _ _ _ _ _ _).
  - intros ->. unfold ProcessSpork. rewrite decide_True by done. done.
  - intros Hs Hg. unfold ProcessSpork, ProcessGetSporks. by rewrite !decide_True.
Qed.

(** Property X25.  When the names and the ids of [sporkDefs] are free of
    duplicates, [GetSporkIDByName] maps the name of each row to the id of
    that row.  In every manager where [mapSporksActive] has no entry for
    that id, [GetSporkValue] returns the default value of the row and
    leaves the manager unchanged, and [IsSporkActive] returns [true] when
    the cached flag of the spork is [true] and otherwise compares that
    default with the current time.  A name that no row carries gives
    [SPORK_INVALID]. *)
Theorem GetSporkIDByName_reads_the_table (d : CSporkDef) (st : CSporkManager) :
  NoDup (name <$> sporkDefs) → NoDup (sporkId <$> sporkDefs) → d ∈ sporkDefs →
  GetSporkIDByName (name d) = sporkId d
  ∧ (mapSporksActive st !! sporkId d = None →
       GetSporkValue (GetSporkIDByName (name d)) st = (defaultValue d, st)
       ∧ ∀ now, (IsSporkActive (GetSporkIDByName (name d)) now st).1
                = match mapSporksCachedActive st !! sporkId d with
                  | Some true => true
                  | _ => bool_decide (defaultValue d < now)
                  end)
  ∧ (∀ strName, (∀ d', d' ∈ sporkDefs → name d' ≠ strName) →
                GetSporkIDByName strName = SPORK_INVALID).
Proof.
  intros Hnames Hids Hd.
  assert (GetSporkIDByName (name d) = sporkId d) as Hid.
  { unfold GetSporkIDByName. by rewrite (find_NoDup name sporkDefs d). }
  split_and!; [done| |].
  - intros Hnone. rewrite Hid.
    assert (GetSporkValue (sporkId d) st = (defaultValue d, st)) as Hval.
    { unfold GetSporkValue, SporkValueIsActive. rewrite Hnone. simpl.
      by rewrite (find_NoDup sporkId sporkDefs d). }
    split; [done|]. intros now.
    destruct (decide (mapSporksCachedActive st !! sporkId d = Some true)) as [Hc|Hc].
    + rewrite (IsSporkActive_cached _ now st Hc). by rewrite Hc.
    + rewrite (IsSporkActive_computed _ now st Hc). simpl. rewrite Hval. simpl.
      by destruct (mapSporksCachedActive st !! sporkId d) as [[]|].
  - intros strName Hnone. unfold GetSporkIDByName. rewrite find_none_iff; [done|].
    intros d' Hd'. apply bool_decide_eq_false_2. by apply Hnone.
Qed.

End Node.

(** ** [UpdateSpork] and [Clear] *)

Section Signer.
Context `{SporkNode}.

(** Property X26.  When [UpdateSpork] returns [false] the manager is unchanged
    and nothing is relayed.  When it returns [true], the message it signed
    with the private key of the manager is relayed once, it is stored under
    its hash and as the vote of its signer for the spork, both cached
    entries of the spork are dropped, and when the same message comes back
    from a peer, [ProcessSpork] neither changes the manager nor relays it
    again. *)
Theorem UpdateSpork_relays_once (id : SporkId) (value now : Z) (st : CSporkManager) :
  let r := UpdateSpork id value now st in
  (r.1.1 = false → r.1.2 = st ∧ r.2 = [])
  ∧ (r.1.1 = true →
       ∃ spork k,
         Sign (sporkPrivKey st) (mkSpork id value now []) = Some spork
         ∧ GetSignerKeyID spork = Some k ∧ k ∈ setSporkPubKeyIDs st
         ∧ r.2 = [RelayTransactionOther (GetHash spork)]
         ∧ GetSporkByHash (GetHash spork) r.1.2 = Some spork
         ∧ stored r.1.2 id k = Some spork
         ∧ mapSporksCachedActive r.1.2 !! id = None
         ∧ mapSporksCachedValues r.1.2 !! id = None
         ∧ ∀ pfrom peer now',
             let r' := ProcessSpork pfrom peer NetMsgType_SPORK spork now' r.1.2 in
             r'.1 = r.1.2 ∧ ∀ hash, RelayTransactionOther hash ∉ r'.2).
Proof.
  intros r. subst r.
  destruct (UpdateSpork_outcome id value now st)
    as [->|(spork & k & Hsign & Hk & Hauth & ->)]; simpl; [done|].
  split; [done|]. intros _. exists spork, k.
  pose proof (Sign_fields _ _ _ Hsign) as (Hid & _ & _). simpl in Hid.
  split_and!; try done.
  - unfold GetSporkByHash. simpl. by rewrite lookup_insert_eq.
  - rewrite install_stored. by rewrite decide_True.
  - rewrite Hid. by rewrite lookup_delete_eq.
  - rewrite Hid. by rewrite lookup_delete_eq.
  - intros pfrom peer now'. apply (ProcessSpork_seen _ _ _ _ _ _ k Hk), seen_install.
Qed.

(** Property X27.  After [Clear] no message is stored: [GetSporkByHash] finds
    nothing, [ProcessGetSporks] pushes nothing, and [GetSporkValue] returns
    for every spork its default value (-1 for an unknown id) without
    changing the manager.  The two caches, the keys, the threshold and the
    private key are kept, so [IsSporkActive] still returns [true] for a
    spork whose cached flag is [true]; a second [Clear] changes
    nothing. *)
Theorem Clear_forgets_the_votes (st : CSporkManager) :
  let st' := Clear st in
  (∀ hash, GetSporkByHash hash st' = None)
  ∧ (∀ id signer, stored st' id signer = None)
  ∧ ProcessGetSporks NetMsgType_GETSPORKS st' = []
  ∧ (∀ id, GetSporkValue id st'
           = (match find (λ d, bool_decide (sporkId d = id)) sporkDefs with
              | Some optSpork => defaultValue optSpork
              | None => -1
              end, st'))
  ∧ (∀ id now, mapSporksCachedActive st !! id = Some true →
               IsSporkActive id now st' = (true, st'))
  ∧ mapSporksCachedActive st' = mapSporksCachedActive st
  ∧ mapSporksCachedValues st' = mapSporksCachedValues st
  ∧ setSporkPubKeyIDs st' = setSporkPubKeyIDs st
  ∧ nMinSporkKeys st' = nMinSporkKeys st
  ∧ sporkPrivKey st' = sporkPrivKey st
  ∧ Clear st' = st'.
Proof.
  intros st'. subst st'. split_and!; try done.
  - apply Permutation_nil_r. rewrite ProcessGetSporks_perm. simpl.
    by rewrite map_to_list_empty.
  - intros id. unfold GetSporkValue, SporkValueIsActive. simpl. rewrite lookup_empty.
    simpl. by destruct (find _ _).
  - intros id now Hc. by apply IsSporkActive_cached.
Qed.

End Signer.

(** ** Closed instances *)

(** The theorem of X15 at a concrete manager. *)
Lemma ProcessSpork_drops_a_replay_witness :
  nTimeSigned (signed_by 1 10000 5 1000) ≤ 2000 + 2 * 60 * 60
  ∧ (ProcessSpork 8 true "spork" (signed_by 1 10000 5 1000) 1500
       (ProcessSpork 7 true "spork" (signed_by 1 10000 5 1000) 2000 committee).1).1
    = (ProcessSpork 7 true "spork" (signed_by 1 10000 5 1000) 2000 committee).1
  ∧ (ProcessSpork 7 true "spork" (signed_by 1 10000 5 1000) 2000 committee).1 ≠ committee.
Proof.
  assert (nTimeSigned (signed_by 1 10000 5 1000) ≤ 2000 + 2 * 60 * 60) as Ht
    by (vm_compute; discriminate).
  split_and!; [exact Ht| |by vm_compute].
  exact (proj1 (ProcessSpork_drops_a_replay 7 8 true true "spork"
                  (signed_by 1 10000 5 1000) 2000 1500 committee Ht)).
Defined.

(** The theorem of X16 at a concrete manager. *)
Lemma Sign_then_CheckSignature_witness :
  Sign 2%N (mkSpork 10000 5 1000 []) = Some (signed_by 2 10000 5 1000)
  ∧ CheckSignature (signed_by 2 10000 5 1000) 2%N = true.
Proof.
  assert (Sign 2%N (mkSpork 10000 5 1000 []) = Some (signed_by 2 10000 5 1000)) as Hs
    by (vm_compute; reflexivity).
  split; [exact Hs|].
  exact (proj2 (proj2 (proj2 (proj2 (proj2 (proj2
           (Sign_then_CheckSignature 2%N _ _ Hs))))))).
Defined.

(** The theorem of X17 at a concrete manager. *)
Lemma CheckAndRemove_witness :
  setSporkPubKeyIDs voted_without_2 ≠ ∅
  ∧ ∃ st', CheckAndRemove voted_without_2 = Some st'
           ∧ stored st' 10000 1%N = Some (signed_by 1 10000 1600000000 1000)
           ∧ stored st' 10000 2%N = None.
Proof.
  assert (setSporkPubKeyIDs voted_without_2 ≠ ∅) as Hk by (by vm_compute).
  split; [exact Hk|].
  destruct (CheckAndRemove_keeps_the_valid voted_without_2 Hk) as (st' & Hrun & _).
  exists st'. split; [exact Hrun|]. revert Hrun. vm_compute. intros [= <-].
  split; reflexivity.
Defined.

(** The theorem of X21 at a concrete manager. *)
Lemma manager_run_witness :
  manager_ok committee
  ∧ ∃ st', manager_run [MSetSporkAddress "two";
                        MProcessSpork 7 true "spork" (signed_by 2 10000 5 1000) 2000;
                        MCheckAndRemove; MIsSporkActive 10000 5000] committee = Some st'
           ∧ stored st' 10000 2%N = Some (signed_by 2 10000 5 1000).
Proof.
  assert (manager_ok committee) as Hok by apply manager_ok_fresh.
  split; [exact Hok|].
  pose proof (every_manager_operation_files_messages
                [MSetSporkAddress "two";
                 MProcessSpork 7 true "spork" (signed_by 2 10000 5 1000) 2000;
                 MCheckAndRemove; MIsSporkActive 10000 5000] committee Hok) as Hrun.
  destruct (manager_run _ committee) as [st'|] eqn:Heq.
  - exists st'. split; [reflexivity|]. revert Heq. vm_compute. intros [= <-]. reflexivity.
  - exfalso. destruct Hrun as [Hempty _]. revert Hempty. by vm_compute.
Defined.

(** The theorem of X22 at a concrete manager. *)
Lemma cached_values_witness :
  Forall keeps_cache [MProcessSpork 7 true "spork" (signed_by 1 10000 5 1000) 2000;
                      MProcessSpork 7 true "spork" (signed_by 3 10000 5 1001) 2000;
                      MGetSporkValue 10000]
  ∧ cache_coherent committee
  ∧ ∃ st', manager_run [MProcessSpork 7 true "spork" (signed_by 1 10000 5 1000) 2000;
                        MProcessSpork 7 true "spork" (signed_by 3 10000 5 1001) 2000;
                        MGetSporkValue 10000] committee = Some st'
           ∧ mapSporksCachedValues st' !! 10000 = Some 5
           ∧ has_threshold st' 10000 5.
Proof.
  assert (Forall keeps_cache
            [MProcessSpork 7 true "spork" (signed_by 1 10000 5 1000) 2000;
             MProcessSpork 7 true "spork" (signed_by 3 10000 5 1001) 2000;
             MGetSporkValue 10000]) as Hall by (repeat constructor).
  assert (cache_coherent committee) as Hc
    by (unfold cache_coherent, committee, fresh_manager; simpl;
        intros id v; by rewrite lookup_empty).
  split_and!; [exact Hall|exact Hc|].
  destruct (cached_values_have_their_votes _ committee Hall Hc)
    as (st' & Hrun & _ & Hvotes).
  exists st'. split; [exact Hrun|].
  assert (mapSporksCachedValues st' !! 10000 = Some 5) as Hv.
  { revert Hrun. vm_compute. intros [= <-]. reflexivity. }
  split; [exact Hv|]. exact (proj2 (Hvotes 10000 5 Hv)).
Defined.

(** The theorem of X24 at a concrete manager. *)
Lemma ProcessSporkMessages_witness :
  NetMsgType_SPORK ≠ NetMsgType_GETSPORKS
  ∧ ProcessSporkMessages 7 true "getsporks" (mkSpork 0 0 0 []) 2000 voted
    = (voted, [], ProcessGetSporks "getsporks" voted)
  ∧ length (ProcessGetSporks "getsporks" voted) = 2%nat.
Proof.
  assert (NetMsgType_SPORK ≠ NetMsgType_GETSPORKS) as Hd by (by vm_compute).
  split_and!; [exact Hd| |by vm_compute].
  exact (proj1 (proj2 (ProcessSporkMessages_handles_one_command 7 true "getsporks"
                         (mkSpork 0 0 0 []) 2000 voted Hd)) eq_refl).
Defined.

(** The theorem of X25 at the manager [Clear voted], which holds no vote
    and a cached value. *)
Lemma GetSporkIDByName_witness :
  NoDup (name <$> sporkDefs) ∧ NoDup (sporkId <$> sporkDefs)
  ∧ mkSporkDef 10000 4070908800 "SPORK_TEST" ∈ sporkDefs
  ∧ GetSporkIDByName "SPORK_TEST" = 10000
  ∧ mapSporksActive (Clear voted) !! 10000 = None
  ∧ GetSporkValue (GetSporkIDByName "SPORK_TEST") (Clear voted)
    = (4070908800, Clear voted).
Proof.
  assert (NoDup (name <$> sporkDefs)) as Hn
    by (apply NoDup_singleton).
  assert (NoDup (sporkId <$> sporkDefs)) as Hi
    by (apply NoDup_singleton).
  assert (mkSporkDef 10000 4070908800 "SPORK_TEST" ∈ sporkDefs) as Hd
    by (apply list_elem_of_singleton; reflexivity).
  assert (mapSporksActive (Clear voted) !! 10000 = None) as Hnone by reflexivity.
  split_and!; [exact Hn|exact Hi|exact Hd| |exact Hnone|].
  - exact (proj1 (GetSporkIDByName_reads_the_table _ (Clear voted) Hn Hi Hd)).
  - exact (proj1 (proj1 (proj2 (GetSporkIDByName_reads_the_table
                                  (mkSporkDef 10000 4070908800 "SPORK_TEST")
                                  (Clear voted) Hn Hi Hd)) Hnone)).
Defined.

End SporkOperations.

(* ===================================================================== *)
(** * Part VII: the cache of signature hashes                             *)
(* ===================================================================== *)

Module SigCacheProofs.
Import SigCache.

Section Cache.
Context {CachedHashes : Type}.

Lemma TrySet_present (txId : N) (hashes old : CachedHashes) (map : gmap N CachedHashes) :
  map !! txId = Some old → TrySet CachedHashes txId hashes map = (false, map).
Proof.
  intros Hold. unfold TrySet, map_insert. rewrite Hold.
  by rewrite bool_decide_eq_false_2 by (by intros ?).
Qed.

Lemma TrySet_absent (txId : N) (hashes : CachedHashes) (map : gmap N CachedHashes) :
  map !! txId = None → TrySet CachedHashes txId hashes map = (true, <[txId := hashes]> map).
Proof.
  intros Hnone. unfold TrySet, map_insert. rewrite Hnone.
  rewrite bool_decide_eq_true_2; [done|]. rewrite map_size_insert_None by done. lia.
Qed.

(** Property X28.  [CachedHashesMap::TrySet] returns [true] exactly when the
    transaction id had no entry.  It never overwrites: [TryGet] of the id
    afterwards yields the hashes stored before when there were any, and
    the new hashes otherwise.  The entries of other ids are untouched; when
    it returns [false] the map is unchanged; and a second [TrySet] of the
    same id, with any hashes, returns [false] and changes nothing. *)
Theorem TrySet_first_write_wins (txId : N) (hashes : CachedHashes)
    (map : gmap N CachedHashes) :
  let r := TrySet CachedHashes txId hashes map in
  (r.1 = true ↔ TryGet CachedHashes txId map = None)
  ∧ TryGet CachedHashes txId r.2 = Some (default hashes (TryGet CachedHashes txId map))
  ∧ (∀ other, other ≠ txId →
       TryGet CachedHashes other r.2 = TryGet CachedHashes other map)
  ∧ (r.1 = false → r.2 = map)
  ∧ (∀ hashes', TrySet CachedHashes txId hashes' r.2 = (false, r.2)).
Proof.
  intros r. subst r. unfold TryGet.
  destruct (map !! txId) as [old|] eqn:Hlook.
  - rewrite (TrySet_present txId hashes old map Hlook). simpl.
    split_and!; try done. intros hashes'. by apply (TrySet_present _ _ old).
  - rewrite (TrySet_absent txId hashes map Hlook). simpl. split_and!; try done.
    + by rewrite lookup_insert_eq.
    + intros other Hne. by rewrite lookup_insert_ne.
    + intros hashes'. apply (TrySet_present _ _ hashes). by rewrite lookup_insert_eq.
Qed.

End Cache.

End SigCacheProofs.
